(** * HybridMap: open-addressing hash maps with an inline and an indirect backend

    A shallow embedding of [constants.hpp], [flat_hash_map.hpp],
    [node_hash_map.hpp] and [hash_map.hpp], and the properties of the
    tables proved on it.

    Conventions of the embedding.
    - [size_t] values are integers in [Z]; every [size_t] operation that can
      leave the range [0, 2^64) is followed by [wrap64].
    - [std::vector<Slot>] is a [list]; [table_[pos]] is the list lookup
      [table_ !! pos], and an access outside the vector is [Undefined].
    - A member function is a function from the map to an [outcome]: the value
      returned with the map it leaves behind, or the exception thrown.
    - [double] values are IEEE 754 binary64 numbers ([spec_float] with
      precision 53 and maximal exponent 1024). *)

From Stdlib Require Import ZArith Lia Bool List.
From Stdlib Require Import Floats.SpecFloat.
From stdpp Require Import base tactics option list.

Local Open Scope Z_scope.

(** ** Outcomes of a member function *)

Inductive outcome (S A : Type) : Type :=
| Returned (a : A) (s : S)   (* normal return, the map is left as [s] *)
| TableFull (s : S)          (* throw std::runtime_error("Hash table is full") *)
| LengthError                (* std::vector::resize beyond max_size() *)
| Undefined.                 (* undefined behaviour *)

Arguments Returned {S A} a s.
Arguments TableFull {S A} s.
Arguments LengthError {S A}.
Arguments Undefined {S A}.

Definition bind {S A B : Type} (o : outcome S A) (f : A → S → outcome S B)
  : outcome S B :=
  match o with
  | Returned a s => f a s
  | TableFull s => TableFull s
  | LengthError => LengthError
  | Undefined => Undefined
  end.

Notation "'after' o 'as' x 'on' s 'then' k" := (bind o (fun x s => k))
  (at level 10, o at level 99, x name, s name, k at level 200,
   format "'[v' 'after'  o  'as'  x  'on'  s  'then' '/' k ']'").

(** ** constants.hpp *)

Definition wrap64 (x : Z) : Z := x mod 2 ^ 64.

Definition INITIAL_CAPACITY : Z := 16.
Definition EMPTY_HASH : Z := 0.
Definition TOMBSTONE_HASH : Z := 1.

(** The binary64 numbers 0.75 and 0.25. *)
Definition MAX_LOAD_FACTOR : spec_float := S754_finite false 6755399441055744 (-53).
Definition MAX_TOMBSTONE_RATIO : spec_float := S754_finite false 4503599627370496 (-54).

(** [static_cast<double>(n)] for a [size_t] [n]: round to nearest, ties to even. *)
Definition double_of_size_t (n : Z) : spec_float := binary_normalize 53 1024 n 0 false.

Definition double_div : spec_float → spec_float → spec_float := SFdiv 53 1024.

(** [a > b] on doubles; false when either side is a NaN. *)
Definition double_gt (a b : spec_float) : bool := SFltb b a.

(** [static_cast<size_t>(x)]: truncation toward zero; undefined ([None]) when
    the truncated value is not a [size_t]. *)
Definition size_t_of_double (x : spec_float) : option Z :=
  match x with
  | S754_zero _ => Some 0
  | S754_finite s m e =>
      let t := if 0 <=? e then Z.pos m * 2 ^ e else Z.pos m / 2 ^ (- e) in
      if s then (if t =? 0 then Some 0 else None)
      else if t <? 2 ^ 64 then Some t else None
  | S754_infinity _ | S754_nan => None
  end.

Definition next_power_of_2 (n : Z) : Z :=
  if n =? 0 then 1
  else
    let n := wrap64 (n - 1) in
    let n := Z.lor n (Z.shiftr n 1) in
    let n := Z.lor n (Z.shiftr n 2) in
    let n := Z.lor n (Z.shiftr n 4) in
    let n := Z.lor n (Z.shiftr n 8) in
    let n := Z.lor n (Z.shiftr n 16) in
    let n := Z.lor n (Z.shiftr n 32) in
    wrap64 (n + 1).

(** [a] has the bits [l - w + 1 .. l] set and no bit above [l]: the shape of
    the intermediate values of [next_power_of_2]. *)
Definition top_run (l w a : Z) : Prop :=
  (∀ i, 0 ≤ i → l - w < i ≤ l → Z.testbit a i = true) ∧
  (∀ i, l < i → Z.testbit a i = false).

(** [next_power_of_2(static_cast<size_t>(expected_size / MAX_LOAD_FACTOR))],
    the capacity chosen by the sized constructors. *)
Definition sized_capacity (expected_size : Z) : option Z :=
  next_power_of_2 <$>
    size_t_of_double (double_div (double_of_size_t expected_size) MAX_LOAD_FACTOR).

(** [static_cast<double>(size_ + 1) / capacity_ > MAX_LOAD_FACTOR] *)
Definition load_exceeds (size capacity : Z) : bool :=
  double_gt (double_div (double_of_size_t (wrap64 (size + 1)))
                        (double_of_size_t capacity))
            MAX_LOAD_FACTOR.

(** [static_cast<double>(tombstone_count_) / capacity_ > MAX_TOMBSTONE_RATIO] *)
Definition tombstones_exceed (tombstone_count capacity : Z) : bool :=
  double_gt (double_div (double_of_size_t tombstone_count)
                        (double_of_size_t capacity))
            MAX_TOMBSTONE_RATIO.

(** ** Probing

    The slot reached after [j] probes from the home slot of the hash [h] in a
    table of [c] slots, and the number of probes that lead from the home slot
    of [h] to the slot [pos]. *)
Definition slot_pos (c h j : Z) : Z := (h + j) mod c.
Definition displacement (c h pos : Z) : Z := (pos - h) mod c.

(** The number of elements of a list that satisfy [f]. *)
Definition count {A : Type} (f : A → bool) (t : list A) : Z :=
  Z.of_nat (length (List.filter f t)).

(** ** The template parameters

    [Key], [Value] and [Hash] of an instantiation: [==] on keys, the hasher
    (its result converted to [size_t]), the value-initialised [Value{}] used
    by [operator[]], and the largest slot count [std::vector<Slot>::resize]
    accepts before it throws [std::length_error]. The addressable memory
    bounds that count by [2^52] slots. *)

Class MapParams (Key Value : Type) := {
  key_eq_dec :: EqDecision Key;
  hash_fn : Key → Z;
  default_value : Value;
  max_slots : Z;
  max_slots_bound : max_slots ≤ 2 ^ 52;
}.

(** A pointer to a value, as returned by [insert] and [find]: null, or the
    place of the value (a slot of the table for the inline backend, an entry
    of the backing store for the indirect one). *)
Inductive value_ptr : Type :=
| nullptr
| ptr_to (place : Z).

Definition is_null (p : value_ptr) : bool :=
  match p with nullptr => true | ptr_to _ => false end.

(** ** Calls and what the caller sees

    A call of the public interface, and what it lets the caller observe:
    pointers are observed through the value they point to. *)

Inductive call (Key Value : Type) : Type :=
| call_insert (key : Key) (value : Value)
| call_erase (key : Key)
| call_clear
| call_index (key : Key)          (* operator[] *)
| call_find (key : Key)
| call_contains (key : Key).

Arguments call_insert {Key Value} key value.
Arguments call_erase {Key Value} key.
Arguments call_clear {Key Value}.
Arguments call_index {Key Value} key.
Arguments call_find {Key Value} key.
Arguments call_contains {Key Value} key.

Inductive observation (Value : Type) : Type :=
| saw_insert (pointee : Value) (inserted : bool)
| saw_erase (erased : bool)
| saw_clear
| saw_index (pointee : Value)
| saw_find (pointee : option Value)   (* [None] for a null pointer *)
| saw_contains (present : bool)
| saw_table_full.                     (* the call threw "Hash table is full" *)

Arguments saw_insert {Value} pointee inserted.
Arguments saw_erase {Value} erased.
Arguments saw_clear {Value}.
Arguments saw_index {Value} pointee.
Arguments saw_find {Value} pointee.
Arguments saw_contains {Value} present.
Arguments saw_table_full {Value}.

(** The map a call leaves behind when control comes back to the caller, by a
    return or by the exception "Hash table is full". *)
Definition leaves {S A : Type} (o : outcome S A) (s : S) : Prop :=
  (∃ a, o = Returned a s) ∨ o = TableFull s.

(** ** flat_hash_map.hpp: the inline backend *)

Module Flat.
Section FlatHashMap.
Context {Key Value : Type} `{!MapParams Key Value}.

(** A slot: the hash marker and the raw storage of the key and of the
    value; a storage holds [Some] object between its [construct_at] and its
    [destroy_at]. *)
Record Slot : Type := {
  hash : Z;
  key_storage : option Key;
  value_storage : option Value;
}.

(** [Slot() : hash(0) {}] *)
Definition new_slot : Slot :=
  {| hash := 0; key_storage := None; value_storage := None |}.

Record FlatHashMap : Type := {
  table_ : list Slot;
  size_ : Z;
  capacity_ : Z;
  tombstone_count_ : Z;
}.

Definition set_table (t : list Slot) (m : FlatHashMap) : FlatHashMap :=
  {| table_ := t; size_ := size_ m; capacity_ := capacity_ m;
     tombstone_count_ := tombstone_count_ m |}.
Definition set_size (n : Z) (m : FlatHashMap) : FlatHashMap :=
  {| table_ := table_ m; size_ := n; capacity_ := capacity_ m;
     tombstone_count_ := tombstone_count_ m |}.
Definition set_tombstone_count (n : Z) (m : FlatHashMap) : FlatHashMap :=
  {| table_ := table_ m; size_ := size_ m; capacity_ := capacity_ m;
     tombstone_count_ := n |}.

Definition set_hash (h : Z) (slot : Slot) : Slot :=
  {| hash := h; key_storage := key_storage slot;
     value_storage := value_storage slot |}.
Definition set_value (value : Value) (slot : Slot) : Slot :=
  {| hash := hash slot; key_storage := key_storage slot;
     value_storage := Some value |}.

Definition is_empty (slot : Slot) : bool := hash slot =? EMPTY_HASH.
Definition is_tombstone (slot : Slot) : bool := hash slot =? TOMBSTONE_HASH.

Definition make_hash (h : Z) : Z :=
  if (h =? EMPTY_HASH) || (h =? TOMBSTONE_HASH) then 2 else h.

(** [make_hash(hash_fn_(key))] *)
Definition hash_of (key : Key) : Z := make_hash (wrap64 (hash_fn key)).

Definition probe (m : FlatHashMap) (index i : Z) : Z :=
  Z.land (wrap64 (index + i)) (wrap64 (capacity_ m - 1)).

(** [hash & (capacity_ - 1)] *)
Definition home (m : FlatHashMap) (h : Z) : Z :=
  Z.land h (wrap64 (capacity_ m - 1)).

Definition destroy_slot (slot : Slot) : Slot :=
  if negb (is_empty slot) && negb (is_tombstone slot)
  then {| hash := hash slot; key_storage := None; value_storage := None |}
  else slot.

(** The slot written by [table_[pos].hash = h] followed by the two
    [construct_at]. *)
Definition filled (h : Z) (key : Key) (value : Value) : Slot :=
  {| hash := h; key_storage := Some key; value_storage := Some value |}.

(** The loop of [insert_internal], from iteration [i], with [fuel]
    iterations left. *)
Fixpoint insert_internal_loop (fuel : nat) (i : Z) (index h : Z)
    (key : Key) (value : Value) (m : FlatHashMap) : outcome FlatHashMap unit :=
  match fuel with
  | O => TableFull m
  | S fuel' =>
      let pos := probe m index i in
      match table_ m !! Z.to_nat pos with
      | None => Undefined
      | Some slot =>
          if is_empty slot || is_tombstone slot then
            let m := if is_tombstone slot
                     then set_tombstone_count (wrap64 (tombstone_count_ m - 1)) m
                     else m in
            Returned tt (set_table (<[Z.to_nat pos := filled h key value]> (table_ m)) m)
          else insert_internal_loop fuel' (wrap64 (i + 1)) index h key value m
      end
  end.

Definition insert_internal (h : Z) (key : Key) (value : Value)
    (m : FlatHashMap) : outcome FlatHashMap unit :=
  insert_internal_loop (Z.to_nat (capacity_ m)) 0 (home m h) h key value m.

(** The loop of [rehash] over the old table. The old slots are destroyed
    with the old table and leave no trace in the map. *)
Fixpoint rehash_loop (old_table : list Slot) (m : FlatHashMap)
    : outcome FlatHashMap unit :=
  match old_table with
  | [] => Returned tt m
  | slot :: rest =>
      if negb (is_empty slot) && negb (is_tombstone slot) then
        match key_storage slot, value_storage slot with
        | Some key, Some value =>
            after insert_internal (hash slot) key value m as _u on m then
            rehash_loop rest m
        | _, _ => Undefined
        end
      else rehash_loop rest m
  end.

Definition rehash (new_capacity : Z) (m : FlatHashMap) : outcome FlatHashMap unit :=
  let old_table := table_ m in
  if max_slots <? new_capacity then LengthError
  else
    rehash_loop old_table
      {| table_ := replicate (Z.to_nat new_capacity) new_slot;
         size_ := size_ m;
         capacity_ := new_capacity;
         tombstone_count_ := 0 |}.

(** The loop of [find_slot]; [None] is undefined behaviour. *)
Fixpoint find_slot_loop (fuel : nat) (i : Z) (index : Z) (key : Key) (h : Z)
    (m : FlatHashMap) : option Z :=
  match fuel with
  | O => Some (capacity_ m)
  | S fuel' =>
      let pos := probe m index i in
      match table_ m !! Z.to_nat pos with
      | None => None
      | Some slot =>
          if is_empty slot then Some (capacity_ m)
          else if is_tombstone slot
          then find_slot_loop fuel' (wrap64 (i + 1)) index key h m
          else if hash slot =? h then
            match key_storage slot with
            | None => None
            | Some k =>
                if bool_decide (k = key) then Some pos
                else find_slot_loop fuel' (wrap64 (i + 1)) index key h m
            end
          else find_slot_loop fuel' (wrap64 (i + 1)) index key h m
      end
  end.

Definition find_slot (key : Key) (h : Z) (m : FlatHashMap) : option Z :=
  find_slot_loop (Z.to_nat (capacity_ m)) 0 (home m h) key h m.

(** [FlatHashMap()] *)
Definition create : outcome FlatHashMap unit :=
  if max_slots <? INITIAL_CAPACITY then LengthError
  else Returned tt
         {| table_ := replicate (Z.to_nat INITIAL_CAPACITY) new_slot;
            size_ := 0; capacity_ := INITIAL_CAPACITY; tombstone_count_ := 0 |}.

(** [FlatHashMap(size_t expected_size)] *)
Definition create_sized (expected_size : Z) : outcome FlatHashMap unit :=
  match sized_capacity expected_size with
  | None => Undefined
  | Some capacity =>
      if max_slots <? capacity then LengthError
      else Returned tt
             {| table_ := replicate (Z.to_nat capacity) new_slot;
                size_ := 0; capacity_ := capacity; tombstone_count_ := 0 |}
  end.

(** The state a moved-from [std::vector] and the three assignments of the
    move operations leave in the source. *)
Definition moved_from : FlatHashMap :=
  {| table_ := []; size_ := 0; capacity_ := 0; tombstone_count_ := 0 |}.

(** [FlatHashMap(FlatHashMap &&other)]: the new map and the source. *)
Definition move_construct (other : FlatHashMap) : FlatHashMap * FlatHashMap :=
  (other, moved_from).

(** [operator=(FlatHashMap &&other)] on distinct objects ([this != &other]):
    the target and the source afterwards. *)
Definition move_assign (this other : FlatHashMap) : FlatHashMap * FlatHashMap :=
  (other, moved_from).

Definition size (m : FlatHashMap) : Z := size_ m.
Definition empty (m : FlatHashMap) : bool := size_ m =? 0.
Definition capacity (m : FlatHashMap) : Z := capacity_ m.

Definition clear (m : FlatHashMap) : outcome FlatHashMap unit :=
  Returned tt
    {| table_ := (fun slot => set_hash EMPTY_HASH (destroy_slot slot)) <$> table_ m;
       size_ := 0;
       capacity_ := capacity_ m;
       tombstone_count_ := 0 |}.

(** The probing loop of [insert]. *)
Fixpoint insert_loop (fuel : nat) (i : Z) (first_tombstone : Z) (index h : Z)
    (key : Key) (value : Value) (m : FlatHashMap)
    : outcome FlatHashMap (value_ptr * bool) :=
  match fuel with
  | O => TableFull m
  | S fuel' =>
      let pos := probe m index i in
      match table_ m !! Z.to_nat pos with
      | None => Undefined
      | Some slot =>
          if is_empty slot then
            let reuse := negb (first_tombstone =? capacity_ m) in
            let insert_pos := if reuse then first_tombstone else pos in
            let m := if reuse
                     then set_tombstone_count (wrap64 (tombstone_count_ m - 1)) m
                     else m in
            let m := set_table (<[Z.to_nat insert_pos := filled h key value]> (table_ m)) m in
            Returned (ptr_to insert_pos, true) (set_size (wrap64 (size_ m + 1)) m)
          else if is_tombstone slot && (first_tombstone =? capacity_ m) then
            insert_loop fuel' (wrap64 (i + 1)) pos index h key value m
          else if negb (is_tombstone slot) && (hash slot =? h) then
            match key_storage slot with
            | None => Undefined
            | Some k =>
                if bool_decide (k = key) then
                  match value_storage slot with
                  | None => Undefined
                  | Some _ =>
                      Returned (ptr_to pos, false)
                        (set_table (<[Z.to_nat pos := set_value value slot]> (table_ m)) m)
                  end
                else insert_loop fuel' (wrap64 (i + 1)) first_tombstone index h key value m
            end
          else insert_loop fuel' (wrap64 (i + 1)) first_tombstone index h key value m
      end
  end.

Definition insert (key : Key) (value : Value) (m : FlatHashMap)
    : outcome FlatHashMap (value_ptr * bool) :=
  after (if load_exceeds (size_ m) (capacity_ m)
            || tombstones_exceed (tombstone_count_ m) (capacity_ m)
         then rehash (wrap64 (capacity_ m * 2)) m
         else Returned tt m) as _u on m then
  let h := hash_of key in
  insert_loop (Z.to_nat (capacity_ m)) 0 (capacity_ m) (home m h) h key value m.

(** [find]: a pointer to the value of the slot found, or null. *)
Definition find (key : Key) (m : FlatHashMap) : option value_ptr :=
  pos ← find_slot key (hash_of key) m;
  Some (if pos =? capacity_ m then nullptr else ptr_to pos).

(** [*p] for a pointer returned by [insert], [find] or [operator[]]. *)
Definition deref (p : value_ptr) (m : FlatHashMap) : option Value :=
  match p with
  | nullptr => None
  | ptr_to pos => slot ← table_ m !! Z.to_nat pos; value_storage slot
  end.

Definition contains (key : Key) (m : FlatHashMap) : option bool :=
  p ← find key m; Some (negb (is_null p)).

(** What [find] lets the caller read: nothing behind a null pointer, the
    value behind any other. *)
Definition find_value (key : Key) (m : FlatHashMap) : option (option Value) :=
  p ← find key m;
  match p with
  | nullptr => Some None
  | ptr_to _ => v ← deref p m; Some (Some v)
  end.

(** [operator[]] *)
Definition index (key : Key) (m : FlatHashMap) : outcome FlatHashMap value_ptr :=
  match find_slot key (hash_of key) m with
  | None => Undefined
  | Some pos =>
      if negb (pos =? capacity_ m) then Returned (ptr_to pos) m
      else
        after insert key default_value m as result on m then
        Returned (fst result) m
  end.

Definition erase (key : Key) (m : FlatHashMap) : outcome FlatHashMap bool :=
  match find_slot key (hash_of key) m with
  | None => Undefined
  | Some pos =>
      if pos =? capacity_ m then Returned false m
      else
        match table_ m !! Z.to_nat pos with
        | None => Undefined
        | Some slot =>
            let slot := set_hash TOMBSTONE_HASH (destroy_slot slot) in
            let m := set_table (<[Z.to_nat pos := slot]> (table_ m)) m in
            let m := set_tombstone_count (wrap64 (tombstone_count_ m + 1)) m in
            let m := set_size (wrap64 (size_ m - 1)) m in
            if tombstones_exceed (tombstone_count_ m) (capacity_ m) && (0 <? size_ m)
            then after rehash (capacity_ m) m as _u on m then Returned true m
            else Returned true m
        end
  end.

(** One call of the public interface. *)
Definition step (c : call Key Value) (m : FlatHashMap)
    : outcome FlatHashMap (observation Value) :=
  match c with
  | call_insert key value =>
      after insert key value m as result on m then
      match deref (fst result) m with
      | Some v => Returned (saw_insert v (snd result)) m
      | None => Undefined
      end
  | call_erase key =>
      after erase key m as erased on m then Returned (saw_erase erased) m
  | call_clear =>
      after clear m as _u on m then Returned saw_clear m
  | call_index key =>
      after index key m as p on m then
      match deref p m with
      | Some v => Returned (saw_index v) m
      | None => Undefined
      end
  | call_find key =>
      match find_value key m with
      | None => Undefined
      | Some pointee => Returned (saw_find pointee) m
      end
  | call_contains key =>
      match contains key m with
      | None => Undefined
      | Some b => Returned (saw_contains b) m
      end
  end.

(** A sequence of calls; the caller catches "Hash table is full" and goes
    on, and the run ends at a failed allocation or undefined behaviour. *)
Fixpoint run (cs : list (call Key Value)) (m : FlatHashMap)
    : outcome FlatHashMap (list (observation Value)) :=
  match cs with
  | [] => Returned [] m
  | c :: cs =>
      match step c m with
      | Returned o m =>
          after run cs m as os on m then Returned (o :: os) m
      | TableFull m =>
          after run cs m as os on m then Returned (saw_table_full :: os) m
      | LengthError => LengthError
      | Undefined => Undefined
      end
  end.

(** The maps a program can hold: a freshly constructed map, and the map
    left by a call on such a map. *)
Inductive reachable : FlatHashMap → Prop :=
| reachable_create m :
    create = Returned tt m → reachable m
| reachable_create_sized expected_size m :
    0 ≤ expected_size < 2 ^ 64 →
    create_sized expected_size = Returned tt m → reachable m
| reachable_step c m m' :
    reachable m → leaves (step c m) m' → reachable m'.

(** *** The vocabulary of the proofs *)

Definition occupied (slot : Slot) : bool :=
  negb (is_empty slot) && negb (is_tombstone slot).

(** The table of a map is well formed: its capacity is a power of two
    that can be allocated; it has [capacity_] slots; an occupied slot holds
    a live key and a live value under the hash of the key; no empty slot
    lies on the probe path from the home slot of an occupied slot to that
    slot; no key occupies two slots. *)
Record table_ok (m : FlatHashMap) : Prop := {
  ok_pow2 : ∃ p, 0 ≤ p ∧ capacity_ m = 2 ^ p;
  ok_max : capacity_ m ≤ max_slots;
  ok_length : Z.of_nat (length (table_ m)) = capacity_ m;
  ok_slot : ∀ (pos : nat) slot,
    table_ m !! pos = Some slot → occupied slot = true →
    ∃ k v, key_storage slot = Some k ∧ value_storage slot = Some v
           ∧ hash slot = hash_of k;
  ok_chain : ∀ (pos : nat) slot j,
    table_ m !! pos = Some slot → occupied slot = true →
    0 ≤ j < displacement (capacity_ m) (hash slot) (Z.of_nat pos) →
    ∃ s, table_ m !! Z.to_nat (slot_pos (capacity_ m) (hash slot) j) = Some s
         ∧ is_empty s = false;
  ok_nodup : ∀ (p1 p2 : nat) s1 s2,
    table_ m !! p1 = Some s1 → table_ m !! p2 = Some s2 →
    occupied s1 = true → occupied s2 = true →
    key_storage s1 = key_storage s2 → p1 = p2;
}.

(** The invariant of a map with a table: the table is well formed, the
    counters count its slots, the load is at most 0.75, and the tombstones
    fill at most a quarter of the table unless the map is empty. *)
Record invariant (m : FlatHashMap) : Prop := {
  inv_table : table_ok m;
  inv_size : size_ m = count occupied (table_ m);
  inv_tombstones : tombstone_count_ m = count is_tombstone (table_ m);
  inv_load : 4 * size_ m ≤ 3 * capacity_ m;
  inv_ratio : 4 * tombstone_count_ m ≤ capacity_ m ∨ size_ m = 0;
}.

(** [key] is stored with [value] in slot [pos]. *)
Definition stored_at (m : FlatHashMap) (pos : nat) (key : Key) (value : Value)
    : Prop :=
  ∃ slot, table_ m !! pos = Some slot ∧ occupied slot = true
          ∧ key_storage slot = Some key ∧ value_storage slot = Some value.

Definition stored (m : FlatHashMap) (key : Key) (value : Value) : Prop :=
  ∃ pos, stored_at m pos key value.

(** The keys of the occupied slots, in table order. *)
Definition keys_of (t : list Slot) : list Key :=
  omap (λ slot, if occupied slot then key_storage slot else None) t.

Definition keys (m : FlatHashMap) : list Key := keys_of (table_ m).

(** An occupied slot holds a live key and a live value under the hash of
    the key. *)
Definition slot_ok (slot : Slot) : Prop :=
  occupied slot = true →
  ∃ k v, key_storage slot = Some k ∧ value_storage slot = Some v
         ∧ hash slot = hash_of k.

(** The slot holds [key] and [value]. *)
Definition holds (slot : Slot) (key : Key) (value : Value) : Prop :=
  occupied slot = true ∧ key_storage slot = Some key
  ∧ value_storage slot = Some value.

(** [first_tombstone] during the loop of [insert], before iteration [i] of
    the probe sequence of the hash [h]: still unset, or one of the
    tombstones met so far. *)
Definition remembered (m : FlatHashMap) (h i first_tombstone : Z) : Prop :=
  first_tombstone ≠ capacity_ m →
  ∃ j0 s, 0 ≤ j0 < i
          ∧ first_tombstone = slot_pos (capacity_ m) h j0
          ∧ table_ m !! Z.to_nat first_tombstone = Some s
          ∧ is_tombstone s = true.

End FlatHashMap.

Arguments Slot : clear implicits.
Arguments FlatHashMap : clear implicits.
End Flat.

(** ** node_hash_map.hpp: the indirect backend *)

Module Node.
Section NodeHashMap.
Context {Key Value : Type} `{!MapParams Key Value}.

(** [std::pair<const Key, Value> data] *)
Record Entry : Type := { data : Key * Value }.

(** An [Entry *]: null, the sentinel [tombstone_ptr()], or the address of
    an entry owned by [entries_], named by the index of its owner. *)
Inductive entry_ptr : Type :=
| null_entry
| tombstone_ptr
| entry_at (owner : nat).

Record Slot : Type := {
  hash : Z;
  entry : entry_ptr;
}.

(** [Slot() : hash(0), entry(nullptr) {}] *)
Definition new_slot : Slot := {| hash := 0; entry := null_entry |}.

Record NodeHashMap : Type := {
  table_ : list Slot;
  entries_ : list Entry;
  size_ : Z;
  capacity_ : Z;
  tombstone_count_ : Z;
}.

Definition set_table (t : list Slot) (m : NodeHashMap) : NodeHashMap :=
  {| table_ := t; entries_ := entries_ m; size_ := size_ m;
     capacity_ := capacity_ m; tombstone_count_ := tombstone_count_ m |}.
Definition set_entries (es : list Entry) (m : NodeHashMap) : NodeHashMap :=
  {| table_ := table_ m; entries_ := es; size_ := size_ m;
     capacity_ := capacity_ m; tombstone_count_ := tombstone_count_ m |}.
Definition set_size (n : Z) (m : NodeHashMap) : NodeHashMap :=
  {| table_ := table_ m; entries_ := entries_ m; size_ := n;
     capacity_ := capacity_ m; tombstone_count_ := tombstone_count_ m |}.
Definition set_tombstone_count (n : Z) (m : NodeHashMap) : NodeHashMap :=
  {| table_ := table_ m; entries_ := entries_ m; size_ := size_ m;
     capacity_ := capacity_ m; tombstone_count_ := n |}.

Definition is_tombstone (slot : Slot) : bool :=
  match entry slot with tombstone_ptr => true | _ => false end.
Definition is_empty (slot : Slot) : bool :=
  match entry slot with null_entry => true | _ => false end.

Definition make_hash (h : Z) : Z :=
  if (h =? EMPTY_HASH) || (h =? TOMBSTONE_HASH) then 2 else h.

(** [make_hash(hash_fn_(key))] *)
Definition hash_of (key : Key) : Z := make_hash (wrap64 (hash_fn key)).

Definition probe (m : NodeHashMap) (index i : Z) : Z :=
  Z.land (wrap64 (index + i)) (wrap64 (capacity_ m - 1)).

(** [hash & (capacity_ - 1)] *)
Definition home (m : NodeHashMap) (h : Z) : Z :=
  Z.land h (wrap64 (capacity_ m - 1)).

(** [slot.entry->data.first]; [None] when the pointer is not the address of
    a live entry. *)
Definition entry_key (slot : Slot) (m : NodeHashMap) : option Key :=
  match entry slot with
  | entry_at owner => e ← entries_ m !! owner; Some (fst (data e))
  | _ => None
  end.

Fixpoint insert_internal_loop (fuel : nat) (i : Z) (index h : Z)
    (e : entry_ptr) (m : NodeHashMap) : outcome NodeHashMap unit :=
  match fuel with
  | O => TableFull m
  | S fuel' =>
      let pos := probe m index i in
      match table_ m !! Z.to_nat pos with
      | None => Undefined
      | Some slot =>
          if is_empty slot || is_tombstone slot then
            let m := if is_tombstone slot
                     then set_tombstone_count (wrap64 (tombstone_count_ m - 1)) m
                     else m in
            Returned tt
              (set_table (<[Z.to_nat pos := {| hash := h; entry := e |}]> (table_ m)) m)
          else insert_internal_loop fuel' (wrap64 (i + 1)) index h e m
      end
  end.

Definition insert_internal (h : Z) (e : entry_ptr) (m : NodeHashMap)
    : outcome NodeHashMap unit :=
  insert_internal_loop (Z.to_nat (capacity_ m)) 0 (home m h) h e m.

Fixpoint rehash_loop (old_table : list Slot) (m : NodeHashMap)
    : outcome NodeHashMap unit :=
  match old_table with
  | [] => Returned tt m
  | slot :: rest =>
      if negb (is_empty slot) && negb (is_tombstone slot) then
        after insert_internal (hash slot) (entry slot) m as _u on m then
        rehash_loop rest m
      else rehash_loop rest m
  end.

Definition rehash (new_capacity : Z) (m : NodeHashMap) : outcome NodeHashMap unit :=
  let old_table := table_ m in
  if max_slots <? new_capacity then LengthError
  else
    rehash_loop old_table
      {| table_ := replicate (Z.to_nat new_capacity) new_slot;
         entries_ := entries_ m;
         size_ := size_ m;
         capacity_ := new_capacity;
         tombstone_count_ := 0 |}.

Fixpoint find_slot_loop (fuel : nat) (i : Z) (index : Z) (key : Key) (h : Z)
    (m : NodeHashMap) : option Z :=
  match fuel with
  | O => Some (capacity_ m)
  | S fuel' =>
      let pos := probe m index i in
      match table_ m !! Z.to_nat pos with
      | None => None
      | Some slot =>
          if is_empty slot then Some (capacity_ m)
          else if is_tombstone slot
          then find_slot_loop fuel' (wrap64 (i + 1)) index key h m
          else if hash slot =? h then
            match entry_key slot m with
            | None => None
            | Some k =>
                if bool_decide (k = key) then Some pos
                else find_slot_loop fuel' (wrap64 (i + 1)) index key h m
            end
          else find_slot_loop fuel' (wrap64 (i + 1)) index key h m
      end
  end.

Definition find_slot (key : Key) (h : Z) (m : NodeHashMap) : option Z :=
  find_slot_loop (Z.to_nat (capacity_ m)) 0 (home m h) key h m.

(** [NodeHashMap()] *)
Definition create : outcome NodeHashMap unit :=
  if max_slots <? INITIAL_CAPACITY then LengthError
  else Returned tt
         {| table_ := replicate (Z.to_nat INITIAL_CAPACITY) new_slot;
            entries_ := [];
            size_ := 0; capacity_ := INITIAL_CAPACITY; tombstone_count_ := 0 |}.

(** [NodeHashMap(size_t expected_size)] *)
Definition create_sized (expected_size : Z) : outcome NodeHashMap unit :=
  match sized_capacity expected_size with
  | None => Undefined
  | Some capacity =>
      if max_slots <? capacity then LengthError
      else Returned tt
             {| table_ := replicate (Z.to_nat capacity) new_slot;
                entries_ := [];
                size_ := 0; capacity_ := capacity; tombstone_count_ := 0 |}
  end.

(** The move operations are defaulted ([= default]): each member is moved
    in turn. The two vectors of the source are left empty; moving a
    [size_t] copies it, so the three counters of the source keep their
    values. *)
Definition moved_from (other : NodeHashMap) : NodeHashMap :=
  {| table_ := []; entries_ := [];
     size_ := size_ other; capacity_ := capacity_ other;
     tombstone_count_ := tombstone_count_ other |}.

(** [NodeHashMap(NodeHashMap &&)]: the new map and the source. *)
Definition move_construct (other : NodeHashMap) : NodeHashMap * NodeHashMap :=
  (other, moved_from other).

(** [operator=(NodeHashMap &&)] on distinct objects: the target and the
    source afterwards. *)
Definition move_assign (this other : NodeHashMap) : NodeHashMap * NodeHashMap :=
  (other, moved_from other).

Definition size (m : NodeHashMap) : Z := size_ m.
Definition empty (m : NodeHashMap) : bool := size_ m =? 0.
Definition capacity (m : NodeHashMap) : Z := capacity_ m.

Definition clear (m : NodeHashMap) : outcome NodeHashMap unit :=
  Returned tt
    {| table_ := replicate (Z.to_nat (capacity_ m)) new_slot;
       entries_ := [];
       size_ := 0;
       capacity_ := capacity_ m;
       tombstone_count_ := 0 |}.

(** [entry->data.second = value] *)
Definition set_value (value : Value) (e : Entry) : Entry :=
  {| data := (fst (data e), value) |}.

Fixpoint insert_loop (fuel : nat) (i : Z) (first_tombstone : Z) (index h : Z)
    (key : Key) (value : Value) (m : NodeHashMap)
    : outcome NodeHashMap (value_ptr * bool) :=
  match fuel with
  | O => TableFull m
  | S fuel' =>
      let pos := probe m index i in
      match table_ m !! Z.to_nat pos with
      | None => Undefined
      | Some slot =>
          if is_empty slot then
            let reuse := negb (first_tombstone =? capacity_ m) in
            let insert_pos := if reuse then first_tombstone else pos in
            let m := if reuse
                     then set_tombstone_count (wrap64 (tombstone_count_ m - 1)) m
                     else m in
            let owner := length (entries_ m) in
            let m := set_entries (entries_ m ++ [{| data := (key, value) |}]) m in
            let m := set_table (<[Z.to_nat insert_pos :=
                                   {| hash := h; entry := entry_at owner |}]> (table_ m)) m in
            Returned (ptr_to (Z.of_nat owner), true) (set_size (wrap64 (size_ m + 1)) m)
          else if is_tombstone slot && (first_tombstone =? capacity_ m) then
            insert_loop fuel' (wrap64 (i + 1)) pos index h key value m
          else if negb (is_tombstone slot) && (hash slot =? h) then
            match entry slot with
            | entry_at owner =>
                match entries_ m !! owner with
                | None => Undefined
                | Some e =>
                    if bool_decide (fst (data e) = key) then
                      Returned (ptr_to (Z.of_nat owner), false)
                        (set_entries (<[owner := set_value value e]> (entries_ m)) m)
                    else insert_loop fuel' (wrap64 (i + 1)) first_tombstone index h key value m
                end
            | _ => Undefined
            end
          else insert_loop fuel' (wrap64 (i + 1)) first_tombstone index h key value m
      end
  end.

Definition insert (key : Key) (value : Value) (m : NodeHashMap)
    : outcome NodeHashMap (value_ptr * bool) :=
  after (if load_exceeds (size_ m) (capacity_ m)
            || tombstones_exceed (tombstone_count_ m) (capacity_ m)
         then rehash (wrap64 (capacity_ m * 2)) m
         else Returned tt m) as _u on m then
  let h := hash_of key in
  insert_loop (Z.to_nat (capacity_ m)) 0 (capacity_ m) (home m h) h key value m.

(** [find]: a pointer to the value of the entry found, or null. *)
Definition find (key : Key) (m : NodeHashMap) : option value_ptr :=
  pos ← find_slot key (hash_of key) m;
  if pos =? capacity_ m then Some nullptr
  else
    slot ← table_ m !! Z.to_nat pos;
    match entry slot with
    | entry_at owner => Some (ptr_to (Z.of_nat owner))
    | _ => None
    end.

(** [*p] for a pointer returned by [insert], [find] or [operator[]]. *)
Definition deref (p : value_ptr) (m : NodeHashMap) : option Value :=
  match p with
  | nullptr => None
  | ptr_to owner => e ← entries_ m !! Z.to_nat owner; Some (snd (data e))
  end.

Definition contains (key : Key) (m : NodeHashMap) : option bool :=
  p ← find key m; Some (negb (is_null p)).

(** What [find] lets the caller read: nothing behind a null pointer, the
    value behind any other. *)
Definition find_value (key : Key) (m : NodeHashMap) : option (option Value) :=
  p ← find key m;
  match p with
  | nullptr => Some None
  | ptr_to _ => v ← deref p m; Some (Some v)
  end.

(** [operator[]] *)
Definition index (key : Key) (m : NodeHashMap) : outcome NodeHashMap value_ptr :=
  match find_slot key (hash_of key) m with
  | None => Undefined
  | Some pos =>
      if negb (pos =? capacity_ m) then
        match table_ m !! Z.to_nat pos with
        | Some {| entry := entry_at owner |} => Returned (ptr_to (Z.of_nat owner)) m
        | _ => Undefined
        end
      else
        after insert key default_value m as result on m then
        Returned (fst result) m
  end.

Definition erase (key : Key) (m : NodeHashMap) : outcome NodeHashMap bool :=
  match find_slot key (hash_of key) m with
  | None => Undefined
  | Some pos =>
      if pos =? capacity_ m then Returned false m
      else
        let slot := {| hash := TOMBSTONE_HASH; entry := tombstone_ptr |} in
        let m := set_table (<[Z.to_nat pos := slot]> (table_ m)) m in
        let m := set_tombstone_count (wrap64 (tombstone_count_ m + 1)) m in
        let m := set_size (wrap64 (size_ m - 1)) m in
        if tombstones_exceed (tombstone_count_ m) (capacity_ m) && (0 <? size_ m)
        then after rehash (capacity_ m) m as _u on m then Returned true m
        else Returned true m
  end.

(** One call of the public interface. *)
Definition step (c : call Key Value) (m : NodeHashMap)
    : outcome NodeHashMap (observation Value) :=
  match c with
  | call_insert key value =>
      after insert key value m as result on m then
      match deref (fst result) m with
      | Some v => Returned (saw_insert v (snd result)) m
      | None => Undefined
      end
  | call_erase key =>
      after erase key m as erased on m then Returned (saw_erase erased) m
  | call_clear =>
      after clear m as _u on m then Returned saw_clear m
  | call_index key =>
      after index key m as p on m then
      match deref p m with
      | Some v => Returned (saw_index v) m
      | None => Undefined
      end
  | call_find key =>
      match find_value key m with
      | None => Undefined
      | Some pointee => Returned (saw_find pointee) m
      end
  | call_contains key =>
      match contains key m with
      | None => Undefined
      | Some b => Returned (saw_contains b) m
      end
  end.

(** A sequence of calls; the caller catches "Hash table is full" and goes
    on, and the run ends at a failed allocation or undefined behaviour. *)
Fixpoint run (cs : list (call Key Value)) (m : NodeHashMap)
    : outcome NodeHashMap (list (observation Value)) :=
  match cs with
  | [] => Returned [] m
  | c :: cs =>
      match step c m with
      | Returned o m =>
          after run cs m as os on m then Returned (o :: os) m
      | TableFull m =>
          after run cs m as os on m then Returned (saw_table_full :: os) m
      | LengthError => LengthError
      | Undefined => Undefined
      end
  end.

(** The maps a program can hold: a freshly constructed map, and the map
    left by a call on such a map. *)
Inductive reachable : NodeHashMap → Prop :=
| reachable_create m :
    create = Returned tt m → reachable m
| reachable_create_sized expected_size m :
    0 ≤ expected_size < 2 ^ 64 →
    create_sized expected_size = Returned tt m → reachable m
| reachable_step c m m' :
    reachable m → leaves (step c m) m' → reachable m'.

End NodeHashMap.

Arguments Entry : clear implicits.
Arguments NodeHashMap : clear implicits.
End Node.

(** ** hash_map.hpp: the table without tombstones

    The class [HashMap] of [hash_map.hpp] keeps a pointer per slot, as the
    indirect backend does, and marks an erased slot as empty. It declares
    its own constants, with the values of [constants.hpp], and its own
    [next_power_of_2]. *)

Module Legacy.
Section HashMap.
Context {Key Value : Type} `{!MapParams Key Value}.

(** [std::pair<const Key, Value> data] *)
Record Entry : Type := { data : Key * Value }.

(** A slot: the hash and an [Entry *], null ([None]) or the address of an
    entry owned by [entries_], named by the index of its owner. *)
Record Slot : Type := {
  hash : Z;
  entry : option nat;
}.

(** [Slot() : hash(0), entry(nullptr) {}] *)
Definition new_slot : Slot := {| hash := 0; entry := None |}.

Record HashMap : Type := {
  table_ : list Slot;
  entries_ : list Entry;
  size_ : Z;
  capacity_ : Z;
}.

Definition set_table (t : list Slot) (m : HashMap) : HashMap :=
  {| table_ := t; entries_ := entries_ m; size_ := size_ m;
     capacity_ := capacity_ m |}.
Definition set_entries (es : list Entry) (m : HashMap) : HashMap :=
  {| table_ := table_ m; entries_ := es; size_ := size_ m;
     capacity_ := capacity_ m |}.
Definition set_size (n : Z) (m : HashMap) : HashMap :=
  {| table_ := table_ m; entries_ := entries_ m; size_ := n;
     capacity_ := capacity_ m |}.

Definition next_power_of_2 (n : Z) : Z :=
  if n =? 0 then 1
  else
    let n := wrap64 (n - 1) in
    let n := Z.lor n (Z.shiftr n 1) in
    let n := Z.lor n (Z.shiftr n 2) in
    let n := Z.lor n (Z.shiftr n 4) in
    let n := Z.lor n (Z.shiftr n 8) in
    let n := Z.lor n (Z.shiftr n 16) in
    let n := Z.lor n (Z.shiftr n 32) in
    wrap64 (n + 1).

(** [h == EMPTY_HASH ? 1 : h] *)
Definition make_hash (h : Z) : Z := if h =? EMPTY_HASH then 1 else h.

(** [make_hash(hash_fn_(key))] *)
Definition hash_of (key : Key) : Z := make_hash (wrap64 (hash_fn key)).

Definition probe (m : HashMap) (index i : Z) : Z :=
  Z.land (wrap64 (index + i)) (wrap64 (capacity_ m - 1)).

(** [hash & (capacity_ - 1)] *)
Definition home (m : HashMap) (h : Z) : Z :=
  Z.land h (wrap64 (capacity_ m - 1)).

Fixpoint insert_internal_loop (fuel : nat) (i : Z) (index h : Z)
    (e : option nat) (m : HashMap) : outcome HashMap unit :=
  match fuel with
  | O => TableFull m
  | S fuel' =>
      let pos := probe m index i in
      match table_ m !! Z.to_nat pos with
      | None => Undefined
      | Some slot =>
          match entry slot with
          | None =>
              Returned tt
                (set_table (<[Z.to_nat pos := {| hash := h; entry := e |}]> (table_ m)) m)
          | Some _ => insert_internal_loop fuel' (wrap64 (i + 1)) index h e m
          end
      end
  end.

Definition insert_internal (h : Z) (e : option nat) (m : HashMap)
    : outcome HashMap unit :=
  insert_internal_loop (Z.to_nat (capacity_ m)) 0 (home m h) h e m.

Fixpoint rehash_loop (old_table : list Slot) (m : HashMap) : outcome HashMap unit :=
  match old_table with
  | [] => Returned tt m
  | slot :: rest =>
      match entry slot with
      | Some _ =>
          after insert_internal (hash slot) (entry slot) m as _u on m then
          rehash_loop rest m
      | None => rehash_loop rest m
      end
  end.

Definition rehash (new_capacity : Z) (m : HashMap) : outcome HashMap unit :=
  let old_table := table_ m in
  if max_slots <? new_capacity then LengthError
  else
    rehash_loop old_table
      {| table_ := replicate (Z.to_nat new_capacity) new_slot;
         entries_ := entries_ m;
         size_ := size_ m;
         capacity_ := new_capacity |}.

(** The loop of [find_slot]; [None] is undefined behaviour. *)
Fixpoint find_slot_loop (fuel : nat) (i : Z) (index : Z) (key : Key) (h : Z)
    (m : HashMap) : option Z :=
  match fuel with
  | O => Some (capacity_ m)
  | S fuel' =>
      let pos := probe m index i in
      match table_ m !! Z.to_nat pos with
      | None => None
      | Some slot =>
          match entry slot with
          | None => Some (capacity_ m)
          | Some owner =>
              if hash slot =? h then
                match entries_ m !! owner with
                | None => None
                | Some e =>
                    if bool_decide (fst (data e) = key) then Some pos
                    else find_slot_loop fuel' (wrap64 (i + 1)) index key h m
                end
              else find_slot_loop fuel' (wrap64 (i + 1)) index key h m
          end
      end
  end.

Definition find_slot (key : Key) (h : Z) (m : HashMap) : option Z :=
  find_slot_loop (Z.to_nat (capacity_ m)) 0 (home m h) key h m.

(** [HashMap()] *)
Definition create : outcome HashMap unit :=
  if max_slots <? INITIAL_CAPACITY then LengthError
  else Returned tt
         {| table_ := replicate (Z.to_nat INITIAL_CAPACITY) new_slot;
            entries_ := [];
            size_ := 0; capacity_ := INITIAL_CAPACITY |}.

(** [HashMap(size_t expected_size)] *)
Definition create_sized (expected_size : Z) : outcome HashMap unit :=
  match size_t_of_double (double_div (double_of_size_t expected_size) MAX_LOAD_FACTOR) with
  | None => Undefined
  | Some n =>
      let capacity := next_power_of_2 n in
      if max_slots <? capacity then LengthError
      else Returned tt
             {| table_ := replicate (Z.to_nat capacity) new_slot;
                entries_ := [];
                size_ := 0; capacity_ := capacity |}
  end.

Definition size (m : HashMap) : Z := size_ m.
Definition empty (m : HashMap) : bool := size_ m =? 0.
Definition capacity (m : HashMap) : Z := capacity_ m.

Definition clear (m : HashMap) : outcome HashMap unit :=
  Returned tt
    {| table_ := replicate (Z.to_nat (capacity_ m)) new_slot;
       entries_ := [];
       size_ := 0;
       capacity_ := capacity_ m |}.

(** [entry->data.second = value] *)
Definition set_value (value : Value) (e : Entry) : Entry :=
  {| data := (fst (data e), value) |}.

(** The probing loop of [insert]. *)
Fixpoint insert_loop (fuel : nat) (i : Z) (index h : Z)
    (key : Key) (value : Value) (m : HashMap)
    : outcome HashMap (value_ptr * bool) :=
  match fuel with
  | O => TableFull m
  | S fuel' =>
      let pos := probe m index i in
      match table_ m !! Z.to_nat pos with
      | None => Undefined
      | Some slot =>
          match entry slot with
          | None =>
              let owner := length (entries_ m) in
              let m := set_entries (entries_ m ++ [{| data := (key, value) |}]) m in
              let m := set_table (<[Z.to_nat pos :=
                                     {| hash := h; entry := Some owner |}]> (table_ m)) m in
              Returned (ptr_to (Z.of_nat owner), true) (set_size (wrap64 (size_ m + 1)) m)
          | Some owner =>
              if hash slot =? h then
                match entries_ m !! owner with
                | None => Undefined
                | Some e =>
                    if bool_decide (fst (data e) = key) then
                      Returned (ptr_to (Z.of_nat owner), false)
                        (set_entries (<[owner := set_value value e]> (entries_ m)) m)
                    else insert_loop fuel' (wrap64 (i + 1)) index h key value m
                end
              else insert_loop fuel' (wrap64 (i + 1)) index h key value m
          end
      end
  end.

Definition insert (key : Key) (value : Value) (m : HashMap)
    : outcome HashMap (value_ptr * bool) :=
  after (if load_exceeds (size_ m) (capacity_ m)
         then rehash (wrap64 (capacity_ m * 2)) m
         else Returned tt m) as _u on m then
  let h := hash_of key in
  insert_loop (Z.to_nat (capacity_ m)) 0 (home m h) h key value m.

(** [find]: a pointer to the value of the entry found, or null. *)
Definition find (key : Key) (m : HashMap) : option value_ptr :=
  pos ← find_slot key (hash_of key) m;
  if pos =? capacity_ m then Some nullptr
  else
    slot ← table_ m !! Z.to_nat pos;
    owner ← entry slot;
    Some (ptr_to (Z.of_nat owner)).

(** [*p] for a pointer returned by [insert], [find] or [operator[]]. *)
Definition deref (p : value_ptr) (m : HashMap) : option Value :=
  match p with
  | nullptr => None
  | ptr_to owner => e ← entries_ m !! Z.to_nat owner; Some (snd (data e))
  end.

Definition contains (key : Key) (m : HashMap) : option bool :=
  p ← find key m; Some (negb (is_null p)).

(** What [find] lets the caller read. *)
Definition find_value (key : Key) (m : HashMap) : option (option Value) :=
  p ← find key m;
  match p with
  | nullptr => Some None
  | ptr_to _ => v ← deref p m; Some (Some v)
  end.

(** [operator[]] *)
Definition index (key : Key) (m : HashMap) : outcome HashMap value_ptr :=
  match find_slot key (hash_of key) m with
  | None => Undefined
  | Some pos =>
      if negb (pos =? capacity_ m) then
        match table_ m !! Z.to_nat pos with
        | Some {| entry := Some owner |} => Returned (ptr_to (Z.of_nat owner)) m
        | _ => Undefined
        end
      else
        after insert key default_value m as result on m then
        Returned (fst result) m
  end.

(** [erase]: the slot is marked empty; the entry stays in [entries_]. *)
Definition erase (key : Key) (m : HashMap) : outcome HashMap bool :=
  match find_slot key (hash_of key) m with
  | None => Undefined
  | Some pos =>
      if pos =? capacity_ m then Returned false m
      else
        match table_ m !! Z.to_nat pos with
        | None => Undefined
        | Some _ =>
            let slot := {| hash := EMPTY_HASH; entry := None |} in
            let m := set_table (<[Z.to_nat pos := slot]> (table_ m)) m in
            Returned true (set_size (wrap64 (size_ m - 1)) m)
        end
  end.

End HashMap.

Arguments Entry : clear implicits.
Arguments HashMap : clear implicits.
End Legacy.

(** ** The two backends side by side *)

Section Simulation.
Context {Key Value : Type} `{!MapParams Key Value}.

(** A slot of the inline table and a slot of the indirect table hold the
    same thing. *)
Definition slot_sim (entries : list (Node.Entry Key Value))
    (fs : Flat.Slot Key Value) (ns : Node.Slot) : Prop :=
  Flat.hash fs = Node.hash ns ∧
  match Node.entry ns with
  | Node.null_entry => Flat.hash fs = EMPTY_HASH
  | Node.tombstone_ptr => Flat.hash fs = TOMBSTONE_HASH
  | Node.entry_at owner =>
      Flat.hash fs ≠ EMPTY_HASH ∧ Flat.hash fs ≠ TOMBSTONE_HASH ∧
      ∃ k v, entries !! owner = Some {| Node.data := (k, v) |}
             ∧ Flat.key_storage fs = Some k ∧ Flat.value_storage fs = Some v
  end.

(** Two pointers to equal values. *)
Definition ptr_sim (pf : value_ptr) (f : Flat.FlatHashMap Key Value)
    (pn : value_ptr) (n : Node.NodeHashMap Key Value) : Prop :=
  ∃ v : Value, Flat.deref pf f = Some v ∧ Node.deref pn n = Some v.

(** An inline map and an indirect map hold the same thing, slot by slot. *)
Record map_sim (f : Flat.FlatHashMap Key Value) (n : Node.NodeHashMap Key Value)
    : Prop := {
  sim_size : Flat.size_ f = Node.size_ n;
  sim_capacity : Flat.capacity_ f = Node.capacity_ n;
  sim_tombstones : Flat.tombstone_count_ f = Node.tombstone_count_ n;
  sim_length : length (Flat.table_ f) = Z.to_nat (Flat.capacity_ f);
  sim_table : Forall2 (slot_sim (Node.entries_ n)) (Flat.table_ f) (Node.table_ n);
}.

(** The pair returned by [insert] in the two backends. *)
Definition insert_sim (rf : value_ptr * bool) (f : Flat.FlatHashMap Key Value)
    (rn : value_ptr * bool) (n : Node.NodeHashMap Key Value) : Prop :=
  snd rf = snd rn ∧ ptr_sim (fst rf) f (fst rn) n.

(** Results that are equal. *)
Definition same_result {A : Type} (a : A) (f : Flat.FlatHashMap Key Value)
    (b : A) (n : Node.NodeHashMap Key Value) : Prop :=
  a = b.

(** No key occupies two slots of the inline table. *)
Definition keys_unique (f : Flat.FlatHashMap Key Value) : Prop :=
  ∀ (p1 p2 : nat) s1 s2,
    Flat.table_ f !! p1 = Some s1 → Flat.table_ f !! p2 = Some s2 →
    Flat.occupied s1 = true → Flat.occupied s2 = true →
    Flat.key_storage s1 = Flat.key_storage s2 → p1 = p2.

(** The inline map and the indirect map of two programs that made the
    same calls. *)
Definition related (f : Flat.FlatHashMap Key Value)
    (n : Node.NodeHashMap Key Value) : Prop :=
  (Flat.invariant f ∨ f = Flat.moved_from) ∧ map_sim f n.


(** Two calls end the same way, with results related by [R], and leave
    maps that hold the same thing. *)
Definition outcome_sim {A B : Type}
    (R : A → Flat.FlatHashMap Key Value → B → Node.NodeHashMap Key Value → Prop)
    (o1 : outcome (Flat.FlatHashMap Key Value) A)
    (o2 : outcome (Node.NodeHashMap Key Value) B) : Prop :=
  match o1, o2 with
  | Returned a f, Returned b n => map_sim f n ∧ R a f b n
  | TableFull f, TableFull n => map_sim f n
  | LengthError, LengthError => True
  | Undefined, Undefined => True
  | _, _ => False
  end.
End Simulation.

(** ** An instantiation: [int] keys and values

  [std::hash<int>] of libstdc++ is the conversion to [size_t]. *)

Definition int_max_slots_bound : 2 ^ 32 ≤ 2 ^ 52 :=
proj1 (Z.leb_le (2 ^ 32) (2 ^ 52)) eq_refl.

#[export] Instance int_params : MapParams Z Z := {|
hash_fn := λ k, k;
default_value := 0;
max_slots := 2 ^ 32;
max_slots_bound := int_max_slots_bound;
|}.

(** No table can be allocated. *)
Definition no_memory_bound : 0 ≤ 2 ^ 52 :=
proj1 (Z.leb_le 0 (2 ^ 52)) eq_refl.

(** The maps built by the constructors with [int] keys and values. *)
Definition flat_fresh (capacity : Z) : Flat.FlatHashMap Z Z :=
{| Flat.table_ := replicate (Z.to_nat capacity) Flat.new_slot;
   Flat.size_ := 0; Flat.capacity_ := capacity; Flat.tombstone_count_ := 0 |}.

Definition node_fresh (capacity : Z) : Node.NodeHashMap Z Z :=
{| Node.table_ := replicate (Z.to_nat capacity) Node.new_slot;
   Node.entries_ := [];
   Node.size_ := 0; Node.capacity_ := capacity; Node.tombstone_count_ := 0 |}.

(** The map left by a run, for runs that return. *)
Definition flat_after (cs : list (call Z Z)) (m : Flat.FlatHashMap Z Z)
  : Flat.FlatHashMap Z Z :=
match Flat.run cs m with Returned _ m' => m' | _ => m end.

Definition node_after (cs : list (call Z Z)) (m : Node.NodeHashMap Z Z)
  : Node.NodeHashMap Z Z :=
match Node.run cs m with Returned _ m' => m' | _ => m end.

(** The calls of the test ProbeChainAfterErase. *)
Definition probe_chain : list (call Z Z) :=
[call_insert 0 0; call_insert 8 8; call_insert 16 16; call_erase 8].

Definition flat_probe_chain : Flat.FlatHashMap Z Z :=
Eval vm_compute in flat_after probe_chain (flat_fresh 8).
Definition node_probe_chain : Node.NodeHashMap Z Z :=
Eval vm_compute in node_after probe_chain (node_fresh 8).

(** Twelve keys fill a table of 16 slots to the load 0.75. *)
Definition twelve_keys : list (call Z Z) :=
(λ k, call_insert k (k * 3)) <$> [1; 2; 3; 4; 5; 6; 7; 8; 9; 10; 11; 17].

Definition flat_twelve : Flat.FlatHashMap Z Z :=
Eval vm_compute in flat_after twelve_keys (flat_fresh 16).
Definition node_twelve : Node.NodeHashMap Z Z :=
Eval vm_compute in node_after twelve_keys (node_fresh 16).

(** The calls of the tests MoveConstructor. *)
Definition two_keys : list (call Z Z) := [call_insert 1 100; call_insert 2 200].

Definition flat_two : Flat.FlatHashMap Z Z :=
Eval vm_compute in flat_after two_keys (flat_fresh 16).
Definition node_two : Node.NodeHashMap Z Z :=
Eval vm_compute in node_after two_keys (node_fresh 16).

(** One key inserted in a table of one slot and erased again. *)
Definition flat_erased : Flat.FlatHashMap Z Z :=
Eval vm_compute in flat_after [call_insert 5 50; call_erase 5] (flat_fresh 1).
Definition node_erased : Node.NodeHashMap Z Z :=
Eval vm_compute in node_after [call_insert 5 50; call_erase 5] (node_fresh 1).

(** One key in a table grown from one slot to two. *)
Definition flat_single : Flat.FlatHashMap Z Z :=
Eval vm_compute in flat_after [call_insert 5 50] (flat_fresh 1).
Definition node_single : Node.NodeHashMap Z Z :=
Eval vm_compute in node_after [call_insert 5 50] (node_fresh 1).

(** ** The finite map the two tables implement

    A reference for the observations of a run: a partial function from keys
    to values, with the calls of the public interface acting on it as on a
    finite map. [flat_view] and [node_view] read such a function off a
    table with [find]. *)

Section Model.
Context {Key Value : Type} `{!MapParams Key Value}.

Definition model : Type := Key → option Value.

Definition model_empty : model := λ _, None.

Definition model_insert (key : Key) (value : Value) (s : model) : model :=
  λ k, if bool_decide (k = key) then Some value else s k.

Definition model_erase (key : Key) (s : model) : model :=
  λ k, if bool_decide (k = key) then None else s k.

Definition model_has (key : Key) (s : model) : bool :=
  match s key with Some _ => true | None => false end.

Definition model_step (c : call Key Value) (s : model) : observation Value * model :=
  match c with
  | call_insert key value =>
      (saw_insert value (negb (model_has key s)), model_insert key value s)
  | call_erase key => (saw_erase (model_has key s), model_erase key s)
  | call_clear => (saw_clear, model_empty)
  | call_index key =>
      match s key with
      | Some v => (saw_index v, s)
      | None => (saw_index default_value, model_insert key default_value s)
      end
  | call_find key => (saw_find (s key), s)
  | call_contains key => (saw_contains (model_has key s), s)
  end.

Fixpoint model_run (cs : list (call Key Value)) (s : model)
    : list (observation Value) * model :=
  match cs with
  | [] => ([], s)
  | c :: cs =>
      let '(o, s) := model_step c s in
      let '(os, s) := model_run cs s in
      (o :: os, s)
  end.

(** What [find] reads in a table, key by key. *)
Definition flat_view (f : Flat.FlatHashMap Key Value) : model :=
  λ k, match Flat.find_value k f with Some r => r | None => None end.

Definition node_view (n : Node.NodeHashMap Key Value) : model :=
  λ k, match Node.find_value k n with Some r => r | None => None end.
End Model.

(** ** The objects in the slots of the inline table

    [key_storage] and [value_storage] are raw bytes: a slot holds a key
    and a value between the two [construct_at] of an insertion and the two
    [destroy_at] of [destroy_slot]. *)

Section Lifetime.
Context {Key Value : Type} `{!MapParams Key Value}.

(** Neither storage of the slot holds an object. *)
Definition holds_nothing (slot : Flat.Slot Key Value) : bool :=
  match Flat.key_storage slot, Flat.value_storage slot with
  | None, None => true
  | _, _ => false
  end.

(** Both storages of the slot hold an object. *)
Definition holds_pair (slot : Flat.Slot Key Value) : bool :=
  match Flat.key_storage slot, Flat.value_storage slot with
  | Some _, Some _ => true
  | _, _ => false
  end.

(** [~FlatHashMap()]: the slots after the loop of the destructor. *)
Definition destructor (m : Flat.FlatHashMap Key Value) : list (Flat.Slot Key Value) :=
  Flat.destroy_slot <$> Flat.table_ m.

(** The slots that are empty or tombstones hold no object. *)
Definition free_slots_hold_nothing (t : list (Flat.Slot Key Value)) : Prop :=
  ∀ (pos : nat) slot, t !! pos = Some slot → Flat.occupied slot = false →
    holds_nothing slot = true.

(** The slots that are neither empty nor tombstones hold a pair, and the
    others hold no object. *)
Definition objects_match_hashes (t : list (Flat.Slot Key Value)) : Prop :=
  ∀ (pos : nat) slot, t !! pos = Some slot →
    if Flat.occupied slot then holds_pair slot = true else holds_nothing slot = true.
End Lifetime.

(** ** The generator of the benchmarks

    The class [sfc64] of the benchmarks: three 64-bit words of state and a
    counter. *)

Module Sfc64.

Record sfc64 : Type := {
  state0 : Z;
  state1 : Z;
  state2 : Z;
  counter_ : Z;
}.

(** [operator()()]: the number returned and the generator afterwards. *)
Definition next (g : sfc64) : Z * sfc64 :=
  let tmp := wrap64 (wrap64 (state0 g + state1 g) + counter_ g) in
  (tmp,
   {| state0 := Z.lxor (state1 g) (Z.shiftr (state1 g) 11);
      state1 := wrap64 (state2 g + wrap64 (Z.shiftl (state2 g) 3));
      state2 := wrap64 (Z.lor (wrap64 (Z.shiftl (state2 g) 24))
                              (Z.shiftr (state2 g) 40) + tmp);
      counter_ := wrap64 (counter_ g + 1) |}).

(** [sfc64(uint64_t seed)]: twelve numbers are drawn and dropped. *)
Definition seeded (seed : Z) : sfc64 :=
  Nat.iter 12 (λ g, snd (next g))
    {| state0 := seed; state1 := seed; state2 := seed; counter_ := 1 |}.

(** [sfc64()] *)
Definition default : sfc64 := seeded 0.

Definition min : Z := 0.
Definition max : Z := 2 ^ 64 - 1.

(** The words of the generator are 64-bit words. *)
Definition words (g : sfc64) : Prop :=
  0 ≤ state0 g < 2 ^ 64 ∧ 0 ≤ state1 g < 2 ^ 64
  ∧ 0 ≤ state2 g < 2 ^ 64 ∧ 0 ≤ counter_ g < 2 ^ 64.

End Sfc64.

(** * Proofs *)

(** ** Powers of two and [next_power_of_2] *)

(** [a] has the bits [l - w + 1 .. l] set and no bit above [l]. *)
Lemma top_run_smear l w k a :
  0 ≤ l → 0 < k ≤ w → top_run l w a → top_run l (w + k) (Z.lor a (Z.shiftr a k)).
Proof.
  intros Hl Hk [Hset Hclear]. split; intros i.
  - intros Hi Hrange. rewrite Z.lor_spec, Z.shiftr_spec by lia.
    destruct (Z_lt_le_dec (l - w) i).
    + rewrite Hset by lia. reflexivity.
    + rewrite (Hset (i + k)) by lia. apply orb_true_r.
  - intros Hi. rewrite Z.lor_spec, Z.shiftr_spec by lia.
    rewrite !Hclear by lia. reflexivity.
Qed.

Lemma top_run_ones l w a : 0 ≤ l < w → top_run l w a → a = Z.ones (l + 1).
Proof.
  intros Hl [Hset Hclear]. apply Z.bits_inj'. intros i Hi.
  destruct (Z_le_gt_dec i l).
  - rewrite Hset, Z.ones_spec_low by lia. reflexivity.
  - rewrite Hclear, Z.ones_spec_high by lia. reflexivity.
Qed.

(** [next_power_of_2] returns a power of two, or 0 when that power is 2^64. *)
Lemma next_power_of_2_cases n :
  0 ≤ n < 2 ^ 64 →
  next_power_of_2 n = 0 ∨ ∃ p, 0 ≤ p ≤ 63 ∧ next_power_of_2 n = 2 ^ p.
Proof.
  intros Hn. unfold next_power_of_2.
  destruct (Z.eqb_spec n 0) as [|Hn0]; [right; exists 0; split; [lia|reflexivity]|].
  assert (Hm : wrap64 (n - 1) = n - 1) by (unfold wrap64; apply Z.mod_small; lia).
  rewrite Hm. cbv zeta.
  destruct (Z.eq_dec (n - 1) 0) as [->|Hm0]; [right; exists 0; split; [lia|reflexivity]|].
  set (m := n - 1) in *. set (l := Z.log2 m).
  assert (Hl : 0 ≤ l < 64).
  { split; [apply Z.log2_nonneg|]. apply Z.log2_lt_pow2; lia. }
  assert (H0 : top_run l 1 m).
  { split; intros i.
    - intros _ Hi. replace i with l by lia. apply Z.bit_log2. lia.
    - intros Hi. apply Z.bits_above_log2; lia. }
  apply (top_run_smear l 1 1) in H0; [|lia|lia].
  apply (top_run_smear l _ 2) in H0; [|lia|lia].
  apply (top_run_smear l _ 4) in H0; [|lia|lia].
  apply (top_run_smear l _ 8) in H0; [|lia|lia].
  apply (top_run_smear l _ 16) in H0; [|lia|lia].
  apply (top_run_smear l _ 32) in H0; [|lia|lia].
  apply top_run_ones in H0; [|lia]. rewrite H0.
  rewrite Z.ones_equiv. replace (Z.pred (2 ^ (l + 1)) + 1) with (2 ^ (l + 1)) by lia.
  destruct (Z.eq_dec l 63) as [->|].
  - left. reflexivity.
  - right. exists (l + 1). split; [lia|]. unfold wrap64. apply Z.mod_small.
    split; [apply Z.pow_nonneg; lia|apply Z.pow_lt_mono_r; lia].
Qed.

(** ** The comparisons on doubles

    The quotient of a counter below [2^53] by a power of two is exact, and
    its comparison with 0.75 or 0.25 is the comparison of the integers. *)

Lemma digits2_pos_size m : digits2_pos m = Pos.size m.
Proof. induction m; simpl; congruence. Qed.

Lemma digits2_pos_bounds m :
  2 ^ (Z.pos (digits2_pos m) - 1) ≤ Z.pos m < 2 ^ Z.pos (digits2_pos m).
Proof.
  rewrite digits2_pos_size. split.
  - pose proof (Pos.size_le m) as H.
    assert (H0 : Z.pos (2 ^ Pos.size m) ≤ Z.pos m~0) by lia.
    rewrite Pos2Z.inj_pow in H0.
    replace (Z.pos (Pos.size m)) with ((Z.pos (Pos.size m) - 1) + 1) in H0 by lia.
    rewrite Z.pow_add_r in H0 by lia. lia.
  - pose proof (Pos.size_gt m) as H.
    assert (H0 : Z.pos m < Z.pos (2 ^ Pos.size m)) by lia.
    now rewrite Pos2Z.inj_pow in H0.
Qed.

Lemma digits2_pos_unique m d :
  2 ^ (d - 1) ≤ Z.pos m < 2 ^ d → Z.pos (digits2_pos m) = d.
Proof.
  intros [H1 H2]. pose proof (digits2_pos_bounds m) as [H3 H4].
  assert (0 < d).
  { destruct (Z_lt_le_dec 0 d) as [|Hd]; auto.
    destruct (Z.eq_dec d 0) as [->|]; [simpl in H2; lia|].
    rewrite (Z.pow_neg_r 2 d) in H2 by lia. lia. }
  destruct (Z.lt_trichotomy (Z.pos (digits2_pos m)) d) as [Hlt|[Heq|Hgt]]; auto.
  - assert (2 ^ Z.pos (digits2_pos m) ≤ 2 ^ (d - 1)) by (apply Z.pow_le_mono_r; lia). lia.
  - assert (2 ^ d ≤ 2 ^ (Z.pos (digits2_pos m) - 1)) by (apply Z.pow_le_mono_r; lia). lia.
Qed.

Lemma iter_xO m k : Z.pos (Pos.iter xO m k) = Z.pos m * 2 ^ Z.pos k.
Proof.
  induction k using Pos.peano_ind.
  - simpl. lia.
  - rewrite Pos.iter_succ. rewrite Pos2Z.inj_xO, IHk, Pos2Z.inj_succ, Z.pow_succ_r by lia. lia.
Qed.

Lemma pow2_split a b : 0 ≤ a → 0 ≤ b → 2 ^ (a + b) = 2 ^ a * 2 ^ b.
Proof. intros. apply Z.pow_add_r; lia. Qed.

Lemma shr_fexp_53 mx e :
  Z.pos (digits2_pos mx) = 53 → -1074 ≤ e →
  shr_fexp 53 1024 (Z.pos mx) e loc_Exact
  = ({| shr_m := Z.pos mx; shr_r := false; shr_s := false |}, e).
Proof.
  intros Hd He. unfold shr_fexp. cbv [Zdigits2]. rewrite Hd.
  replace (fexp 53 1024 (53 + e) - e) with 0 by (unfold fexp, emin; lia).
  reflexivity.
Qed.

Lemma shr_fexp_54 mx e :
  Z.pos (digits2_pos mx) = 53 → -1075 ≤ e →
  shr_fexp 53 1024 (Z.pos mx~0) e loc_Exact
  = ({| shr_m := Z.pos mx; shr_r := false; shr_s := false |}, e + 1).
Proof.
  intros Hd He. unfold shr_fexp. cbv [Zdigits2 digits2_pos]. fold digits2_pos.
  rewrite Pos2Z.inj_succ, Hd.
  replace (fexp 53 1024 (Z.succ 53 + e) - e) with 1 by (unfold fexp, emin; lia).
  reflexivity.
Qed.

Lemma round_aux_exact mx e :
  Z.pos (digits2_pos mx) = 53 → -1074 ≤ e ≤ 971 →
  binary_round_aux 53 1024 false (Z.pos mx) e loc_Exact = S754_finite false mx e.
Proof.
  intros Hd He. unfold binary_round_aux.
  rewrite shr_fexp_53 by lia. cbv [shr_m loc_of_shr_record round_nearest_even].
  rewrite shr_fexp_53 by lia. cbv [shr_m].
  destruct (Z.leb_spec e (1024 - 53)); [reflexivity|lia].
Qed.

Lemma round_aux_even mx e :
  Z.pos (digits2_pos mx) = 53 → -1075 ≤ e ≤ 970 →
  binary_round_aux 53 1024 false (Z.pos mx~0) e loc_Exact = S754_finite false mx (e + 1).
Proof.
  intros Hd He. unfold binary_round_aux.
  rewrite shr_fexp_54 by lia. cbv [shr_m loc_of_shr_record round_nearest_even].
  rewrite shr_fexp_53 by lia. cbv [shr_m].
  destruct (Z.leb_spec (e + 1) (1024 - 53)); [reflexivity|lia].
Qed.

(** The conversion of a positive counter below [2^53] is exact. *)
Lemma double_of_pos n :
  Z.pos n < 2 ^ 53 →
  ∃ mx, double_of_size_t (Z.pos n)
        = S754_finite false mx (Z.pos (digits2_pos n) - 53)
     ∧ Z.pos mx = Z.pos n * 2 ^ (53 - Z.pos (digits2_pos n))
     ∧ Z.pos (digits2_pos mx) = 53.
Proof.
  intros Hn. pose proof (digits2_pos_bounds n) as [Hlo Hhi].
  set (d := Z.pos (digits2_pos n)) in *.
  assert (Hd : 1 ≤ d ≤ 53).
  { split; [lia|]. destruct (Z_le_gt_dec d 53); auto.
    assert (2 ^ 53 ≤ 2 ^ (d - 1)) by (apply Z.pow_le_mono_r; lia). lia. }
  unfold double_of_size_t, binary_normalize, binary_round.
  rewrite Z.add_0_r. fold d.
  assert (Hfexp : fexp 53 1024 d = d - 53) by (unfold fexp, emin; lia).
  rewrite Hfexp. unfold shl_align. rewrite Z.sub_0_r.
  destruct (d - 53) as [|q|q] eqn:E; try lia.
  - exists n. rewrite round_aux_exact by (fold d; lia).
    replace d with 53 by lia. rewrite Z.sub_diag, Z.mul_1_r. fold d. repeat split; lia.
  - assert (Hm : Z.pos (Pos.iter xO n q) = Z.pos n * 2 ^ (53 - d)).
    { rewrite iter_xO. f_equal. f_equal. lia. }
    assert (Hdig : Z.pos (digits2_pos (Pos.iter xO n q)) = 53).
    { apply digits2_pos_unique. rewrite Hm. split.
      - replace (53 - 1) with ((d - 1) + (53 - d)) by lia.
        rewrite Z.pow_add_r by lia. nia.
      - replace 53 with (d + (53 - d)) at 2 by lia.
        rewrite Z.pow_add_r by lia. nia. }
    exists (Pos.iter xO n q). rewrite round_aux_exact by lia. auto.
Qed.

Lemma double_of_pow2 p :
  0 ≤ p ≤ 63 →
  double_of_size_t (2 ^ p) = S754_finite false 4503599627370496 (p - 52).
Proof.
  intros Hp.
  assert (Hcases : ∃ q : nat, p = Z.of_nat q ∧ (q ≤ 63)%nat).
  { exists (Z.to_nat p). lia. }
  destruct Hcases as (q & -> & Hq).
  do 64 (destruct q as [|q]; [vm_compute; reflexivity|]). lia.
Qed.

Lemma div_by_pow2 mx ex ey :
  Z.pos (digits2_pos mx) = 53 → -1074 ≤ ex - ey - 53 ≤ 970 →
  double_div (S754_finite false mx ex) (S754_finite false 4503599627370496 ey)
  = S754_finite false mx (ex - ey - 52).
Proof.
  intros Hd He. unfold double_div, SFdiv, SFdiv_core_binary.
  cbv [Zdigits2]. rewrite Hd.
  change (Z.pos (digits2_pos 4503599627370496)) with 53.
  replace (Z.min (fexp 53 1024 (53 + ex - (53 + ey))) (ex - ey)) with (ex - ey - 53)
    by (unfold fexp, emin; lia).
  replace (ex - ey - (ex - ey - 53)) with 53 by lia.
  assert (Hq : Z.div_eucl (Z.shiftl (Z.pos mx) 53) 4503599627370496 = (Z.pos mx~0, 0)).
  { rewrite Z.shiftl_mul_pow2 by lia. change (2 ^ 53) with 9007199254740992.
    generalize (Z_div_mod (Z.pos mx * 9007199254740992) 4503599627370496).
    destruct Z.div_eucl as [q r]. intros [H1 H2]; [lia|]. f_equal; lia. }
  rewrite Hq. cbn [xorb]. change (new_location 4503599627370496 0) with loc_Exact.
  rewrite round_aux_even by lia. f_equal. lia.
Qed.

Lemma quotient_by_pow2 n p :
  0 < n < 2 ^ 53 → 0 ≤ p ≤ 63 →
  ∃ mx d,
    double_div (double_of_size_t n) (double_of_size_t (2 ^ p))
      = S754_finite false mx (d - 53 - p)
    ∧ 1 ≤ d ≤ 53 ∧ 2 ^ (d - 1) ≤ n < 2 ^ d
    ∧ Z.pos mx = n * 2 ^ (53 - d).
Proof.
  intros Hn Hp. destruct n as [|n|n]; try lia.
  destruct (double_of_pos n) as (mx & Hx & Hmx & Hdig); [lia|].
  pose proof (digits2_pos_bounds n) as Hb.
  set (d := Z.pos (digits2_pos n)) in *.
  assert (Hd : 1 ≤ d ≤ 53).
  { split; [lia|]. destruct (Z_le_gt_dec d 53); auto.
    assert (2 ^ 53 ≤ 2 ^ (d - 1)) by (apply Z.pow_le_mono_r; lia). lia. }
  exists mx, d.
  rewrite Hx, double_of_pow2, div_by_pow2 by lia.
  repeat split; try lia. f_equal. lia.
Qed.

Lemma double_gt_finite mx e mt et :
  double_gt (S754_finite false mx e) (S754_finite false mt et)
  = match et ?= e with
    | Lt => true
    | Gt => false
    | Eq => Z.pos mt <? Z.pos mx
    end.
Proof.
  unfold double_gt, SFltb, SFcompare.
  destruct (et ?= e); reflexivity.
Qed.

Lemma load_gt_spec n p :
  0 < n < 2 ^ 53 → 0 ≤ p ≤ 63 →
  double_gt (double_div (double_of_size_t n) (double_of_size_t (2 ^ p))) MAX_LOAD_FACTOR
  = (3 * 2 ^ p <? 4 * n).
Proof.
  intros Hn Hp. destruct (quotient_by_pow2 n p Hn Hp) as (mx & d & -> & Hd & Hnd & Hmx).
  unfold MAX_LOAD_FACTOR. rewrite double_gt_finite.
  assert (H2p : 0 < 2 ^ p) by (apply Z.pow_pos_nonneg; lia).
  destruct (Z.compare_spec (-53) (d - 53 - p)) as [E|L|G].
  - assert (d = p) by lia. subst d. rewrite Hmx.
    assert (Hs : 2 ^ 53 = 2 ^ p * 2 ^ (53 - p)) by (rewrite <- pow2_split by lia; f_equal; lia).
    assert (H0 : 0 < 2 ^ (53 - p)) by (apply Z.pow_pos_nonneg; lia).
    change (Z.pos 6755399441055744) with (3 * 2 ^ 51).
    assert (H51 : 4 * 2 ^ 51 = 2 ^ 53) by reflexivity.
    destruct (Z.ltb_spec (3 * 2 ^ 51) (n * 2 ^ (53 - p))), (Z.ltb_spec (3 * 2 ^ p) (4 * n)); auto; nia.
  - assert (2 ^ p ≤ 2 ^ (d - 1)) by (apply Z.pow_le_mono_r; lia).
    symmetry. apply Z.ltb_lt. lia.
  - assert (2 ^ d ≤ 2 ^ (p - 1)) by (apply Z.pow_le_mono_r; lia).
    assert (2 ^ p = 2 * 2 ^ (p - 1)).
    { rewrite <- Z.pow_succ_r by lia. f_equal. lia. }
    symmetry. apply Z.ltb_ge. lia.
Qed.

Lemma tombstone_gt_spec n p :
  0 < n < 2 ^ 53 → 0 ≤ p ≤ 63 →
  double_gt (double_div (double_of_size_t n) (double_of_size_t (2 ^ p))) MAX_TOMBSTONE_RATIO
  = (2 ^ p <? 4 * n).
Proof.
  intros Hn Hp. destruct (quotient_by_pow2 n p Hn Hp) as (mx & d & -> & Hd & Hnd & Hmx).
  unfold MAX_TOMBSTONE_RATIO. rewrite double_gt_finite.
  assert (H2p : 0 < 2 ^ p) by (apply Z.pow_pos_nonneg; lia).
  destruct (Z.compare_spec (-54) (d - 53 - p)) as [E|L|G].
  - assert (p = d + 1) by lia. subst p. rewrite Hmx.
    assert (Hs : 2 ^ 53 = 2 ^ d * 2 ^ (53 - d)) by (rewrite <- pow2_split by lia; f_equal; lia).
    assert (H0 : 0 < 2 ^ (53 - d)) by (apply Z.pow_pos_nonneg; lia).
    assert (Hd1 : 2 ^ (d + 1) = 2 * 2 ^ d)
      by (rewrite pow2_split by lia; change (2 ^ 1) with 2; lia).
    change (Z.pos 4503599627370496) with (2 ^ 52).
    assert (H52 : 2 * 2 ^ 52 = 2 ^ 53) by reflexivity.
    destruct (Z.ltb_spec (2 ^ 52) (n * 2 ^ (53 - d))), (Z.ltb_spec (2 ^ (d + 1)) (4 * n)); auto; nia.
  - assert (2 ^ p ≤ 2 ^ d) by (apply Z.pow_le_mono_r; lia).
    assert (2 ^ d = 2 * 2 ^ (d - 1)).
    { rewrite <- Z.pow_succ_r by lia. f_equal. lia. }
    symmetry. apply Z.ltb_lt. lia.
  - assert (2 ^ (d + 2) ≤ 2 ^ p) by (apply Z.pow_le_mono_r; lia).
    assert (2 ^ (d + 2) = 4 * 2 ^ d).
    { rewrite pow2_split by lia. change (2 ^ 2) with 4. lia. }
    symmetry. apply Z.ltb_ge. lia.
Qed.

(** The load check of [insert] on a table of [2^p] slots. *)
Lemma load_exceeds_spec size p :
  0 ≤ size < 2 ^ 53 - 1 → 0 ≤ p ≤ 63 →
  load_exceeds size (2 ^ p) = (3 * 2 ^ p <? 4 * (size + 1)).
Proof.
  intros Hs Hp. unfold load_exceeds.
  replace (wrap64 (size + 1)) with (size + 1)
    by (unfold wrap64; symmetry; apply Z.mod_small; lia).
  apply load_gt_spec; lia.
Qed.

(** The tombstone check of [insert] and [erase] on a table of [2^p] slots. *)
Lemma tombstones_exceed_spec t p :
  0 ≤ t < 2 ^ 53 → 0 ≤ p ≤ 63 →
  tombstones_exceed t (2 ^ p) = (2 ^ p <? 4 * t).
Proof.
  intros Ht Hp. unfold tombstones_exceed.
  destruct (Z.eq_dec t 0) as [->|].
  - rewrite double_of_pow2 by lia.
    assert (0 < 2 ^ p) by (apply Z.pow_pos_nonneg; lia).
    destruct (Z.ltb_spec (2 ^ p) (4 * 0)); [lia|reflexivity].
  - apply tombstone_gt_spec; lia.
Qed.

(** ** Probing arithmetic *)

Lemma wrap64_small x : 0 ≤ x < 2 ^ 64 → wrap64 x = x.
Proof. intros. unfold wrap64. apply Z.mod_small. lia. Qed.

Lemma pow2_pos p : 0 ≤ p → 0 < 2 ^ p.
Proof. intros. apply Z.pow_pos_nonneg; lia. Qed.

(** A capacity that is a power of two and can be allocated. *)
Lemma capacity_exponent c :
  (∃ p, 0 ≤ p ∧ c = 2 ^ p) → c ≤ 2 ^ 52 → ∃ p, 0 ≤ p ≤ 52 ∧ c = 2 ^ p ∧ 0 < c.
Proof.
  intros (p & Hp & ->) Hc. exists p. split; [|split; [reflexivity|by apply pow2_pos]].
  split; [done|]. destruct (Z_le_gt_dec p 52); [done|].
  assert (2 ^ 53 ≤ 2 ^ p) by (apply Z.pow_le_mono_r; lia). lia.
Qed.

Lemma land_mask c x :
  (∃ p, 0 ≤ p ∧ c = 2 ^ p) → c ≤ 2 ^ 52 → Z.land x (wrap64 (c - 1)) = x mod c.
Proof.
  intros Hc Hmax. destruct (capacity_exponent c Hc Hmax) as (p & Hp & -> & Hpos).
  rewrite wrap64_small by lia.
  replace (2 ^ p - 1) with (Z.ones p) by (rewrite Z.ones_equiv; lia).
  apply Z.land_ones. lia.
Qed.

Lemma slot_pos_range c h j : 0 < c → 0 ≤ slot_pos c h j < c.
Proof. intros. unfold slot_pos. apply Z.mod_pos_bound. lia. Qed.

Lemma displacement_range c h pos : 0 < c → 0 ≤ displacement c h pos < c.
Proof. intros. unfold displacement. apply Z.mod_pos_bound. lia. Qed.

Lemma slot_pos_displacement c h pos :
  0 < c → 0 ≤ pos < c → slot_pos c h (displacement c h pos) = pos.
Proof.
  intros Hc Hpos. unfold slot_pos, displacement.
  rewrite Zplus_mod_idemp_r. replace (h + (pos - h)) with pos by lia.
  apply Z.mod_small. lia.
Qed.

Lemma displacement_slot_pos c h j :
  0 < c → 0 ≤ j < c → displacement c h (slot_pos c h j) = j.
Proof.
  intros Hc Hj. unfold slot_pos, displacement.
  rewrite Zminus_mod_idemp_l. replace (h + j - h) with j by lia.
  apply Z.mod_small. lia.
Qed.

(** The position probed at iteration [i]. *)
Lemma probe_slot_pos c h i :
  (∃ p, 0 ≤ p ∧ c = 2 ^ p) → c ≤ 2 ^ 52 → 0 ≤ i < c →
  Z.land (wrap64 (Z.land h (wrap64 (c - 1)) + i)) (wrap64 (c - 1)) = slot_pos c h i.
Proof.
  intros Hc Hmax Hi. rewrite !land_mask by done.
  destruct (capacity_exponent c Hc Hmax) as (p & Hp & -> & Hpos).
  pose proof (Z.mod_pos_bound h (2 ^ p) Hpos).
  rewrite wrap64_small by lia.
  unfold slot_pos. apply Zplus_mod_idemp_l.
Qed.

(** ** Counting slots *)

Lemma count_nil {A} (f : A → bool) : count f [] = 0.
Proof. reflexivity. Qed.

Lemma count_cons {A} (f : A → bool) x t :
  count f (x :: t) = (if f x then 1 else 0) + count f t.
Proof. unfold count. simpl. destruct (f x); simpl; lia. Qed.

Lemma count_range {A} (f : A → bool) t : 0 ≤ count f t ≤ Z.of_nat (length t).
Proof.
  induction t as [|x t IH]; [rewrite count_nil; simpl; lia|].
  rewrite count_cons. simpl length. destruct (f x); lia.
Qed.

Lemma count_replicate_false {A} (f : A → bool) n x :
  f x = false → count f (replicate n x) = 0.
Proof.
  intros Hx. induction n as [|n IH]; [reflexivity|].
  simpl replicate. rewrite count_cons, Hx, IH. reflexivity.
Qed.

Lemma count_insert {A} (f : A → bool) (t : list A) i x y :
  t !! i = Some y →
  count f (<[i:=x]> t)
  = count f t - (if f y then 1 else 0) + (if f x then 1 else 0).
Proof.
  revert i. induction t as [|a t IH]; intros [|i] Hi; simplify_eq/=.
  - rewrite !count_cons. lia.
  - rewrite !count_cons, (IH i) by done. lia.
Qed.

Lemma count_ext {A} (f g : A → bool) t :
  (∀ x, x ∈ t → f x = g x) → count f t = count g t.
Proof.
  induction t as [|a t IH]; intros H; [reflexivity|].
  rewrite !count_cons, IH, (H a) by (intros; try apply H; by constructor). done.
Qed.

(** Fewer hits than elements: some element is a miss. *)
Lemma count_lt_length {A} (f : A → bool) t :
  count f t < Z.of_nat (length t) → ∃ i x, t !! i = Some x ∧ f x = false.
Proof.
  induction t as [|a t IH]; [rewrite count_nil; simpl; lia|].
  rewrite count_cons. simpl length. destruct (f a) eqn:Ha.
  - intros H. destruct IH as (i & x & Hi & Hx); [lia|]. by exists (S i), x.
  - intros _. by exists 0%nat, a.
Qed.

Lemma count_zero {A} (f : A → bool) t i x :
  count f t = 0 → t !! i = Some x → f x = false.
Proof.
  revert i. induction t as [|a t IH]; intros i H Hi; [done|].
  rewrite count_cons in H. pose proof (count_range f t).
  destruct i as [|i]; simplify_eq/=.
  - destruct (f x); [lia|done].
  - apply (IH i); [|done]. destruct (f a); lia.
Qed.

(** ** The inline backend: lookups *)

Section FlatLookup.
Context {Key Value : Type} `{!MapParams Key Value}.
Import Flat.
Implicit Types (m : FlatHashMap Key Value) (slot : Slot Key Value).

Lemma table_ok_capacity m :
  table_ok m → ∃ p, 0 ≤ p ≤ 52 ∧ capacity_ m = 2 ^ p ∧ 0 < capacity_ m.
Proof.
  intros Hok. apply capacity_exponent; [apply Hok|].
  pose proof (ok_max m Hok). pose proof max_slots_bound. lia.
Qed.

Lemma capacity_pos m : table_ok m → 0 < capacity_ m ≤ 2 ^ 52.
Proof.
  intros Hok. destruct (table_ok_capacity m Hok) as (p & Hp & Hc & Hpos).
  pose proof (ok_max m Hok). pose proof max_slots_bound. lia.
Qed.

Lemma probe_home m h i :
  table_ok m → 0 ≤ i < capacity_ m →
  probe m (home m h) i = slot_pos (capacity_ m) h i.
Proof.
  intros Hok Hi. unfold probe, home. apply probe_slot_pos; [apply Hok| |done].
  pose proof (capacity_pos m Hok). lia.
Qed.

Lemma next_iteration m i :
  table_ok m → 0 ≤ i < capacity_ m → wrap64 (i + 1) = i + 1.
Proof.
  intros Hok Hi. pose proof (capacity_pos m Hok). apply wrap64_small. lia.
Qed.

Lemma lookup_slot m q :
  table_ok m → 0 ≤ q < capacity_ m → ∃ slot, table_ m !! Z.to_nat q = Some slot.
Proof.
  intros Hok Hq. apply lookup_lt_is_Some_2. pose proof (ok_length m Hok). lia.
Qed.

Lemma lookup_probe m h i :
  table_ok m → 0 ≤ i < capacity_ m →
  ∃ slot, table_ m !! Z.to_nat (slot_pos (capacity_ m) h i) = Some slot.
Proof.
  intros Hok Hi. apply lookup_slot; [done|].
  apply slot_pos_range. pose proof (capacity_pos m Hok). lia.
Qed.

Lemma lookup_in_range m (pos : nat) slot :
  table_ok m → table_ m !! pos = Some slot → 0 ≤ Z.of_nat pos < capacity_ m.
Proof.
  intros Hok Hpos. apply lookup_lt_Some in Hpos.
  pose proof (ok_length m Hok). lia.
Qed.

Lemma occupied_not_empty slot : occupied slot = true → is_empty slot = false.
Proof. unfold occupied. destruct (is_empty slot); naive_solver. Qed.

Lemma occupied_not_tombstone slot : occupied slot = true → is_tombstone slot = false.
Proof. unfold occupied. destruct (is_tombstone slot), (is_empty slot); naive_solver. Qed.

Lemma occupied_intro slot :
  is_empty slot = false → is_tombstone slot = false → occupied slot = true.
Proof. unfold occupied. by intros -> ->. Qed.

Lemma hash_of_not_sentinel (key : Key) :
  hash_of key ≠ EMPTY_HASH ∧ hash_of key ≠ TOMBSTONE_HASH.
Proof.
  unfold hash_of, make_hash, EMPTY_HASH, TOMBSTONE_HASH.
  destruct (Z.eqb_spec (wrap64 (hash_fn key)) 0), (Z.eqb_spec (wrap64 (hash_fn key)) 1);
    simpl; lia.
Qed.

Lemma find_slot_loop_unfold fuel i index key h m :
  find_slot_loop (S fuel) i index key h m
  = let pos := probe m index i in
    match table_ m !! Z.to_nat pos with
    | None => None
    | Some slot =>
        if is_empty slot then Some (capacity_ m)
        else if is_tombstone slot
        then find_slot_loop fuel (wrap64 (i + 1)) index key h m
        else if hash slot =? h then
          match key_storage slot with
          | None => None
          | Some k =>
              if bool_decide (k = key) then Some pos
              else find_slot_loop fuel (wrap64 (i + 1)) index key h m
          end
        else find_slot_loop fuel (wrap64 (i + 1)) index key h m
    end.
Proof. reflexivity. Qed.

(** A lookup never leaves the table, and what it finds holds the key. *)
Lemma find_slot_loop_sound m key h fuel i :
  table_ok m → Z.of_nat fuel + i = capacity_ m → 0 ≤ i →
  ∃ q, find_slot_loop fuel i (home m h) key h m = Some q ∧
       (q = capacity_ m ∨
        (0 ≤ q < capacity_ m ∧ ∃ v, stored_at m (Z.to_nat q) key v)).
Proof.
  intros Hok. revert i. induction fuel as [|fuel IH]; intros i Hfuel Hi.
  { exists (capacity_ m). by split; [|left]. }
  rewrite find_slot_loop_unfold. cbv zeta.
  rewrite probe_home by (done || lia).
  rewrite (next_iteration m) by (done || lia).
  destruct (lookup_probe m h i Hok) as [slot Hslot]; [lia|]. rewrite Hslot.
  destruct (is_empty slot) eqn:He; [exists (capacity_ m); by split; [|left]|].
  destruct (is_tombstone slot) eqn:Ht; [apply IH; lia|].
  destruct (Z.eqb_spec (hash slot) h) as [Hh|Hh]; [|apply IH; lia].
  destruct (ok_slot m Hok _ slot Hslot) as (k & v & Hk & Hv & Hhash);
    [by apply occupied_intro|].
  rewrite Hk. case_bool_decide as Hkey; [|apply IH; lia].
  subst k. eexists; split; [done|right].
  split; [apply slot_pos_range; pose proof (capacity_pos m Hok); lia|].
  exists v, slot. by rewrite occupied_intro.
Qed.

(** A lookup reaches the slot of a stored key. *)
Lemma find_slot_loop_found m key pos value fuel i :
  table_ok m → stored_at m pos key value →
  Z.of_nat fuel + i = capacity_ m →
  0 ≤ i ≤ displacement (capacity_ m) (hash_of key) (Z.of_nat pos) →
  find_slot_loop fuel i (home m (hash_of key)) key (hash_of key) m
  = Some (Z.of_nat pos).
Proof.
  intros Hok (slot & Hslot & Hocc & Hkey & Hval).
  pose proof (capacity_pos m Hok) as Hc.
  pose proof (lookup_in_range m pos slot Hok Hslot) as Hpos.
  destruct (ok_slot m Hok _ slot Hslot Hocc) as (k & v & Hk & Hv & Hhash).
  assert (k = key) by congruence. subst k.
  pose proof (displacement_range (capacity_ m) (hash_of key) (Z.of_nat pos)) as Hd.
  revert i. induction fuel as [|fuel IH]; intros i Hfuel Hi; [lia|].
  rewrite find_slot_loop_unfold. cbv zeta.
  rewrite probe_home by (done || lia).
  rewrite (next_iteration m) by (done || lia).
  destruct (Z.eq_dec i (displacement (capacity_ m) (hash_of key) (Z.of_nat pos)))
    as [->|Hne].
  - rewrite slot_pos_displacement by lia. rewrite Nat2Z.id, Hslot.
    rewrite (occupied_not_empty slot), (occupied_not_tombstone slot) by done.
    rewrite Hhash, Z.eqb_refl, Hkey. by rewrite bool_decide_true.
  - destruct (ok_chain m Hok pos slot i Hslot Hocc) as (s & Hs & He);
      [rewrite Hhash; lia|].
    rewrite Hhash in Hs. rewrite Hs, He.
    destruct (is_tombstone s) eqn:Ht; [apply IH; lia|].
    destruct (Z.eqb_spec (hash s) (hash_of key)) as [Hh|Hh]; [|apply IH; lia].
    destruct (ok_slot m Hok _ s Hs) as (k' & v' & Hk' & Hv' & Hhash');
      [by apply occupied_intro|].
    rewrite Hk'. case_bool_decide as Hsame; [|apply IH; lia].
    subst k'. exfalso.
    assert (Heq : Z.to_nat (slot_pos (capacity_ m) (hash_of key) i) = pos).
    { apply (ok_nodup m Hok _ _ s slot); try done; [by apply occupied_intro|congruence]. }
    apply Hne. rewrite <- Heq.
    rewrite Z2Nat.id by (apply slot_pos_range; lia).
    rewrite displacement_slot_pos; lia.
Qed.

Lemma find_slot_sound m key h :
  table_ok m →
  ∃ q, find_slot key h m = Some q ∧
       (q = capacity_ m ∨
        (0 ≤ q < capacity_ m ∧ ∃ v, stored_at m (Z.to_nat q) key v)).
Proof.
  intros Hok. apply find_slot_loop_sound; [done| |lia].
  pose proof (capacity_pos m Hok). lia.
Qed.

Lemma find_slot_found m key pos value :
  table_ok m → stored_at m pos key value →
  find_slot key (hash_of key) m = Some (Z.of_nat pos).
Proof.
  intros Hok Hst. apply (find_slot_loop_found m key pos value); try done.
  - pose proof (capacity_pos m Hok). lia.
  - split; [lia|]. apply displacement_range. pose proof (capacity_pos m Hok). lia.
Qed.

(** A key sits in at most one slot. *)
Lemma stored_at_unique m key p1 p2 v1 v2 :
  table_ok m → stored_at m p1 key v1 → stored_at m p2 key v2 → p1 = p2 ∧ v1 = v2.
Proof.
  intros Hok (s1 & H1 & O1 & K1 & V1) (s2 & H2 & O2 & K2 & V2).
  assert (p1 = p2) by (apply (ok_nodup m Hok _ _ s1 s2); congruence).
  subst p2. split; [done|]. congruence.
Qed.


Lemma find_cases m key :
  table_ok m →
  (find key m = Some nullptr ∧ ∀ v, ¬ stored m key v) ∨
  (∃ pos v, find key m = Some (ptr_to pos) ∧ deref (ptr_to pos) m = Some v
            ∧ stored m key v).
Proof.
  intros Hok. unfold find.
  destruct (find_slot_sound m key (hash_of key) Hok) as (q & Hq & Hcases).
  rewrite Hq. simpl. destruct Hcases as [->|(Hrange & v & Hst)].
  - rewrite Z.eqb_refl. left. split; [done|]. intros v [pos Hst].
    rewrite (find_slot_found m key pos v) in Hq by done.
    destruct Hst as (slot & Hslot & _).
    pose proof (lookup_in_range m pos slot Hok Hslot). simplify_eq. lia.
  - destruct (Z.eqb_spec q (capacity_ m)); [lia|]. right. exists q, v.
    split; [done|]. split; [|by exists (Z.to_nat q)].
    destruct Hst as (slot & Hslot & Hocc & Hkey & Hval). simpl. by rewrite Hslot.
Qed.

(** [contains] is membership in the stored keys. *)
Lemma contains_stored m key :
  table_ok m → contains key m = Some true ↔ ∃ v, stored m key v.
Proof.
  intros Hok. unfold contains.
  destruct (find_cases m key Hok) as [[-> Hno]|(pos & v & -> & _ & Hst)]; simpl.
  - split; [done|]. intros [v Hv]. by destruct (Hno v).
  - split; [by exists v|done].
Qed.

Lemma contains_total m key :
  table_ok m → ∃ b, contains key m = Some b.
Proof.
  intros Hok. unfold contains.
  destruct (find_cases m key Hok) as [[-> _]|(pos & v & -> & _)]; simpl; eauto.
Qed.
End FlatLookup.

(** ** The inline backend: writes to the table *)

Section FlatTable.
Context {Key Value : Type} `{!MapParams Key Value}.
Import Flat.
Implicit Types (m : FlatHashMap Key Value) (slot : Slot Key Value).

Lemma filled_occupied (key : Key) (value : Value) :
  occupied (filled (hash_of key) key value) = true.
Proof.
  destruct (hash_of_not_sentinel key) as [H0 H1].
  unfold occupied, is_empty, is_tombstone. simpl.
  destruct (Z.eqb_spec (hash_of key) EMPTY_HASH),
           (Z.eqb_spec (hash_of key) TOMBSTONE_HASH); done.
Qed.

Lemma filled_not_tombstone (key : Key) (value : Value) :
  is_tombstone (filled (hash_of key) key value) = false.
Proof. apply occupied_not_tombstone, filled_occupied. Qed.

Lemma tombstone_not_empty slot : is_tombstone slot = true → is_empty slot = false.
Proof.
  unfold is_tombstone, is_empty, EMPTY_HASH, TOMBSTONE_HASH.
  intros H%Z.eqb_eq. rewrite H. done.
Qed.

Lemma tombstone_not_occupied slot : is_tombstone slot = true → occupied slot = false.
Proof. unfold occupied. intros ->. by rewrite andb_false_r. Qed.

Lemma empty_not_occupied slot : is_empty slot = true → occupied slot = false.
Proof. unfold occupied. by intros ->. Qed.

Lemma empty_not_tombstone slot : is_empty slot = true → is_tombstone slot = false.
Proof.
  intros He. destruct (is_tombstone slot) eqn:Ht; [|done].
  apply tombstone_not_empty in Ht. congruence.
Qed.

(** Writing a slot keeps the table well formed when it empties no slot
    and, if the new slot is occupied, the slot is well formed, lies behind
    no empty slot on its probe path and brings a key that no other slot
    holds. *)
Lemma table_ok_write m (pos : nat) old new :
  table_ok m → table_ m !! pos = Some old →
  (is_empty old = false → is_empty new = false) →
  (occupied new = true →
     slot_ok new ∧
     (∀ j, 0 ≤ j < displacement (capacity_ m) (hash new) (Z.of_nat pos) →
        ∃ s, table_ m !! Z.to_nat (slot_pos (capacity_ m) (hash new) j) = Some s
             ∧ is_empty s = false) ∧
     (∀ (p2 : nat) s2, table_ m !! p2 = Some s2 → occupied s2 = true →
        key_storage s2 = key_storage new → p2 = pos)) →
  table_ok (set_table (<[pos := new]> (table_ m)) m).
Proof.
  intros Hok Hold Hmono Hnew.
  assert (Hlt : (pos < length (table_ m))%nat) by by eapply lookup_lt_Some.
  assert (Hnonempty : ∀ q s, table_ m !! q = Some s → is_empty s = false →
            ∃ s', <[pos := new]> (table_ m) !! q = Some s' ∧ is_empty s' = false).
  { intros q s Hq He. destruct (decide (q = pos)) as [->|Hne].
    - exists new. rewrite list_lookup_insert_eq by done. split; [done|].
      apply Hmono. congruence.
    - exists s. by rewrite list_lookup_insert_ne. }
  split; simpl.
  - apply Hok.
  - apply Hok.
  - rewrite length_insert. apply Hok.
  - intros p slot Hp Hocc. apply list_lookup_insert_Some in Hp.
    destruct Hp as [(-> & -> & _)|[Hne Hp]].
    + by apply Hnew.
    + by apply (ok_slot m Hok p).
  - intros p slot j Hp Hocc Hj. apply list_lookup_insert_Some in Hp.
    destruct Hp as [(-> & -> & _)|[Hne Hp]].
    + destruct (Hnew Hocc) as (_ & Hchain & _).
      destruct (Hchain j Hj) as (s & Hs & He). by apply (Hnonempty _ s).
    + destruct (ok_chain m Hok p slot j Hp Hocc Hj) as (s & Hs & He).
      by apply (Hnonempty _ s).
  - intros p1 p2 s1 s2 H1 H2 O1 O2 Hk.
    apply list_lookup_insert_Some in H1, H2.
    destruct H1 as [(-> & -> & _)|[Hne1 H1]], H2 as [(-> & -> & _)|[Hne2 H2]].
    + done.
    + destruct (Hnew O1) as (_ & _ & Hfresh). symmetry. by apply (Hfresh p2 s2).
    + destruct (Hnew O2) as (_ & _ & Hfresh). by apply (Hfresh p1 s1).
    + by apply (ok_nodup m Hok p1 p2 s1 s2).
Qed.

(** Writing a slot and the stored pairs. *)
Lemma stored_at_write m (pos p : nat) new key value :
  (pos < length (table_ m))%nat →
  stored_at (set_table (<[pos := new]> (table_ m)) m) p key value ↔
  (p = pos ∧ holds new key value) ∨ (p ≠ pos ∧ stored_at m p key value).
Proof.
  intros Hlt. unfold stored_at, holds. simpl. split.
  - intros (slot & Hp & Hrest). apply list_lookup_insert_Some in Hp.
    destruct Hp as [(-> & -> & _)|[Hne Hp]]; [by left|right].
    split; [done|]. by exists slot.
  - intros [[-> Hnew]|[Hne (slot & Hp & Hrest)]].
    + exists new. by rewrite list_lookup_insert_eq.
    + exists slot. by rewrite list_lookup_insert_ne.
Qed.

(** *** The keys of a table *)

Lemma elem_of_keys_of (t : list (Slot Key Value)) key :
  key ∈ keys_of t ↔
  ∃ (pos : nat) slot, t !! pos = Some slot ∧ occupied slot = true
                      ∧ key_storage slot = Some key.
Proof.
  unfold keys_of. rewrite list_elem_of_omap. split.
  - intros (slot & Hin & Hk). apply list_elem_of_lookup in Hin as [pos Hpos].
    exists pos, slot. destruct (occupied slot); [done|discriminate].
  - intros (pos & slot & Hpos & Hocc & Hk). exists slot.
    split; [by eapply list_elem_of_lookup_2|]. by rewrite Hocc.
Qed.

Lemma keys_of_cons (a : Slot Key Value) t :
  keys_of (a :: t)
  = match (if occupied a then key_storage a else None) with
    | Some k => k :: keys_of t
    | None => keys_of t
    end.
Proof. reflexivity. Qed.

Lemma keys_of_NoDup (t : list (Slot Key Value)) :
  (∀ (p1 p2 : nat) s1 s2, t !! p1 = Some s1 → t !! p2 = Some s2 →
     occupied s1 = true → occupied s2 = true →
     key_storage s1 = key_storage s2 → p1 = p2) →
  NoDup (keys_of t).
Proof.
  induction t as [|a t IH]; intros Hinj; [constructor|].
  assert (Htail : NoDup (keys_of t)).
  { apply IH. intros p1 p2 s1 s2 H1 H2 O1 O2 Hk.
    assert (S p1 = S p2) by by apply (Hinj (S p1) (S p2) s1 s2). lia. }
  rewrite keys_of_cons.
  destruct (occupied a) eqn:Hocc; [|done].
  destruct (key_storage a) as [k|] eqn:Hk; [|done].
  constructor; [|done]. intros Hin.
  apply elem_of_keys_of in Hin as (pos & slot & Hpos & Oslot & Kslot).
  assert (0%nat = S pos) by (apply (Hinj 0%nat (S pos) a slot); try done; congruence).
  lia.
Qed.

Lemma keys_of_length (t : list (Slot Key Value)) :
  Forall slot_ok t → Z.of_nat (length (keys_of t)) = count occupied t.
Proof.
  induction 1 as [|a t Ha _ IH]; [done|].
  rewrite count_cons, keys_of_cons.
  destruct (occupied a) eqn:Hocc; [|lia].
  destruct (Ha Hocc) as (k & v & -> & _). simpl length. lia.
Qed.

Lemma table_slots_ok m : table_ok m → Forall slot_ok (table_ m).
Proof.
  intros Hok. apply Forall_lookup. intros pos slot Hpos Hocc.
  by apply (ok_slot m Hok pos).
Qed.
End FlatTable.

(** ** The inline backend: [rehash] *)

Section FlatRehash.
Context {Key Value : Type} `{!MapParams Key Value}.
Import Flat.
Implicit Types (m : FlatHashMap Key Value) (slot : Slot Key Value).

Lemma count_not_empty (t : list (Slot Key Value)) :
  count (λ slot, negb (is_empty slot)) t = count occupied t + count is_tombstone t.
Proof.
  induction t as [|a t IH]; [done|]. rewrite !count_cons, IH.
  unfold occupied. destruct (is_empty a) eqn:He; simpl.
  - rewrite (empty_not_tombstone a He). lia.
  - destruct (is_tombstone a); simpl; lia.
Qed.

(** A table with fewer occupied slots and tombstones than slots has an
    empty slot. *)
Lemma empty_slot_exists m :
  table_ok m →
  count occupied (table_ m) + count is_tombstone (table_ m) < capacity_ m →
  ∃ (e : nat) slot, table_ m !! e = Some slot ∧ is_empty slot = true.
Proof.
  intros Hok Hroom. rewrite <- count_not_empty, <- (ok_length m Hok) in Hroom.
  apply count_lt_length in Hroom as (e & slot & He & Hslot).
  exists e, slot. split; [done|]. by apply negb_false_iff.
Qed.

(** No probe sequence misses a slot: a table whose probed slots are all
    non-empty has no empty slot. *)
Lemma probes_cover m h (e : nat) slot :
  table_ok m → table_ m !! e = Some slot → is_empty slot = true →
  ¬ (∀ j, 0 ≤ j < capacity_ m →
       ∃ s, table_ m !! Z.to_nat (slot_pos (capacity_ m) h j) = Some s
            ∧ is_empty s = false).
Proof.
  intros Hok He Hempty Hall.
  pose proof (capacity_pos m Hok) as Hc.
  pose proof (lookup_in_range m e slot Hok He) as Hrange.
  destruct (Hall (displacement (capacity_ m) h (Z.of_nat e))) as (s & Hs & Hne).
  { apply displacement_range. lia. }
  rewrite slot_pos_displacement, Nat2Z.id in Hs by lia. congruence.
Qed.

Lemma insert_internal_loop_unfold fuel i index h (key : Key) (value : Value) m :
  insert_internal_loop (S fuel) i index h key value m
  = let pos := probe m index i in
    match table_ m !! Z.to_nat pos with
    | None => Undefined
    | Some slot =>
        if is_empty slot || is_tombstone slot then
          let m := if is_tombstone slot
                   then set_tombstone_count (wrap64 (tombstone_count_ m - 1)) m
                   else m in
          Returned tt (set_table (<[Z.to_nat pos := filled h key value]> (table_ m)) m)
        else insert_internal_loop fuel (wrap64 (i + 1)) index h key value m
    end.
Proof. reflexivity. Qed.

(** In a table without tombstones [insert_internal] fills the first empty
    slot of the probe sequence. *)
Lemma insert_internal_loop_fills m h (key : Key) (value : Value) fuel i :
  table_ok m → count is_tombstone (table_ m) = 0 →
  (∃ (e : nat) slot, table_ m !! e = Some slot ∧ is_empty slot = true) →
  Z.of_nat fuel + i = capacity_ m → 0 ≤ i →
  (∀ j, 0 ≤ j < i →
     ∃ s, table_ m !! Z.to_nat (slot_pos (capacity_ m) h j) = Some s
          ∧ is_empty s = false) →
  ∃ (ip : nat) old,
    insert_internal_loop fuel i (home m h) h key value m
    = Returned tt (set_table (<[ip := filled h key value]> (table_ m)) m)
    ∧ table_ m !! ip = Some old ∧ is_empty old = true
    ∧ ∀ j, 0 ≤ j < displacement (capacity_ m) h (Z.of_nat ip) →
        ∃ s, table_ m !! Z.to_nat (slot_pos (capacity_ m) h j) = Some s
             ∧ is_empty s = false.
Proof.
  intros Hok Hnotomb (e & eslot & He & Hempty).
  pose proof (capacity_pos m Hok) as Hc.
  revert i. induction fuel as [|fuel IH]; intros i Hfuel Hi Hprobed.
  { exfalso. apply (probes_cover m h e eslot Hok He Hempty).
    intros j Hj. apply Hprobed. lia. }
  rewrite insert_internal_loop_unfold. cbv zeta.
  rewrite probe_home by (done || lia).
  rewrite (next_iteration m) by (done || lia).
  destruct (lookup_probe m h i Hok) as [slot Hslot]; [lia|]. rewrite Hslot.
  assert (Ht : is_tombstone slot = false) by by eapply count_zero.
  rewrite Ht, orb_false_r.
  destruct (is_empty slot) eqn:Hes.
  - exists (Z.to_nat (slot_pos (capacity_ m) h i)), slot.
    split; [done|]. split; [done|]. split; [done|].
    intros j Hj. apply Hprobed.
    rewrite Z2Nat.id, displacement_slot_pos in Hj
      by (try apply slot_pos_range; lia). lia.
  - apply IH; [lia|lia|]. intros j Hj.
    destruct (Z.eq_dec j i) as [->|]; [by exists slot|apply Hprobed; lia].
Qed.

Lemma insert_internal_ok m (key : Key) (value : Value) :
  table_ok m → count is_tombstone (table_ m) = 0 →
  count occupied (table_ m) < capacity_ m →
  (∀ v, ¬ stored m key v) →
  ∃ m', insert_internal (hash_of key) key value m = Returned tt m'
    ∧ table_ok m' ∧ capacity_ m' = capacity_ m ∧ size_ m' = size_ m
    ∧ tombstone_count_ m' = tombstone_count_ m
    ∧ count is_tombstone (table_ m') = 0
    ∧ count occupied (table_ m') = count occupied (table_ m) + 1
    ∧ ∀ k v, stored m' k v ↔ (k = key ∧ v = value) ∨ stored m k v.
Proof.
  intros Hok Hnotomb Hroom Hfresh.
  pose proof (capacity_pos m Hok) as Hc.
  destruct (insert_internal_loop_fills m (hash_of key) key value
              (Z.to_nat (capacity_ m)) 0 Hok Hnotomb)
    as (ip & old & Hrun & Hold & Hempty & Hchain); [|lia|lia|intros; lia|].
  { apply empty_slot_exists; [done|lia]. }
  eexists. split; [exact Hrun|].
  assert (Hlt : (ip < length (table_ m))%nat) by by eapply lookup_lt_Some.
  split; [|split; [done|split; [done|split; [done|split; [|split]]]]].
  - apply (table_ok_write m ip old); [done|done|congruence|].
    intros _. split; [|split].
    + intros _. by exists key, value.
    + done.
    + intros p2 s2 H2 O2 Hk. destruct (ok_slot m Hok p2 s2 H2 O2) as (k & v & Hk2 & Hv2 & _).
      destruct (Hfresh v). exists p2, s2. simpl in Hk. split; [done|]. split; [done|].
      split; congruence.
  - simpl. rewrite (count_insert _ _ _ _ old) by done.
    rewrite filled_not_tombstone, (empty_not_tombstone old) by done. lia.
  - simpl. rewrite (count_insert _ _ _ _ old) by done.
    rewrite filled_occupied, (empty_not_occupied old) by done. lia.
  - intros k v. unfold stored. split.
    + intros [p Hp].
      apply (proj1 (stored_at_write m ip _ _ _ _ Hlt)) in Hp as [[-> Hnew]|[Hne Hp]].
      * left. destruct Hnew as (_ & Hk & Hv). simpl in *. split; congruence.
      * right. by exists p.
    + intros [[-> ->]|[p Hp]].
      * exists ip. apply (proj2 (stored_at_write m ip _ _ _ _ Hlt)). left. split; [done|].
        split; [apply filled_occupied|done].
      * exists p. apply (proj2 (stored_at_write m ip _ _ _ _ Hlt)). right. split; [|done].
        intros ->. destruct Hp as (s & Hs & Hocc & _).
        assert (s = old) by congruence. subst s.
        by rewrite (empty_not_occupied old Hempty) in Hocc.
Qed.

Lemma rehash_loop_ok (rest : list (Slot Key Value)) m :
  table_ok m → count is_tombstone (table_ m) = 0 →
  Forall slot_ok rest → NoDup (keys_of rest) →
  (∀ k, k ∈ keys_of rest → ∀ v, ¬ stored m k v) →
  count occupied (table_ m) + count occupied rest < capacity_ m →
  ∃ m', rehash_loop rest m = Returned tt m'
    ∧ table_ok m' ∧ capacity_ m' = capacity_ m ∧ size_ m' = size_ m
    ∧ tombstone_count_ m' = tombstone_count_ m
    ∧ count is_tombstone (table_ m') = 0
    ∧ count occupied (table_ m') = count occupied (table_ m) + count occupied rest
    ∧ ∀ k v, stored m' k v ↔ stored m k v ∨ ∃ slot, slot ∈ rest ∧ holds slot k v.
Proof.
  revert m. induction rest as [|slot rest IH]; intros m Hok Hnotomb Hslots Hnodup Hfresh Hroom.
  { exists m. rewrite count_nil. repeat (split; [done || lia|]).
    intros k v. split; [by left|].
    intros [?|(s & Hs & _)]; [done|]. by apply elem_of_nil in Hs. }
  apply Forall_cons in Hslots as [Hslot Hslots].
  rewrite count_cons in Hroom. rewrite keys_of_cons in Hnodup, Hfresh.
  pose proof (count_range occupied rest) as Hrest.
  simpl rehash_loop. fold (occupied slot).
  destruct (occupied slot) eqn:Hocc.
  - destruct (Hslot Hocc) as (key & value & Hk & Hv & Hh).
    rewrite Hk in Hnodup, Hfresh. rewrite Hk, Hv, Hh.
    apply NoDup_cons in Hnodup as [Hnotin Hnodup].
    destruct (insert_internal_ok m key value) as (m1 & -> & Hok1 & Hc1 & Hs1 & Ht1 & Hn1 & Ho1 & Hst1);
      [done|done|lia| |].
    { apply Hfresh. by left. }
    simpl bind.
    destruct (IH m1) as (m' & -> & Hok' & Hc' & Hs' & Ht' & Hn' & Ho' & Hst'); try done.
    { intros k Hin v Hst. apply Hst1 in Hst as [[-> ->]|Hst]; [done|].
      eapply Hfresh; [by right|done]. }
    { lia. }
    exists m'. split; [done|]. split; [done|]. split; [congruence|].
    split; [congruence|]. split; [congruence|]. split; [done|].
    split; [rewrite count_cons, Hocc; lia|].
    intros k v. rewrite Hst', Hst1. split.
    + intros [[[-> ->]|?]|(s & Hs & Hholds)].
      * right. exists slot. split; [by left|done].
      * by left.
      * right. exists s. split; [by right|done].
    + intros [?|(s & Hs & Hholds)]; [left; by right|].
      apply elem_of_cons in Hs as [->|Hs].
      * left. left. destruct Hholds as (_ & Hk' & Hv'). split; congruence.
      * right. by exists s.
  - simpl in Hnodup, Hfresh.
    destruct (IH m) as (m' & -> & Hok' & Hc' & Hs' & Ht' & Hn' & Ho' & Hst');
      [done|done|done|done|done|lia|].
    exists m'. repeat (split; [done|]). split; [rewrite count_cons, Hocc; lia|].
    intros k v. rewrite Hst'. split.
    + intros [?|(s & Hs & Hholds)]; [by left|]. right. exists s. split; [by right|done].
    + intros [?|(s & Hs & Hholds)]; [by left|].
      apply elem_of_cons in Hs as [->|Hs]; [|right; by exists s].
      destruct Hholds as (Hocc' & _). congruence.
Qed.

(** The table allocated by the constructors, [clear] and [rehash]. *)
Lemma fresh_table_ok c size tombstones :
  (∃ p, 0 ≤ p ∧ c = 2 ^ p) → c ≤ max_slots →
  table_ok {| table_ := replicate (Z.to_nat c) (new_slot : Slot Key Value);
              size_ := size; capacity_ := c; tombstone_count_ := tombstones |}.
Proof.
  intros Hpow Hmax.
  assert (0 < c) by (destruct Hpow as (p & Hp & ->); by apply pow2_pos).
  split; simpl; try done.
  - rewrite length_replicate. lia.
  - intros pos slot [-> _]%lookup_replicate. done.
  - intros pos slot j [-> _]%lookup_replicate. done.
  - intros p1 p2 s1 s2 [-> _]%lookup_replicate. done.
Qed.

Lemma fresh_table_counts c (f : Slot Key Value → bool) :
  f new_slot = false → count f (replicate (Z.to_nat c) new_slot) = 0.
Proof. apply count_replicate_false. Qed.

Lemma stored_holds m (key : Key) (value : Value) :
  stored m key value ↔ ∃ slot, slot ∈ table_ m ∧ holds slot key value.
Proof.
  unfold stored, stored_at, holds. split.
  - intros (pos & slot & Hpos & Hrest). exists slot.
    split; [by eapply list_elem_of_lookup_2|done].
  - intros (slot & [pos Hpos]%list_elem_of_lookup & Hrest). by exists pos, slot.
Qed.

(** [rehash] moves the stored pairs of a well-formed table to a table of
    [new_capacity] slots without tombstones. *)
Lemma rehash_ok new_capacity m :
  table_ok m →
  (∃ p, 0 ≤ p ∧ new_capacity = 2 ^ p) → new_capacity ≤ max_slots →
  count occupied (table_ m) < new_capacity →
  ∃ m', rehash new_capacity m = Returned tt m'
    ∧ table_ok m' ∧ capacity_ m' = new_capacity ∧ size_ m' = size_ m
    ∧ tombstone_count_ m' = 0
    ∧ count is_tombstone (table_ m') = 0
    ∧ count occupied (table_ m') = count occupied (table_ m)
    ∧ ∀ k v, stored m' k v ↔ stored m k v.
Proof.
  intros Hok Hpow Hmax Hroom. unfold rehash.
  destruct (Z.ltb_spec max_slots new_capacity); [lia|].
  assert (Hempty : ∀ k v,
    ¬ stored {| table_ := replicate (Z.to_nat new_capacity) (new_slot : Slot Key Value);
                size_ := size_ m; capacity_ := new_capacity; tombstone_count_ := 0 |} k v).
  { intros k v (pos & slot & [-> _]%lookup_replicate & Hocc & _). done. }
  edestruct (rehash_loop_ok (table_ m)) as (m' & -> & Hok' & Hc' & Hs' & Ht' & Hn' & Ho' & Hst').
  - by apply (fresh_table_ok new_capacity).
  - by apply fresh_table_counts.
  - by apply table_slots_ok.
  - apply keys_of_NoDup, Hok.
  - intros k _ v. apply Hempty.
  - cbn [table_ capacity_]. rewrite fresh_table_counts by done. lia.
  - exists m'. cbn [table_ capacity_ size_ tombstone_count_] in *.
    rewrite fresh_table_counts in Ho' by done.
    repeat (split; [done || lia|]).
    intros k v. rewrite Hst', (stored_holds m). split; [|by right].
    intros [Hst|?]; [by destruct (Hempty k v)|done].
Qed.
End FlatRehash.

(** ** The inline backend: the probing loop of [insert] *)

Section FlatInsertLoop.
Context {Key Value : Type} `{!MapParams Key Value}.
Import Flat.
Implicit Types (m : FlatHashMap Key Value) (slot : Slot Key Value).

Lemma insert_loop_unfold fuel i first_tombstone index h (key : Key) (value : Value) m :
  insert_loop (S fuel) i first_tombstone index h key value m
  = let pos := probe m index i in
    match table_ m !! Z.to_nat pos with
    | None => Undefined
    | Some slot =>
        if is_empty slot then
          let reuse := negb (first_tombstone =? capacity_ m) in
          let insert_pos := if reuse then first_tombstone else pos in
          let m := if reuse
                   then set_tombstone_count (wrap64 (tombstone_count_ m - 1)) m
                   else m in
          let m := set_table (<[Z.to_nat insert_pos := filled h key value]> (table_ m)) m in
          Returned (ptr_to insert_pos, true) (set_size (wrap64 (size_ m + 1)) m)
        else if is_tombstone slot && (first_tombstone =? capacity_ m) then
          insert_loop fuel (wrap64 (i + 1)) pos index h key value m
        else if negb (is_tombstone slot) && (hash slot =? h) then
          match key_storage slot with
          | None => Undefined
          | Some k =>
              if bool_decide (k = key) then
                match value_storage slot with
                | None => Undefined
                | Some _ =>
                    Returned (ptr_to pos, false)
                      (set_table (<[Z.to_nat pos := set_value value slot]> (table_ m)) m)
                end
              else insert_loop fuel (wrap64 (i + 1)) first_tombstone index h key value m
          end
        else insert_loop fuel (wrap64 (i + 1)) first_tombstone index h key value m
    end.
Proof. reflexivity. Qed.

(** What the loop does from iteration [i] on, when the slots probed before
    are neither empty nor the slot of the key and [first_tombstone] is
    unset or one of the tombstones probed before. *)
Lemma insert_loop_spec m (key : Key) (value : Value) fuel i first_tombstone :
  table_ok m →
  Z.of_nat fuel + i = capacity_ m → 0 ≤ i →
  (∀ j, 0 ≤ j < i →
     ∃ s, table_ m !! Z.to_nat (slot_pos (capacity_ m) (hash_of key) j) = Some s
          ∧ is_empty s = false
          ∧ (occupied s = true → key_storage s ≠ Some key)) →
  remembered m (hash_of key) i first_tombstone →
  match insert_loop fuel i first_tombstone (home m (hash_of key)) (hash_of key)
          key value m with
  | Returned (p, inserted) m' =>
      if inserted then
        (∀ v, ¬ stored m key v) ∧
        ∃ (ip : nat) old,
          p = ptr_to (Z.of_nat ip) ∧ table_ m !! ip = Some old
          ∧ occupied old = false
          ∧ (∀ j, 0 ≤ j < displacement (capacity_ m) (hash_of key) (Z.of_nat ip) →
               ∃ s, table_ m !! Z.to_nat (slot_pos (capacity_ m) (hash_of key) j) = Some s
                    ∧ is_empty s = false)
          ∧ m' = {| table_ := <[ip := filled (hash_of key) key value]> (table_ m);
                    size_ := wrap64 (size_ m + 1);
                    capacity_ := capacity_ m;
                    tombstone_count_ :=
                      if is_tombstone old then wrap64 (tombstone_count_ m - 1)
                      else tombstone_count_ m |}
      else
        ∃ (pos : nat) old,
          p = ptr_to (Z.of_nat pos) ∧ table_ m !! pos = Some old
          ∧ occupied old = true ∧ key_storage old = Some key
          ∧ m' = set_table (<[pos := set_value value old]> (table_ m)) m
  | TableFull m' =>
      m' = m ∧
      ∀ j, 0 ≤ j < capacity_ m →
        ∃ s, table_ m !! Z.to_nat (slot_pos (capacity_ m) (hash_of key) j) = Some s
             ∧ is_empty s = false
  | LengthError | Undefined => False
  end.
Proof.
  intros Hok. pose proof (capacity_pos m Hok) as Hc.
  revert i first_tombstone.
  induction fuel as [|fuel IH]; intros i ft Hfuel Hi Hprobed Hft.
  { simpl. split; [done|]. intros j Hj.
    destruct (Hprobed j) as (s & Hs & He & Hne); [lia|]. by exists s. }
  rewrite insert_loop_unfold. cbv zeta.
  rewrite probe_home by (done || lia).
  rewrite !(next_iteration m i) by (done || lia).
  destruct (lookup_probe m (hash_of key) i Hok) as [slot Hslot]; [lia|].
  rewrite Hslot.
  assert (Hq : 0 ≤ slot_pos (capacity_ m) (hash_of key) i < (capacity_ m)) by (apply slot_pos_range; lia).
  destruct (is_empty slot) eqn:Hempty.
  - (* an empty slot ends the search: the key is not in the table *)
    assert (Hfresh : ∀ v, ¬ stored m key v).
    { intros v (pos & slot' & Hpos & Hocc & Hkey & Hval).
      pose proof (lookup_in_range m pos slot' Hok Hpos) as Hrange.
      destruct (ok_slot m Hok pos slot' Hpos Hocc) as (k & v' & Hk & _ & Hh).
      assert (k = key) by congruence. subst k.
      pose proof (displacement_range (capacity_ m) (hash_of key) (Z.of_nat pos) (proj1 Hc)) as Hd.
      destruct (Z.lt_trichotomy (displacement (capacity_ m) (hash_of key) (Z.of_nat pos)) i) as [Hlt|[Heq|Hgt]].
      - destruct (Hprobed (displacement (capacity_ m) (hash_of key) (Z.of_nat pos))) as (s & Hs & He & Hne); [lia|].
        rewrite slot_pos_displacement, Nat2Z.id in Hs by lia.
        assert (s = slot') by congruence. subst s. by apply Hne.
      - rewrite <- Heq, slot_pos_displacement, Nat2Z.id in Hslot by lia.
        assert (slot = slot') by congruence. subst slot'.
        by rewrite (empty_not_occupied slot Hempty) in Hocc.
      - destruct (ok_chain m Hok pos slot' i Hpos Hocc) as (s & Hs & Hne).
        { rewrite Hh. lia. }
        rewrite Hh in Hs. congruence. }
    split; [done|].
    destruct (Z.eqb_spec ft (capacity_ m)) as [->|Hreuse]; simpl negb; cbv iota.
    + exists (Z.to_nat (slot_pos (capacity_ m) (hash_of key) i)), slot.
      rewrite Z2Nat.id by lia.
      split; [done|]. split; [done|]. split; [by apply empty_not_occupied|].
      split.
      * intros j Hj. rewrite displacement_slot_pos in Hj by lia.
        destruct (Hprobed j) as (s & Hs & He & Hne); [lia|]. by exists s.
      * by rewrite (empty_not_tombstone slot Hempty).
    + destruct (Hft Hreuse) as (j0 & s & Hj0 & -> & Hs & Hts).
      assert (Hq0 : 0 ≤ slot_pos (capacity_ m) (hash_of key) j0 < (capacity_ m)) by (apply slot_pos_range; lia).
      exists (Z.to_nat (slot_pos (capacity_ m) (hash_of key) j0)), s.
      rewrite Z2Nat.id by lia.
      split; [done|]. split; [done|]. split; [by apply tombstone_not_occupied|].
      split.
      * intros j Hj. rewrite displacement_slot_pos in Hj by lia.
        destruct (Hprobed j) as (s' & Hs' & He & Hne); [lia|]. by exists s'.
      * by rewrite Hts.
  - destruct (is_tombstone slot && (ft =? (capacity_ m))) eqn:Hfirst.
    { (* the first tombstone of the probe sequence *)
      apply andb_true_iff in Hfirst as [Hts _].
      apply IH; [lia|lia| |].
      - intros j Hj. destruct (Z.eq_dec j i) as [->|]; [|apply Hprobed; lia].
        exists slot. split; [done|]. split; [done|].
        by rewrite (tombstone_not_occupied slot Hts).
      - intros _. exists i, slot. split; [lia|done]. }
    assert (Hnext :
      (occupied slot = true → key_storage slot ≠ Some key) →
      ∀ j, 0 ≤ j < i + 1 →
        ∃ s, table_ m !! Z.to_nat (slot_pos (capacity_ m) (hash_of key) j) = Some s
             ∧ is_empty s = false
             ∧ (occupied s = true → key_storage s ≠ Some key)).
    { intros Hne j Hj. destruct (Z.eq_dec j i) as [->|]; [|apply Hprobed; lia].
      by exists slot. }
    assert (Hft' : remembered m (hash_of key) (i + 1) ft).
    { intros Hreuse. destruct (Hft Hreuse) as (j0 & s & Hj0 & Hrest).
      exists j0, s. split; [lia|done]. }
    destruct (negb (is_tombstone slot) && (hash slot =? (hash_of key))) eqn:Hmatch.
    + apply andb_true_iff in Hmatch as [Hts Hh].
      apply negb_true_iff in Hts. apply Z.eqb_eq in Hh.
      assert (Hocc : occupied slot = true) by by apply occupied_intro.
      destruct (ok_slot m Hok _ slot Hslot Hocc) as (k & v & Hk & Hv & _).
      rewrite Hk. case_bool_decide as Hkey.
      * subst k. rewrite Hv.
        exists (Z.to_nat (slot_pos (capacity_ m) (hash_of key) i)), slot. by rewrite Z2Nat.id by lia.
      * apply IH; [lia|lia| |done]. apply Hnext. intros _. congruence.
    + apply IH; [lia|lia| |done]. apply Hnext. intros Hocc Hkey.
      destruct (ok_slot m Hok _ slot Hslot Hocc) as (k & v & Hk & _ & Hh).
      assert (k = key) by congruence. subst k.
      rewrite (occupied_not_tombstone slot Hocc) in Hmatch. simpl in Hmatch.
      apply Z.eqb_neq in Hmatch. by apply Hmatch.
Qed.
End FlatInsertLoop.

(** ** The inline backend: the public operations keep the invariant *)

Section FlatOperations.
Context {Key Value : Type} `{!MapParams Key Value}.
Import Flat.
Implicit Types (m : FlatHashMap Key Value) (slot : Slot Key Value).

Lemma table_ok_ext m1 m2 :
  table_ m1 = table_ m2 → capacity_ m1 = capacity_ m2 → table_ok m1 → table_ok m2.
Proof.
  intros Ht Hc Hok. destruct Hok as [H1 H2 H3 H4 H5 H6].
  split; rewrite <- ?Ht, <- ?Hc; done.
Qed.

Lemma stored_ext m1 m2 (key : Key) (value : Value) :
  table_ m1 = table_ m2 → stored m1 key value → stored m2 key value.
Proof. unfold stored, stored_at. by intros ->. Qed.

Lemma count_hit {A} (f : A → bool) t (i : nat) x :
  t !! i = Some x → f x = true → 1 ≤ count f t.
Proof.
  revert i. induction t as [|a t IH]; intros i Hi Hx; [done|].
  rewrite count_cons. pose proof (count_range f t).
  destruct i as [|i]; simplify_eq/=.
  - rewrite Hx. lia.
  - specialize (IH i Hi Hx). destruct (f a); lia.
Qed.

Lemma counters_range m :
  table_ok m →
  0 ≤ count occupied (table_ m) ∧ 0 ≤ count is_tombstone (table_ m) ∧
  count occupied (table_ m) + count is_tombstone (table_ m) ≤ capacity_ m.
Proof.
  intros Hok. pose proof (count_range occupied (table_ m)).
  pose proof (count_range is_tombstone (table_ m)).
  pose proof (count_range (λ slot, negb (is_empty slot)) (table_ m)) as Hne.
  rewrite count_not_empty, (ok_length m Hok) in Hne. lia.
Qed.

(** The probing loop of [insert] on a table with an empty slot. *)
Lemma insert_loop_ok m (key : Key) (value : Value) :
  table_ok m →
  size_ m = count occupied (table_ m) →
  tombstone_count_ m = count is_tombstone (table_ m) →
  size_ m + tombstone_count_ m < capacity_ m →
  ∃ p inserted m',
    insert_loop (Z.to_nat (capacity_ m)) 0 (capacity_ m) (home m (hash_of key))
      (hash_of key) key value m = Returned (p, inserted) m'
    ∧ table_ok m'
    ∧ size_ m' = count occupied (table_ m')
    ∧ tombstone_count_ m' = count is_tombstone (table_ m')
    ∧ capacity_ m' = capacity_ m
    ∧ stored m' key value
    ∧ deref p m' = Some value
    ∧ (if inserted
       then (∀ v, ¬ stored m key v) ∧ size_ m' = size_ m + 1
            ∧ tombstone_count_ m' ≤ tombstone_count_ m
       else (∃ v, stored m key v) ∧ size_ m' = size_ m
            ∧ tombstone_count_ m' = tombstone_count_ m).
Proof.
  intros Hok Hsize Htomb Hroom.
  pose proof (capacity_pos m Hok) as Hc.
  pose proof (counters_range m Hok) as Hcounts.
  unshelve epose proof (insert_loop_spec m key value (Z.to_nat (capacity_ m)) 0
                          (capacity_ m) Hok _ _ _ _) as Hspec;
    [lia|lia|intros; lia|by intros ?|].
  destruct (insert_loop _ _ _ _ _ _ _ _) as [[p inserted] m'|m'| |];
    [|exfalso|done|done].
  - exists p, inserted, m'. split; [done|].
    destruct inserted.
    + destruct Hspec as (Hfresh & ip & old & -> & Hold & Hocc & Hchain & ->).
      assert (Hlt : (ip < length (table_ m))%nat) by by eapply lookup_lt_Some.
      assert (Hok' : table_ok (set_table (<[ip := filled (hash_of key) key value]> (table_ m)) m)).
      { apply (table_ok_write m ip old); [done|done| |].
        - intros _. apply occupied_not_empty, filled_occupied.
        - intros _. split; [|split].
          + intros _. by exists key, value.
          + done.
          + intros p2 s2 H2 O2 Hk.
            destruct (ok_slot m Hok p2 s2 H2 O2) as (k & v & Hk2 & Hv2 & _).
            destruct (Hfresh v). exists p2, s2. simpl in Hk.
            split; [done|]. split; [done|]. split; congruence. }
      cbn [table_ size_ capacity_ tombstone_count_].
      split; [by eapply table_ok_ext; [| |exact Hok']|].
      rewrite !(count_insert _ _ _ _ old) by done.
      rewrite filled_occupied, filled_not_tombstone, Hocc.
      rewrite wrap64_small by lia.
      assert (Htc : (if is_tombstone old then wrap64 (tombstone_count_ m - 1)
                     else tombstone_count_ m)
                    = tombstone_count_ m - (if is_tombstone old then 1 else 0)).
      { destruct (is_tombstone old) eqn:Ht; [|lia].
        pose proof (count_hit is_tombstone _ _ _ Hold Ht).
        apply wrap64_small. lia. }
      rewrite Htc.
      split; [lia|]. split; [lia|]. split; [done|].
      split; [|split].
      * exists ip. apply (proj2 (stored_at_write m ip _ _ _ _ Hlt)). left.
        split; [done|]. split; [apply filled_occupied|done].
      * simpl. rewrite Nat2Z.id, list_lookup_insert_eq by done. done.
      * split; [done|]. split; [lia|]. destruct (is_tombstone old); lia.
    + destruct Hspec as (pos & old & -> & Hold & Hocc & Hkey & ->).
      assert (Hlt : (pos < length (table_ m))%nat) by by eapply lookup_lt_Some.
      destruct (ok_slot m Hok pos old Hold Hocc) as (k & v & Hk & Hv & Hh).
      assert (k = key) by congruence. subst k.
      assert (Hocc' : occupied (set_value value old) = true) by done.
      split.
      { apply (table_ok_write m pos old); [done|done|done|].
        intros _. split; [|split].
        - intros _. by exists key, value.
        - intros j Hj. by apply (ok_chain m Hok pos old).
        - intros p2 s2 H2 O2 Hk2. by apply (ok_nodup m Hok p2 pos s2 old). }
      cbn [table_ size_ capacity_ tombstone_count_ set_table].
      rewrite !(count_insert _ _ _ _ old) by done.
      rewrite Hocc', Hocc.
      change (is_tombstone (set_value value old)) with (is_tombstone old).
      split; [lia|]. split; [lia|]. split; [done|].
      split; [|split].
      * exists pos. apply (proj2 (stored_at_write m pos _ _ _ _ Hlt)). left.
        split; [done|]. by split.
      * simpl. rewrite Nat2Z.id, list_lookup_insert_eq by done. done.
      * split; [|done]. exists v, pos, old. done.
  - destruct Hspec as [-> Hfull].
    destruct (empty_slot_exists m Hok) as (e & slot & He & Hempty); [lia|].
    by apply (probes_cover m (hash_of key) e slot Hok He Hempty).
Qed.

Lemma rehash_too_large new_capacity m :
  max_slots < new_capacity → rehash new_capacity m = LengthError.
Proof. intros H. unfold rehash. by destruct (Z.ltb_spec max_slots new_capacity); [|lia]. Qed.

(** The two checks of [insert] and [erase] on a map that satisfies the
    invariant are the comparisons of the integers. *)
Lemma checks_spec m :
  table_ok m →
  size_ m = count occupied (table_ m) →
  tombstone_count_ m = count is_tombstone (table_ m) →
  load_exceeds (size_ m) (capacity_ m) = (3 * capacity_ m <? 4 * (size_ m + 1))
  ∧ tombstones_exceed (tombstone_count_ m) (capacity_ m)
    = (capacity_ m <? 4 * tombstone_count_ m).
Proof.
  intros Hok Hsize Htomb.
  destruct (table_ok_capacity m Hok) as (p & Hp & Hc & Hpos).
  pose proof (capacity_pos m Hok). pose proof (counters_range m Hok).
  rewrite Hc. split.
  - apply load_exceeds_spec; lia.
  - apply tombstones_exceed_spec; lia.
Qed.

Lemma capacity_small m : table_ok m → capacity_ m = 1 ∨ 2 ≤ capacity_ m.
Proof.
  intros Hok. destruct (table_ok_capacity m Hok) as (p & Hp & -> & Hpos).
  destruct (Z.eq_dec p 0) as [->|]; [by left|right].
  change 2 with (2 ^ 1) at 1. apply Z.pow_le_mono_r; lia.
Qed.

Lemma double_capacity_pow2 m :
  table_ok m → ∃ p, 0 ≤ p ∧ 2 * capacity_ m = 2 ^ p.
Proof.
  intros Hok. destruct (table_ok_capacity m Hok) as (p & Hp & -> & Hpos).
  exists (p + 1). split; [lia|]. rewrite Z.pow_add_r by lia. lia.
Qed.

(** [insert] on a map that satisfies the invariant: unless the table has
    to grow beyond what can be allocated, it returns, with the pair stored
    and the invariant kept. *)
Lemma insert_ok m (key : Key) (value : Value) :
  invariant m →
  insert key value m = LengthError ∨
  ∃ p inserted m',
    insert key value m = Returned (p, inserted) m'
    ∧ invariant m'
    ∧ stored m' key value
    ∧ deref p m' = Some value
    ∧ 4 * tombstone_count_ m' ≤ capacity_ m'
    ∧ 4 * size_ m' ≤ 3 * capacity_ m'
    ∧ (capacity_ m' = capacity_ m ∨ capacity_ m' = 2 * capacity_ m)
    ∧ (if inserted
       then (∀ v, ¬ stored m key v) ∧ size_ m' = size_ m + 1
       else (∃ v, stored m key v) ∧ size_ m' = size_ m).
Proof.
  intros [Hok Hsize Htomb Hfactor Hratio].
  destruct (checks_spec m Hok Hsize Htomb) as [Hload Htombs].
  pose proof (capacity_pos m Hok) as Hc.
  pose proof (counters_range m Hok) as Hcounts.
  unfold insert. rewrite Hload, Htombs.
  destruct ((3 * capacity_ m <? 4 * (size_ m + 1))
            || (capacity_ m <? 4 * tombstone_count_ m)) eqn:Hcheck.
  - (* the table grows *)
    rewrite wrap64_small by lia.
    destruct (Z_lt_le_dec max_slots (capacity_ m * 2)) as [Hbig|Hfits].
    { left. by rewrite rehash_too_large. }
    right.
    destruct (rehash_ok (capacity_ m * 2) m Hok) as
      (m1 & -> & Hok1 & Hc1 & Hs1 & Ht1 & Hn1 & Ho1 & Hst1); [|done|lia|].
    { destruct (double_capacity_pow2 m Hok) as (p & Hp & Hpow).
      exists p. split; [done|lia]. }
    simpl bind.
    destruct (insert_loop_ok m1 key value) as
      (p & inserted & m' & -> & Hok' & Hs' & Ht' & Hc' & Hst' & Hp' & Hcase);
      [done|lia|lia|lia|].
    exists p, inserted, m'. split; [done|].
    pose proof (capacity_small m Hok) as Hsmall.
    assert (Hsz : size_ m' ≤ size_ m + 1 ∧ tombstone_count_ m' ≤ 0).
    { destruct inserted; [destruct Hcase as (_ & ? & ?)|destruct Hcase as (_ & ? & ?)]; lia. }
    split; [split; [done|done|done|lia|left; lia]|].
    split; [done|]. split; [done|]. split; [lia|]. split; [lia|]. split; [right; lia|].
    destruct inserted.
    + destruct Hcase as (Hfresh & ? & ?). split; [|lia].
      intros v Hv. apply (Hfresh v). by apply Hst1.
    + destruct Hcase as ([v Hv] & ? & ?). split; [|lia].
      exists v. by apply Hst1.
  - (* the table is kept *)
    apply orb_false_iff in Hcheck as [Hl%Z.ltb_ge Ht%Z.ltb_ge].
    right. simpl bind.
    destruct (insert_loop_ok m key value) as
      (p & inserted & m' & -> & Hok' & Hs' & Ht' & Hc' & Hst' & Hp' & Hcase);
      [done|done|done|lia|].
    exists p, inserted, m'. split; [done|].
    assert (Hsz : size_ m' ≤ size_ m + 1 ∧ tombstone_count_ m' ≤ tombstone_count_ m).
    { destruct inserted; [destruct Hcase as (_ & ? & ?)|destruct Hcase as (_ & ? & ?)]; lia. }
    split; [split; [done|done|done|lia|left; lia]|].
    split; [done|]. split; [done|]. split; [lia|]. split; [lia|]. split; [by left|].
    destruct inserted.
    + by destruct Hcase as (Hfresh & ? & ?).
    + by destruct Hcase as (Hv & ? & ?).
Qed.

(** [erase] on a map that satisfies the invariant. *)
Lemma erase_ok m (key : Key) :
  invariant m →
  ∃ erased m',
    erase key m = Returned erased m'
    ∧ invariant m'
    ∧ capacity_ m' = capacity_ m
    ∧ (if erased then (∃ v, stored m key v) ∧ size_ m' = size_ m - 1
       else (∀ v, ¬ stored m key v) ∧ m' = m).
Proof.
  intros Hinv. pose proof Hinv as [Hok Hsize Htomb Hfactor Hratio].
  pose proof (capacity_pos m Hok) as Hc.
  pose proof (counters_range m Hok) as Hcounts.
  unfold erase.
  destruct (find_slot_sound m key (hash_of key) Hok) as (q & Hq & Hcases).
  rewrite Hq. destruct Hcases as [->|(Hrange & v & Hst)].
  - rewrite Z.eqb_refl. exists false, m. split; [done|]. split; [done|].
    split; [done|]. split; [|done].
    intros v [pos Hst]. rewrite (find_slot_found m key pos v) in Hq by done.
    destruct Hst as (slot & Hslot & _).
    pose proof (lookup_in_range m pos slot Hok Hslot). simplify_eq. lia.
  - destruct (Z.eqb_spec q (capacity_ m)); [lia|].
    pose proof Hst as (slot & Hslot & Hocc & Hkey & Hval).
    rewrite Hslot. cbv zeta.
    set (dead := set_hash TOMBSTONE_HASH (destroy_slot slot)).
    set (m1 := set_size _ _).
    assert (Hlt : (Z.to_nat q < length (table_ m))%nat) by by eapply lookup_lt_Some.
    assert (Hdead : is_tombstone dead = true ∧ occupied dead = false) by done.
    destruct Hdead as [Hdt Hdo].
    pose proof (count_hit occupied _ _ _ Hslot Hocc) as Hone.
    assert (Htable : table_ m1 = <[Z.to_nat q := dead]> (table_ m)) by done.
    assert (Hcap1 : capacity_ m1 = capacity_ m) by done.
    assert (Hok1 : table_ok m1).
    { apply (table_ok_ext (set_table (<[Z.to_nat q := dead]> (table_ m)) m)); [done|done|].
      apply (table_ok_write m _ slot); [done|done| |].
      - intros _. by apply tombstone_not_empty.
      - intros Hocc'. congruence. }
    assert (Hsize1 : size_ m1 = size_ m - 1) by (apply wrap64_small; lia).
    assert (Htomb1 : tombstone_count_ m1 = tombstone_count_ m + 1)
      by (apply wrap64_small; lia).
    assert (Hcount1 : count occupied (table_ m1) = count occupied (table_ m) - 1
                      ∧ count is_tombstone (table_ m1)
                        = count is_tombstone (table_ m) + 1).
    { rewrite Htable, !(count_insert _ _ _ _ slot) by done.
      rewrite Hdt, Hdo, Hocc, (occupied_not_tombstone slot Hocc). lia. }
    destruct Hcount1 as [Hco1 Hct1].
    destruct (checks_spec m1) as [_ Hcheck]; [done|lia|lia|].
    rewrite Hcheck.
    destruct ((capacity_ m1 <? 4 * tombstone_count_ m1) && (0 <? size_ m1)) eqn:Hcompact.
    + apply andb_true_iff in Hcompact as [Hmany%Z.ltb_lt Hsome%Z.ltb_lt].
      destruct (rehash_ok (capacity_ m1) m1 Hok1) as
        (m2 & -> & Hok2 & Hc2 & Hs2 & Ht2 & Hn2 & Ho2 & Hst2);
        [apply Hok1|apply Hok1|lia|].
      simpl bind. exists true, m2. split; [done|].
      split; [split; [done|lia|lia|lia|lia]|].
      split; [lia|]. split; [by exists v, (Z.to_nat q)|lia].
    + exists true, m1. split; [done|].
      apply andb_false_iff in Hcompact.
      split; [split; [done|lia|lia|lia|]|].
      { destruct Hcompact as [Hfew%Z.ltb_ge|Hnone%Z.ltb_ge]; [left|right]; lia. }
      split; [done|]. split; [by exists v, (Z.to_nat q)|lia].
Qed.

(** [clear] on a map that satisfies the invariant. *)
Lemma clear_ok m :
  invariant m →
  ∃ m', clear m = Returned tt m' ∧ invariant m' ∧ capacity_ m' = capacity_ m
        ∧ size_ m' = 0 ∧ ∀ k v, ¬ stored m' k v.
Proof.
  intros [Hok Hsize Htomb Hfactor Hratio]. pose proof (capacity_pos m Hok) as Hc.
  eexists. split; [reflexivity|]. cbn [table_ size_ capacity_ tombstone_count_].
  set (wipe := λ slot : Slot Key Value, set_hash EMPTY_HASH (destroy_slot slot)).
  assert (Hwiped : ∀ (pos : nat) slot, (wipe <$> table_ m) !! pos = Some slot →
                     is_empty slot = true).
  { intros pos slot Hpos. rewrite list_lookup_fmap in Hpos.
    destruct (table_ m !! pos); by simplify_eq/=. }
  assert (Hnone : ∀ f : Slot Key Value → bool,
            (∀ slot, is_empty slot = true → f slot = false) →
            count f (wipe <$> table_ m) = 0).
  { intros f Hf. rewrite <- (count_nil f). apply eq_trans with (count (λ _, false) (wipe <$> table_ m)).
    - apply count_ext. intros slot [pos Hpos]%list_elem_of_lookup.
      apply Hf. by apply (Hwiped pos).
    - generalize (wipe <$> table_ m). intros t. induction t as [|a t IH]; [done|].
      by rewrite count_cons, IH. }
  split; [split; [split|..]|]; cbn [table_ size_ capacity_ tombstone_count_].
  - apply Hok.
  - apply Hok.
  - rewrite length_fmap. apply Hok.
  - intros pos slot Hpos Hocc. by rewrite (empty_not_occupied slot (Hwiped pos slot Hpos)) in Hocc.
  - intros pos slot j Hpos Hocc. by rewrite (empty_not_occupied slot (Hwiped pos slot Hpos)) in Hocc.
  - intros p1 p2 s1 s2 H1 _ Hocc. by rewrite (empty_not_occupied s1 (Hwiped p1 s1 H1)) in Hocc.
  - symmetry. apply Hnone. apply empty_not_occupied.
  - symmetry. apply Hnone. apply empty_not_tombstone.
  - lia.
  - left. lia.
  - split; [done|]. split; [done|].
    intros k v (pos & slot & Hpos & Hocc & _).
    by rewrite (empty_not_occupied slot (Hwiped pos slot Hpos)) in Hocc.
Qed.

(** A freshly allocated table satisfies the invariant. *)
Lemma fresh_invariant c :
  (∃ p, 0 ≤ p ∧ c = 2 ^ p) → c ≤ max_slots →
  invariant {| table_ := replicate (Z.to_nat c) (new_slot : Slot Key Value);
               size_ := 0; capacity_ := c; tombstone_count_ := 0 |}.
Proof.
  intros Hpow Hmax.
  assert (0 < c) by (destruct Hpow as (p & Hp & ->); by apply pow2_pos).
  split; cbn [table_ size_ capacity_ tombstone_count_].
  - by apply fresh_table_ok.
  - by rewrite fresh_table_counts.
  - by rewrite fresh_table_counts.
  - lia.
  - left. lia.
Qed.

Lemma create_ok m : create = Returned tt m → invariant m.
Proof.
  unfold create. destruct (Z.ltb_spec max_slots INITIAL_CAPACITY); [done|].
  intros [= <-]. apply (fresh_invariant INITIAL_CAPACITY); [|done]. by exists 4.
Qed.

(** The sized constructor builds a map that satisfies the invariant, or,
    when [next_power_of_2] wraps around to 0, a map without a table. *)
Lemma create_sized_ok expected_size m :
  create_sized expected_size = Returned tt m → invariant m ∨ m = moved_from.
Proof.
  unfold create_sized, sized_capacity.
  destruct (size_t_of_double _) as [n|] eqn:Hn; [|done]. simpl.
  assert (Hrange : 0 ≤ n < 2 ^ 64).
  { destruct (double_div _ _) as [s| | |s mant e]; simpl in Hn; simplify_eq; [done|].
    destruct s.
    - destruct (_ =? 0); by simplify_eq.
    - destruct (Z.ltb_spec (if 0 <=? e then Z.pos mant * 2 ^ e else Z.pos mant / 2 ^ (- e))
                           (2 ^ 64)) as [Hlt|]; simplify_eq.
      split; [|done]. destruct (0 <=? e) eqn:He.
      + apply Z.mul_nonneg_nonneg; [lia|]. apply Z.pow_nonneg. lia.
      + apply Z.div_pos; [lia|]. apply Z.pow_pos_nonneg; lia. }
  destruct (Z.ltb_spec max_slots (next_power_of_2 n)) as [|Hfits]; [done|].
  intros [= <-].
  destruct (next_power_of_2_cases n Hrange) as [Hzero|(p & Hp & Hpow)].
  - right. by rewrite Hzero.
  - left. apply (fresh_invariant (next_power_of_2 n)); [|done].
    exists p. split; [lia|done].
Qed.

(** [operator[]] on a map that satisfies the invariant. *)
Lemma index_ok m (key : Key) :
  invariant m →
  index key m = LengthError ∨
  ∃ p m' v, index key m = Returned p m' ∧ invariant m' ∧ deref p m' = Some v
            ∧ stored m' key v.
Proof.
  intros Hinv. pose proof (inv_table m Hinv) as Hok. unfold index.
  destruct (find_slot_sound m key (hash_of key) Hok) as (q & Hq & Hcases).
  rewrite Hq. destruct Hcases as [->|(Hrange & v & Hst)].
  - rewrite Z.eqb_refl. simpl negb. cbv iota.
    destruct (insert_ok m key default_value Hinv) as
      [->|(p & inserted & m' & -> & Hinv' & Hst' & Hp & _)]; [by left|right].
    simpl. by exists p, m', default_value.
  - destruct (Z.eqb_spec q (capacity_ m)); [lia|]. right. simpl negb. cbv iota.
    exists (ptr_to q), m, v. split; [done|]. split; [done|].
    split; [|by exists (Z.to_nat q)].
    destruct Hst as (slot & Hslot & _ & _ & Hval). simpl. by rewrite Hslot.
Qed.
End FlatOperations.

(** ** The inline backend: the maps a program can hold *)

Section FlatReachable.
Context {Key Value : Type} `{!MapParams Key Value}.
Import Flat.
Implicit Types (m : FlatHashMap Key Value) (c : call Key Value).

(** A call on a map that satisfies the invariant returns, unless an
    allocation fails, and leaves a map that satisfies the invariant. *)
Lemma step_ok c m :
  invariant m →
  step c m = LengthError ∨ ∃ o m', step c m = Returned o m' ∧ invariant m'.
Proof.
  intros Hinv. pose proof (inv_table m Hinv) as Hok.
  destruct c as [key value|key| |key|key|key]; unfold step.
  - destruct (insert_ok m key value Hinv) as
      [->|(p & inserted & m' & -> & Hinv' & _ & Hp & _)]; [by left|right].
    simpl. rewrite Hp. by eexists _, _.
  - destruct (erase_ok m key Hinv) as (erased & m' & -> & Hinv' & _). right.
    simpl. by eexists _, _.
  - destruct (clear_ok m Hinv) as (m' & -> & Hinv' & _). right.
    simpl. by eexists _, _.
  - destruct (index_ok m key Hinv) as [->|(p & m' & v & -> & Hinv' & Hp & _)];
      [by left|right].
    simpl. rewrite Hp. by eexists _, _.
  - right. unfold find_value.
    destruct (find_cases m key Hok) as [[-> _]|(pos & v & -> & Hv & _)]; simpl.
    + by eexists _, _.
    + simpl in Hv. rewrite Hv. by eexists _, _.
  - right. destruct (contains_total m key Hok) as [b ->]. by eexists _, _.
Qed.

Lemma step_invariant c m m' :
  invariant m → leaves (step c m) m' → invariant m'.
Proof.
  intros Hinv Hleaves.
  destruct (step_ok c m Hinv) as [Hfail|(o & m1 & Hret & Hinv1)];
    rewrite ?Hfail, ?Hret in Hleaves; destruct Hleaves as [[a Ha]|Ha]; by simplify_eq.
Qed.

Lemma load_exceeds_no_table : load_exceeds 0 0 = true.
Proof. reflexivity. Qed.

(** [insert] on a map without a table throws. *)
Lemma insert_moved_from (key : Key) (value : Value) :
  insert key value moved_from = LengthError ∨
  insert key value moved_from = TableFull moved_from.
Proof.
  unfold insert.
  change (load_exceeds (size_ moved_from) (capacity_ moved_from)) with (load_exceeds 0 0).
  rewrite load_exceeds_no_table. simpl orb. cbv iota.
  unfold rehash. change (wrap64 (capacity_ moved_from * 2)) with 0.
  destruct (max_slots <? 0); [by left|by right].
Qed.

(** A call on a map without a table leaves it without a table. *)
Lemma step_moved_from c m' :
  leaves (step c (moved_from : FlatHashMap Key Value)) m' → m' = moved_from.
Proof.
  destruct c as [key value|key| |key|key|key]; unfold step.
  - destruct (insert_moved_from key value) as [-> | ->];
      intros [[a Ha]|Ha]; by simplify_eq/=.
  - intros [[a Ha]|Ha]; by simplify_eq/=.
  - intros [[a Ha]|Ha]; by simplify_eq/=.
  - unfold index. change (find_slot key (hash_of key) moved_from) with (Some 0).
    simpl negb. cbv iota.
    destruct (insert_moved_from key default_value) as [-> | ->];
      intros [[a Ha]|Ha]; by simplify_eq/=.
  - intros [[a Ha]|Ha]; by simplify_eq/=.
  - intros [[a Ha]|Ha]; by simplify_eq/=.
Qed.

(** Every map a program can hold satisfies the invariant or has no table. *)
Lemma reachable_invariant m : reachable m → invariant m ∨ m = moved_from.
Proof.
  induction 1 as [m Hcreate|expected_size m _ Hcreate|c m m' _ IH Hleaves].
  - left. by apply create_ok.
  - by apply (create_sized_ok expected_size).
  - destruct IH as [Hinv| ->].
    + left. by apply (step_invariant c m).
    + right. by apply (step_moved_from c).
Qed.
End FlatReachable.

(** ** The two backends side by side: lookups *)

Section SimLookup.
Context {Key Value : Type} `{!MapParams Key Value}.
Implicit Types (f : Flat.FlatHashMap Key Value) (n : Node.NodeHashMap Key Value).
Implicit Types (fs : Flat.Slot Key Value) (ns : Node.Slot).
Implicit Types (es : list (Node.Entry Key Value)).

Lemma slot_sim_is_empty es fs ns :
  slot_sim es fs ns → Flat.is_empty fs = Node.is_empty ns.
Proof.
  intros [Hh Hs]. unfold Flat.is_empty, Node.is_empty.
  destruct (Node.entry ns).
  - by rewrite Hs.
  - by rewrite Hs.
  - destruct Hs as (H0 & _). by apply Z.eqb_neq.
Qed.

Lemma slot_sim_is_tombstone es fs ns :
  slot_sim es fs ns → Flat.is_tombstone fs = Node.is_tombstone ns.
Proof.
  intros [Hh Hs]. unfold Flat.is_tombstone, Node.is_tombstone.
  destruct (Node.entry ns).
  - by rewrite Hs.
  - by rewrite Hs.
  - destruct Hs as (_ & H1 & _). by apply Z.eqb_neq.
Qed.

Lemma slot_sim_hash es fs ns : slot_sim es fs ns → Flat.hash fs = Node.hash ns.
Proof. by intros [Hh _]. Qed.

(** Two related slots that are neither empty nor tombstones hold the same
    live key and value. *)
Lemma slot_sim_occupied es fs ns :
  slot_sim es fs ns → Node.is_empty ns = false → Node.is_tombstone ns = false →
  ∃ owner k v, Node.entry ns = Node.entry_at owner
               ∧ es !! owner = Some {| Node.data := (k, v) |}
               ∧ Flat.key_storage fs = Some k ∧ Flat.value_storage fs = Some v
               ∧ Flat.occupied fs = true.
Proof.
  intros Hsim He Ht.
  pose proof (slot_sim_is_empty _ _ _ Hsim) as He'.
  pose proof (slot_sim_is_tombstone _ _ _ Hsim) as Ht'.
  rewrite He in He'. rewrite Ht in Ht'.
  destruct Hsim as [Hh Hs]. unfold Node.is_empty, Node.is_tombstone in He, Ht.
  destruct (Node.entry ns) as [| |owner]; [done|done|].
  destruct Hs as (_ & _ & k & v & Hes & Hk & Hv).
  exists owner, k, v. repeat (split; [done|]).
  unfold Flat.occupied. by rewrite He', Ht'.
Qed.

Lemma slot_sim_mono es es' fs ns :
  (∀ (o : nat) e, es !! o = Some e → es' !! o = Some e) →
  slot_sim es fs ns → slot_sim es' fs ns.
Proof.
  intros Hmono [Hh Hs]. split; [done|].
  destruct (Node.entry ns); [done|done|].
  destruct Hs as (H0 & H1 & k & v & Hes & Hk & Hv).
  repeat (split; [done|]). exists k, v. split; [by apply Hmono|done].
Qed.

(** The slots at the same position of two related maps. *)
Lemma sim_lookup f n (pos : nat) :
  map_sim f n →
  match Flat.table_ f !! pos, Node.table_ n !! pos with
  | Some fs, Some ns => slot_sim (Node.entries_ n) fs ns
  | None, None => True
  | _, _ => False
  end.
Proof.
  intros Hsim. pose proof (sim_table f n Hsim) as Htable.
  destruct (Flat.table_ f !! pos) as [fs|] eqn:Hf.
  - destruct (Forall2_lookup_l _ _ _ _ _ Htable Hf) as (ns & -> & Hs). done.
  - destruct (Node.table_ n !! pos) as [ns|] eqn:Hn; [|done].
    destruct (Forall2_lookup_r _ _ _ _ _ Htable Hn) as (fs & Hfs & _). congruence.
Qed.

Lemma sim_probe f n index i :
  map_sim f n → Flat.probe f index i = Node.probe n index i.
Proof. intros Hsim. unfold Flat.probe, Node.probe. by rewrite (sim_capacity f n Hsim). Qed.

Lemma sim_home f n h : map_sim f n → Flat.home f h = Node.home n h.
Proof. intros Hsim. unfold Flat.home, Node.home. by rewrite (sim_capacity f n Hsim). Qed.

Lemma sim_hash_of (key : Key) : Flat.hash_of key = Node.hash_of key.
Proof. reflexivity. Qed.

Lemma node_entry_key n ns owner (k : Key) (v : Value) :
  Node.entry ns = Node.entry_at owner →
  Node.entries_ n !! owner = Some {| Node.data := (k, v) |} →
  Node.entry_key ns n = Some k.
Proof. intros He Hes. unfold Node.entry_key. by rewrite He, Hes. Qed.

(** [find_slot] finds the same slot in two related maps. *)
Lemma sim_find_slot_loop f n (key : Key) h fuel i index :
  map_sim f n →
  Flat.find_slot_loop fuel i index key h f = Node.find_slot_loop fuel i index key h n.
Proof.
  intros Hsim. revert i. induction fuel as [|fuel IH]; intros i; simpl.
  { by rewrite (sim_capacity f n Hsim). }
  rewrite <- (sim_probe f n) by done.
  pose proof (sim_lookup f n (Z.to_nat (Flat.probe f index i)) Hsim) as Hslots.
  destruct (Flat.table_ f !! _) as [fs|], (Node.table_ n !! _) as [ns|]; try done.
  rewrite (slot_sim_is_empty _ _ _ Hslots), (slot_sim_is_tombstone _ _ _ Hslots),
    (slot_sim_hash _ _ _ Hslots).
  destruct (Node.is_empty ns) eqn:He; [by rewrite (sim_capacity f n Hsim)|].
  destruct (Node.is_tombstone ns) eqn:Ht; [apply IH|].
  destruct (Node.hash ns =? h); [|apply IH].
  destruct (slot_sim_occupied _ _ _ Hslots He Ht) as (owner & k & v & Hentry & Hes & Hk & Hv & _).
  rewrite Hk, (node_entry_key n ns owner k v) by done.
  case_bool_decide; [done|apply IH].
Qed.

Lemma sim_find_slot f n (key : Key) h :
  map_sim f n → Flat.find_slot key h f = Node.find_slot key h n.
Proof.
  intros Hsim. unfold Flat.find_slot, Node.find_slot.
  rewrite (sim_home f n), (sim_capacity f n) by done.
  by apply sim_find_slot_loop.
Qed.

(** A slot found by [find_slot] is a slot of the table that holds an
    entry. *)
Lemma node_find_slot_loop_found n (key : Key) h fuel i index q :
  Node.find_slot_loop fuel i index key h n = Some q → q ≠ Node.capacity_ n →
  ∃ ns, Node.table_ n !! Z.to_nat q = Some ns
        ∧ Node.is_empty ns = false ∧ Node.is_tombstone ns = false.
Proof.
  revert i. induction fuel as [|fuel IH]; intros i; simpl; [congruence|].
  destruct (Node.table_ n !! Z.to_nat (Node.probe n index i)) as [ns|] eqn:Hns; [|done].
  destruct (Node.is_empty ns) eqn:He; [congruence|].
  destruct (Node.is_tombstone ns) eqn:Ht; [apply IH|].
  destruct (Node.hash ns =? h); [|apply IH].
  destruct (Node.entry_key ns n); [|done].
  case_bool_decide; [|apply IH].
  intros [= <-] _. by exists ns.
Qed.

(** [find] returns pointers to equal values, or two null pointers. *)
Lemma sim_find f n (key : Key) :
  map_sim f n →
  match Flat.find key f, Node.find key n with
  | Some nullptr, Some nullptr => True
  | Some (ptr_to pf), Some (ptr_to pn) => ptr_sim (ptr_to pf) f (ptr_to pn) n
  | None, None => True
  | _, _ => False
  end.
Proof.
  intros Hsim. unfold Flat.find, Node.find.
  pose proof (sim_find_slot f n key (Flat.hash_of key) Hsim) as Hslot.
  pose proof (sim_capacity f n Hsim) as Hcap.
  change (Node.hash_of key) with (Flat.hash_of key).
  rewrite <- Hslot, <- Hcap.
  destruct (Flat.find_slot key (Flat.hash_of key) f) as [q|] eqn:Hq; [|done].
  simpl. destruct (Z.eqb_spec q (Flat.capacity_ f)) as [|Hne]; [done|].
  rewrite Hcap in Hne. symmetry in Hslot.
  destruct (node_find_slot_loop_found n key _ _ _ _ q Hslot Hne) as (ns & Hns & He & Ht).
  pose proof (sim_lookup f n (Z.to_nat q) Hsim) as Hslots. rewrite Hns in Hslots.
  destruct (Flat.table_ f !! Z.to_nat q) as [fs|] eqn:Hfs; [|done].
  destruct (slot_sim_occupied _ _ _ Hslots He Ht) as (owner & k & v & Hentry & Hes & Hk & Hv & _).
  rewrite Hns. simpl. rewrite Hentry.
  exists v. simpl. rewrite Hfs, Nat2Z.id, Hes. done.
Qed.

Lemma sim_contains f n (key : Key) :
  map_sim f n → Flat.contains key f = Node.contains key n.
Proof.
  intros Hsim. unfold Flat.contains, Node.contains.
  pose proof (sim_find f n key Hsim) as Hfind.
  destruct (Flat.find key f) as [[|pf]|], (Node.find key n) as [[|pn]|]; done.
Qed.

Lemma sim_find_value f n (key : Key) :
  map_sim f n → Flat.find_value key f = Node.find_value key n.
Proof.
  intros Hsim. unfold Flat.find_value, Node.find_value.
  pose proof (sim_find f n key Hsim) as Hfind.
  destruct (Flat.find key f) as [[|pf]|], (Node.find key n) as [[|pn]|]; try done.
  destruct Hfind as (v & Hvf & Hvn). cbn [mbind option_bind]. by rewrite Hvf, Hvn.
Qed.
End SimLookup.

(** ** The two backends side by side: [rehash] *)

Section SimRehash.
Context {Key Value : Type} `{!MapParams Key Value}.
Implicit Types (f : Flat.FlatHashMap Key Value) (n : Node.NodeHashMap Key Value).
Implicit Types (fs : Flat.Slot Key Value) (ns : Node.Slot).
Implicit Types (es : list (Node.Entry Key Value)).

(** The same write to the two tables. *)
Lemma sim_table_write es es' (tf : list (Flat.Slot Key Value)) tn (pos : nat) fs ns :
  Forall2 (slot_sim es) tf tn →
  (∀ (o : nat) e, es !! o = Some e → es' !! o = Some e) →
  slot_sim es' fs ns →
  Forall2 (slot_sim es') (<[pos := fs]> tf) (<[pos := ns]> tn).
Proof.
  intros Htable Hmono Hnew. apply Forall2_insert; [|done].
  eapply Forall2_impl; [exact Htable|]. intros fs0 ns0. by apply slot_sim_mono.
Qed.

Lemma slot_sim_filled es h (key : Key) (value : Value) owner :
  h ≠ EMPTY_HASH → h ≠ TOMBSTONE_HASH →
  es !! owner = Some {| Node.data := (key, value) |} →
  slot_sim es (Flat.filled h key value)
           {| Node.hash := h; Node.entry := Node.entry_at owner |}.
Proof. intros H0 H1 Hes. split; [done|]. simpl. repeat (split; [done|]). by exists key, value. Qed.

Lemma occupied_hash fs :
  Flat.occupied fs = true →
  Flat.hash fs ≠ EMPTY_HASH ∧ Flat.hash fs ≠ TOMBSTONE_HASH.
Proof.
  unfold Flat.occupied, Flat.is_empty, Flat.is_tombstone.
  destruct (Z.eqb_spec (Flat.hash fs) EMPTY_HASH),
           (Z.eqb_spec (Flat.hash fs) TOMBSTONE_HASH); done.
Qed.

(** [insert_internal] writes the same slot of the two tables. *)
Lemma sim_insert_internal_loop f n fuel i index h (key : Key) (value : Value) owner :
  map_sim f n → h ≠ EMPTY_HASH → h ≠ TOMBSTONE_HASH →
  Node.entries_ n !! owner = Some {| Node.data := (key, value) |} →
  outcome_sim (λ _ _ _ n', Node.entries_ n' = Node.entries_ n)
    (Flat.insert_internal_loop fuel i index h key value f)
    (Node.insert_internal_loop fuel i index h (Node.entry_at owner) n).
Proof.
  intros Hsim H0 H1 Hes. revert i. induction fuel as [|fuel IH]; intros i; simpl; [done|].
  rewrite <- (sim_probe f n) by done.
  pose proof (sim_lookup f n (Z.to_nat (Flat.probe f index i)) Hsim) as Hslots.
  destruct (Flat.table_ f !! _) as [fs|], (Node.table_ n !! _) as [ns|]; try done.
  rewrite (slot_sim_is_empty _ _ _ Hslots), (slot_sim_is_tombstone _ _ _ Hslots).
  destruct (Node.is_empty ns || Node.is_tombstone ns); [|apply IH].
  destruct Hsim as [Hsize Hcap Htomb Hlen Htable].
  split; [|by destruct (Node.is_tombstone ns)].
  destruct (Node.is_tombstone ns); split; simpl; rewrite ?length_insert, ?Htomb; try done;
    (apply (sim_table_write (Node.entries_ n)); [done|done|by apply slot_sim_filled]).
Qed.

Lemma sim_rehash_loop es (old_f : list (Flat.Slot Key Value)) old_n f n :
  Forall2 (slot_sim es) old_f old_n → Node.entries_ n = es → map_sim f n →
  outcome_sim (λ _ _ _ n', Node.entries_ n' = es)
    (Flat.rehash_loop old_f f) (Node.rehash_loop old_n n).
Proof.
  intros Hold. revert f n.
  induction Hold as [|fs ns old_f old_n Hslot Hold IH]; intros f n Hes Hsim.
  { by split. }
  simpl. rewrite (slot_sim_is_empty _ _ _ Hslot), (slot_sim_is_tombstone _ _ _ Hslot).
  destruct (Node.is_empty ns) eqn:He; [by apply IH|].
  destruct (Node.is_tombstone ns) eqn:Ht; [by apply IH|]. simpl.
  destruct (slot_sim_occupied _ _ _ Hslot He Ht) as (owner & k & v & Hentry & Hlook & Hk & Hv & Hocc).
  destruct (occupied_hash fs Hocc) as [H0 H1].
  rewrite Hk, Hv, Hentry, <- (slot_sim_hash _ _ _ Hslot).
  unfold Flat.insert_internal, Node.insert_internal.
  rewrite <- (sim_home f n), <- (sim_capacity f n) by done.
  rewrite <- Hes in Hlook.
  pose proof (sim_insert_internal_loop f n (Z.to_nat (Flat.capacity_ f)) 0
                (Flat.home f (Flat.hash fs)) (Flat.hash fs) k v owner Hsim H0 H1 Hlook)
    as Hstep.
  destruct (Flat.insert_internal_loop _ _ _ _ _ _ _) as [[] f1|f1| |],
           (Node.insert_internal_loop _ _ _ _ _ _) as [[] n1|n1| |]; try done.
  simpl. destruct Hstep as [Hsim1 Hes1].
  apply IH; [congruence|done].
Qed.

Lemma sim_fresh_table es c :
  Forall2 (slot_sim es) (replicate (Z.to_nat c) (Flat.new_slot : Flat.Slot Key Value))
          (replicate (Z.to_nat c) Node.new_slot).
Proof. apply Forall2_replicate. by split. Qed.

Lemma sim_rehash f n new_capacity :
  map_sim f n →
  outcome_sim (λ _ _ _ n', Node.entries_ n' = Node.entries_ n)
    (Flat.rehash new_capacity f) (Node.rehash new_capacity n).
Proof.
  intros Hsim. unfold Flat.rehash, Node.rehash.
  destruct (max_slots <? new_capacity); [done|].
  apply (sim_rehash_loop (Node.entries_ n) (Flat.table_ f) (Node.table_ n));
    [apply Hsim|done|].
  destruct Hsim as [Hsize Hcap Htomb Hlen Htable].
  split; simpl; try done.
  - by rewrite length_replicate.
  - apply sim_fresh_table.
Qed.
End SimRehash.

(** ** The two backends side by side: the public operations *)

Section SimOperations.
Context {Key Value : Type} `{!MapParams Key Value}.
Implicit Types (f : Flat.FlatHashMap Key Value) (n : Node.NodeHashMap Key Value).
Implicit Types (fs : Flat.Slot Key Value) (ns : Node.Slot).
Implicit Types (es : list (Node.Entry Key Value)).

Lemma hash_of_sentinels (key : Key) :
  Flat.hash_of key ≠ EMPTY_HASH ∧ Flat.hash_of key ≠ TOMBSTONE_HASH.
Proof. apply hash_of_not_sentinel. Qed.

(** The new entry written by [insert] in the two backends. *)
Lemma sim_new_entry f n (ip : Z) (key : Key) (value : Value) tcf tcn :
  map_sim f n → (Z.to_nat ip < length (Flat.table_ f))%nat → tcf = tcn →
  let f' := {| Flat.table_ := <[Z.to_nat ip := Flat.filled (Flat.hash_of key) key value]>
                                (Flat.table_ f);
               Flat.size_ := wrap64 (Flat.size_ f + 1);
               Flat.capacity_ := Flat.capacity_ f;
               Flat.tombstone_count_ := tcf |} in
  let n' := {| Node.table_ := <[Z.to_nat ip :=
                                 {| Node.hash := Flat.hash_of key;
                                    Node.entry := Node.entry_at (length (Node.entries_ n)) |}]>
                                (Node.table_ n);
               Node.entries_ := Node.entries_ n ++ [{| Node.data := (key, value) |}];
               Node.size_ := wrap64 (Node.size_ n + 1);
               Node.capacity_ := Node.capacity_ n;
               Node.tombstone_count_ := tcn |} in
  map_sim f' n' ∧
  insert_sim (ptr_to ip, true) f'
             (ptr_to (Z.of_nat (length (Node.entries_ n))), true) n'.
Proof.
  intros [Hsize Hcap Htomb Hlen Htable] Hip <-. cbv zeta.
  destruct (hash_of_sentinels key) as [H0 H1].
  split; [split; simpl|split; simpl].
  - by rewrite Hsize.
  - done.
  - done.
  - by rewrite length_insert.
  - apply (sim_table_write (Node.entries_ n)); [done| |].
    + intros o e Ho. by apply lookup_app_l_Some.
    + apply slot_sim_filled; [done|done|]. by apply list_lookup_middle.
  - done.
  - exists value. simpl. rewrite list_lookup_insert_eq by done. simpl.
    rewrite Nat2Z.id, list_lookup_middle by done. done.
Qed.

(** The probing loop of [insert] does the same in the two backends. *)
Lemma sim_insert_loop f n fuel i first_tombstone index (key : Key) (value : Value) :
  map_sim f n → keys_unique f →
  (first_tombstone = Flat.capacity_ f
   ∨ (Z.to_nat first_tombstone < length (Flat.table_ f))%nat) →
  outcome_sim insert_sim
    (Flat.insert_loop fuel i first_tombstone index (Flat.hash_of key) key value f)
    (Node.insert_loop fuel i first_tombstone index (Flat.hash_of key) key value n).
Proof.
  intros Hsim Hunique. revert i first_tombstone.
  induction fuel as [|fuel IH]; intros i ft Hft; simpl; [done|].
  rewrite <- (sim_probe f n) by done.
  set (pos := Flat.probe f index i).
  pose proof (sim_lookup f n (Z.to_nat pos) Hsim) as Hslots.
  destruct (Flat.table_ f !! Z.to_nat pos) as [fs|] eqn:Hfs,
           (Node.table_ n !! Z.to_nat pos) as [ns|] eqn:Hns; try done.
  assert (Hpos : (Z.to_nat pos < length (Flat.table_ f))%nat) by by eapply lookup_lt_Some.
  rewrite (slot_sim_is_empty _ _ _ Hslots), (slot_sim_is_tombstone _ _ _ Hslots),
    (slot_sim_hash _ _ _ Hslots).
  pose proof Hsim as [Hsize Hcap Htomb Hlen Htable]. rewrite <- Hcap.
  destruct (hash_of_sentinels key) as [H0 H1].
  destruct (Node.is_empty ns) eqn:He.
  - (* a new entry *)
    destruct (Z.eqb_spec ft (Flat.capacity_ f)) as [Heq|Hreuse]; simpl negb; cbv iota.
    + by apply (sim_new_entry f n pos key value).
    + apply (sim_new_entry f n ft key value); [done| |by rewrite Htomb].
      by destruct Hft.
  - destruct (Node.is_tombstone ns && (ft =? Flat.capacity_ f)) eqn:Hfirst.
    { apply IH. by right. }
    destruct (negb (Node.is_tombstone ns) && (Node.hash ns =? Flat.hash_of key)) eqn:Hmatch;
      [|by apply IH].
    apply andb_true_iff in Hmatch as [Ht%negb_true_iff _].
    destruct (slot_sim_occupied _ _ _ Hslots He Ht)
      as (owner & k & v & Hentry & Hlook & Hk & Hv & Hocc).
    rewrite Hk, Hentry, Hlook. simpl.
    case_bool_decide as Hkey; [|by apply IH].
    rewrite Hv. subst k.
    assert (Howner : (owner < length (Node.entries_ n))%nat) by by eapply lookup_lt_Some.
    split; [split|split]; simpl; try done.
    + by rewrite length_insert.
    + apply Forall2_same_length_lookup_2.
      { rewrite length_insert. by eapply Forall2_length. }
      intros p fs2 ns2 Hfs2 Hns2.
      apply list_lookup_insert_Some in Hfs2 as [(<- & <- & _)|[Hne Hfs2]].
      * assert (ns2 = ns) by congruence. subst ns2.
        split; [apply Hslots|]. rewrite Hentry.
        destruct (occupied_hash fs Hocc) as [Hh0 Hh1].
        repeat (split; [done|]). exists key, value.
        by rewrite list_lookup_insert_eq.
      * pose proof (sim_lookup f n p Hsim) as Hp. rewrite Hfs2, Hns2 in Hp.
        destruct Hp as [Hh Hp]. split; [done|].
        destruct (Node.entry ns2) as [| |o2] eqn:Hentry2; [done|done|].
        destruct Hp as (Hh0 & Hh1 & k2 & v2 & Hlook2 & Hk2 & Hv2).
        repeat (split; [done|]). exists k2, v2. split; [|done].
        rewrite list_lookup_insert_ne; [done|].
        intros <-. apply Hne. symmetry.
        apply (Hunique p (Z.to_nat pos) fs2 fs); try done.
        -- unfold Flat.occupied, Flat.is_empty, Flat.is_tombstone.
           destruct (Z.eqb_spec (Flat.hash fs2) EMPTY_HASH),
                    (Z.eqb_spec (Flat.hash fs2) TOMBSTONE_HASH); done.
        -- assert (k2 = key) by congruence. congruence.
    + exists value. simpl. rewrite list_lookup_insert_eq by done. simpl.
      rewrite Nat2Z.id, list_lookup_insert_eq by done. done.
Qed.

Lemma keys_unique_invariant f : Flat.invariant f ∨ f = Flat.moved_from → keys_unique f.
Proof.
  intros [Hinv| ->].
  - exact (Flat.ok_nodup f (Flat.inv_table f Hinv)).
  - intros p1 p2 s1 s2 H1. done.
Qed.

(** The table built by [rehash] when [insert] grows the table holds no
    key twice. *)
Lemma rehash_keys_unique f f1 :
  Flat.invariant f ∨ f = Flat.moved_from →
  Flat.rehash (wrap64 (Flat.capacity_ f * 2)) f = Returned tt f1 →
  keys_unique f1.
Proof.
  intros [Hinv| ->].
  - pose proof (Flat.inv_table f Hinv) as Hok.
    pose proof (capacity_pos f Hok) as Hc.
    pose proof (counters_range f Hok) as Hcounts.
    rewrite wrap64_small by lia.
    destruct (Z_lt_le_dec max_slots (Flat.capacity_ f * 2)) as [Hbig|Hfits].
    { by rewrite rehash_too_large. }
    destruct (rehash_ok (Flat.capacity_ f * 2) f Hok) as (m' & -> & Hok' & _);
      [|done|lia|].
    { destruct (double_capacity_pow2 f Hok) as (p & Hp & Hpow).
      exists p. split; [done|lia]. }
    intros [= <-]. exact (Flat.ok_nodup m' Hok').
  - unfold Flat.rehash. destruct (max_slots <? _); [done|]. simpl.
    intros [= <-]. intros p1 p2 s1 s2 H1. done.
Qed.

Lemma sim_insert f n (key : Key) (value : Value) :
  related f n →
  outcome_sim insert_sim (Flat.insert key value f) (Node.insert key value n).
Proof.
  intros [Hinv Hsim]. unfold Flat.insert, Node.insert.
  pose proof Hsim as [Hsize Hcap Htomb Hlen Htable].
  rewrite <- Hsize, <- Hcap, <- Htomb.
  change (Node.hash_of key) with (Flat.hash_of key).
  destruct (load_exceeds _ _ || tombstones_exceed _ _).
  - pose proof (sim_rehash f n (wrap64 (Flat.capacity_ f * 2)) Hsim) as Hrehash.
    pose proof (λ f1, rehash_keys_unique f f1 Hinv) as Hunique.
    destruct (Flat.rehash _ f) as [[] f1|f1| |],
             (Node.rehash _ n) as [[] n1|n1| |]; try done.
    destruct Hrehash as [Hsim1 _]. simpl.
    rewrite <- (sim_home f1 n1), <- (sim_capacity f1 n1) by done.
    apply sim_insert_loop; [done|by apply Hunique|by left].
  - simpl. rewrite <- (sim_home f n), <- Hcap by done.
    apply sim_insert_loop; [done|by apply keys_unique_invariant|by left].
Qed.

Lemma sim_erase f n (key : Key) :
  map_sim f n →
  outcome_sim same_result (Flat.erase key f) (Node.erase key n).
Proof.
  intros Hsim. unfold Flat.erase, Node.erase.
  pose proof Hsim as [Hsize Hcap Htomb Hlen Htable].
  change (Node.hash_of key) with (Flat.hash_of key).
  rewrite <- (sim_find_slot f n), <- Hcap by done.
  destruct (Flat.find_slot key (Flat.hash_of key) f) as [q|] eqn:Hq; [|done].
  destruct (Z.eqb_spec q (Flat.capacity_ f)) as [|Hne]; [done|].
  rewrite (sim_find_slot f n) in Hq by done.
  destruct (node_find_slot_loop_found n key _ _ _ _ q Hq) as (ns & Hns & He & Ht);
    [congruence|].
  pose proof (sim_lookup f n (Z.to_nat q) Hsim) as Hslots. rewrite Hns in Hslots.
  destruct (Flat.table_ f !! Z.to_nat q) as [fs|] eqn:Hfs; [|done].
  cbv zeta.
  set (f1 := Flat.set_size _ _). set (n1 := Node.set_size _ _).
  assert (Hsim1 : map_sim f1 n1).
  { split; simpl.
    - by rewrite Hsize.
    - done.
    - by rewrite Htomb.
    - by rewrite length_insert.
    - apply (sim_table_write (Node.entries_ n)); [done|done|]. by split. }
  change (Flat.tombstone_count_ f1) with (wrap64 (Flat.tombstone_count_ f + 1)).
  change (Node.tombstone_count_ n1) with (wrap64 (Node.tombstone_count_ n + 1)).
  change (Flat.size_ f1) with (wrap64 (Flat.size_ f - 1)).
  change (Node.size_ n1) with (wrap64 (Node.size_ n - 1)).
  change (Flat.capacity_ f1) with (Flat.capacity_ f).
  change (Node.capacity_ n1) with (Node.capacity_ n).
  rewrite <- Hsize, <- Hcap, <- Htomb.
  destruct (tombstones_exceed _ _ && _); [|by split].
  pose proof (sim_rehash f1 n1 (Flat.capacity_ f) Hsim1) as Hrehash.
  destruct (Flat.rehash _ f1) as [[] f2|f2| |],
           (Node.rehash _ n1) as [[] n2|n2| |]; try done.
  destruct Hrehash as [Hsim2 _]. by split.
Qed.

Lemma sim_clear f n :
  map_sim f n → outcome_sim same_result (Flat.clear f) (Node.clear n).
Proof.
  intros [Hsize Hcap Htomb Hlen Htable]. split; [|done]. split; simpl; try done.
  - by rewrite length_fmap.
  - rewrite <- Hcap. apply Forall2_same_length_lookup_2.
    { by rewrite length_fmap, length_replicate. }
    intros p fs ns Hfs [-> _]%lookup_replicate.
    rewrite list_lookup_fmap in Hfs. destruct (Flat.table_ f !! p); by simplify_eq/=.
Qed.

Lemma sim_index f n (key : Key) :
  related f n →
  outcome_sim ptr_sim (Flat.index key f) (Node.index key n).
Proof.
  intros Hrel. pose proof Hrel as [Hinv Hsim]. unfold Flat.index, Node.index.
  pose proof Hsim as [Hsize Hcap Htomb Hlen Htable].
  change (Node.hash_of key) with (Flat.hash_of key).
  rewrite <- (sim_find_slot f n), <- Hcap by done.
  destruct (Flat.find_slot key (Flat.hash_of key) f) as [q|] eqn:Hq; [|done].
  destruct (Z.eqb_spec q (Flat.capacity_ f)) as [|Hne]; simpl negb; cbv iota.
  - pose proof (sim_insert f n key default_value Hrel) as Hinsert.
    destruct (Flat.insert _ _ f) as [[pf bf] f1|f1| |],
             (Node.insert _ _ n) as [[pn bn] n1|n1| |]; try done.
    simpl. destruct Hinsert as [Hsim1 [_ Hptr]]. by split.
  - rewrite (sim_find_slot f n) in Hq by done.
    destruct (node_find_slot_loop_found n key _ _ _ _ q Hq) as (ns & Hns & He & Ht);
      [congruence|].
    pose proof (sim_lookup f n (Z.to_nat q) Hsim) as Hslots. rewrite Hns in Hslots.
    destruct (Flat.table_ f !! Z.to_nat q) as [fs|] eqn:Hfs; [|done].
    destruct (slot_sim_occupied _ _ _ Hslots He Ht)
      as (owner & k & v & Hentry & Hlook & Hk & Hv & Hocc).
    rewrite Hns. destruct ns as [hn en]. simpl in Hentry. subst en.
    split; [done|]. exists v. simpl. by rewrite Hfs, Nat2Z.id, Hlook.
Qed.

Lemma sim_create :
  outcome_sim same_result (Flat.create : outcome (Flat.FlatHashMap Key Value) unit)
              Node.create.
Proof.
  unfold Flat.create, Node.create. destruct (max_slots <? INITIAL_CAPACITY); [done|].
  split; [|done]. split; simpl; try done. repeat constructor.
Qed.

Lemma sim_create_sized expected_size :
  outcome_sim same_result
    (Flat.create_sized expected_size : outcome (Flat.FlatHashMap Key Value) unit)
    (Node.create_sized expected_size).
Proof.
  unfold Flat.create_sized, Node.create_sized.
  destruct (sized_capacity expected_size) as [c|]; [|done].
  destruct (max_slots <? c); [done|].
  split; [|done]. split; simpl; try done.
  - by rewrite length_replicate.
  - apply sim_fresh_table.
Qed.

(** A call ends the same way in the two backends and lets the caller
    observe the same. *)
Lemma sim_step f n (c : call Key Value) :
  related f n → outcome_sim same_result (Flat.step c f) (Node.step c n).
Proof.
  intros Hrel. pose proof Hrel as [Hinv Hsim].
  destruct c as [key value|key| |key|key|key]; unfold Flat.step, Node.step.
  - pose proof (sim_insert f n key value Hrel) as Hinsert.
    destruct (Flat.insert _ _ f) as [[pf bf] f1|f1| |],
             (Node.insert _ _ n) as [[pn bn] n1|n1| |]; try done.
    simpl. destruct Hinsert as [Hsim1 [Hb (v & Hvf & Hvn)]]. simpl in Hb, Hvf, Hvn.
    rewrite Hvf, Hvn. by subst.
  - pose proof (sim_erase f n key Hsim) as Herase.
    destruct (Flat.erase _ f) as [bf f1|f1| |],
             (Node.erase _ n) as [bn n1|n1| |]; try done.
    simpl. destruct Herase as [Hsim1 Hb]. unfold same_result in *. by subst.
  - pose proof (sim_clear f n Hsim) as Hclear.
    destruct (Flat.clear f) as [[] f1|f1| |],
             (Node.clear n) as [[] n1|n1| |]; try done.
    simpl. by destruct Hclear as [Hsim1 _].
  - pose proof (sim_index f n key Hrel) as Hindex.
    destruct (Flat.index _ f) as [pf f1|f1| |],
             (Node.index _ n) as [pn n1|n1| |]; try done.
    simpl. by destruct Hindex as [Hsim1 (v & -> & ->)].
  - rewrite (sim_find_value f n) by done.
    by destruct (Node.find_value key n).
  - rewrite (sim_contains f n) by done.
    by destruct (Node.contains key n).
Qed.

(** The maps left by a call in the two backends are related again. *)
Lemma related_step f n (c : call Key Value) f' :
  related f n → leaves (Flat.step c f) f' →
  ∃ n', leaves (Node.step c n) n' ∧ related f' n'.
Proof.
  intros Hrel Hleaves. pose proof (sim_step f n c Hrel) as Hstep.
  assert (Hinv' : Flat.invariant f' ∨ f' = Flat.moved_from).
  { destruct Hrel as [[Hinv| ->] _].
    - left. by apply (step_invariant c f).
    - right. by apply (step_moved_from c). }
  destruct Hleaves as [[o Ho]|Ho]; rewrite Ho in Hstep.
  - destruct (Node.step c n) as [o' n'| | |]; try done.
    destruct Hstep as [Hsim' _]. exists n'. split; [left; by exists o'|done].
  - destruct (Node.step c n) as [|n'| |]; try done.
    exists n'. split; [by right|done].
Qed.

Lemma related_step_back f n (c : call Key Value) n' :
  related f n → leaves (Node.step c n) n' →
  ∃ f', leaves (Flat.step c f) f' ∧ related f' n'.
Proof.
  intros Hrel Hleaves. pose proof (sim_step f n c Hrel) as Hstep.
  assert (Hf : ∃ f', leaves (Flat.step c f) f' ∧ map_sim f' n').
  { destruct Hleaves as [[o Ho]|Ho]; rewrite Ho in Hstep.
    - destruct (Flat.step c f) as [o' f'| | |]; try done.
      destruct Hstep as [Hsim' _]. exists f'. split; [left; by exists o'|done].
    - destruct (Flat.step c f) as [|f'| |]; try done.
      exists f'. split; [by right|done]. }
  destruct Hf as (f' & Hf' & Hsim'). exists f'. split; [done|]. split; [|done].
  destruct Hrel as [[Hinv| ->] _].
  - left. by apply (step_invariant c f).
  - right. by apply (step_moved_from c).
Qed.

(** Every map the indirect backend can hold is related to a map the
    inline backend can hold. *)
Lemma node_reachable_related n :
  Node.reachable n → ∃ f, Flat.reachable f ∧ related f n.
Proof.
  induction 1 as [n Hcreate|expected_size n Hrange Hcreate|c n n' _ IH Hleaves].
  - pose proof sim_create as Hsim. rewrite Hcreate in Hsim.
    destruct Flat.create as [[] f| | |] eqn:Hf; try done.
    exists f. split; [by apply Flat.reachable_create|].
    split; [left; by apply create_ok|by destruct Hsim].
  - pose proof (sim_create_sized expected_size) as Hsim. rewrite Hcreate in Hsim.
    destruct (Flat.create_sized expected_size) as [[] f| | |] eqn:Hf; try done.
    exists f. split; [by apply (Flat.reachable_create_sized expected_size)|].
    split; [by apply (create_sized_ok expected_size)|by destruct Hsim].
  - destruct IH as (f & Hreach & Hrel).
    destruct (related_step_back f n c n' Hrel Hleaves) as (f' & Hf' & Hrel').
    exists f'. split; [by apply (Flat.reachable_step c f)|done].
Qed.

(** Two runs of the same calls end the same way and let the caller observe
    the same. *)
Lemma sim_run (cs : list (call Key Value)) f n :
  related f n →
  outcome_sim (λ os f' os' n', os = os' ∧ related f' n') (Flat.run cs f) (Node.run cs n).
Proof.
  revert f n. induction cs as [|c cs IH]; intros f n Hrel; simpl.
  { split; [apply Hrel|done]. }
  pose proof (sim_step f n c Hrel) as Hstep.
  destruct (Flat.step c f) as [o f1|f1| |] eqn:Hf,
           (Node.step c n) as [o' n1|n1| |] eqn:Hn; try done.
  - destruct Hstep as [Hsim1 Ho]. unfold same_result in Ho. subst o'.
    destruct (related_step f n c f1 Hrel) as (n1' & Hn1 & Hrel1).
    { left. by exists o. }
    assert (n1' = n1).
    { rewrite Hn in Hn1. destruct Hn1 as [[a Ha]|Ha]; by simplify_eq. }
    subst n1'. specialize (IH f1 n1 Hrel1).
    destruct (Flat.run cs f1) as [os f2|f2| |], (Node.run cs n1) as [os' n2|n2| |];
      try done.
    simpl. destruct IH as [Hsim2 [-> Hrel2]]. done.
  - destruct (related_step f n c f1 Hrel) as (n1' & Hn1 & Hrel1).
    { by right. }
    assert (n1' = n1).
    { rewrite Hn in Hn1. destruct Hn1 as [[a Ha]|Ha]; by simplify_eq. }
    subst n1'. specialize (IH f1 n1 Hrel1).
    destruct (Flat.run cs f1) as [os f2|f2| |], (Node.run cs n1) as [os' n2|n2| |];
      try done.
    simpl. destruct IH as [Hsim2 [-> Hrel2]]. done.
Qed.
End SimOperations.

(** ** What holds of every map a program can hold *)

Section ReachableFacts.
Context {Key Value : Type} `{!MapParams Key Value}.
Implicit Types (f : Flat.FlatHashMap Key Value) (n : Node.NodeHashMap Key Value).

Lemma flat_run_reachable (cs : list (call Key Value)) f os f' :
  Flat.reachable f → Flat.run cs f = Returned os f' → Flat.reachable f'.
Proof.
  revert f os. induction cs as [|c cs IH]; intros f os Hreach; simpl.
  { by intros [= _ <-]. }
  destruct (Flat.step c f) as [o f1|f1| |] eqn:Hstep; try done.
  - destruct (Flat.run cs f1) as [os1 f2|f2| |] eqn:Hrun; try done.
    simpl. intros [= _ <-]. apply (IH f1 os1); [|done].
    apply (Flat.reachable_step c f); [done|]. left. by exists o.
  - destruct (Flat.run cs f1) as [os1 f2|f2| |] eqn:Hrun; try done.
    simpl. intros [= _ <-]. apply (IH f1 os1); [|done].
    apply (Flat.reachable_step c f); [done|]. by right.
Qed.

Lemma node_run_reachable (cs : list (call Key Value)) n os n' :
  Node.reachable n → Node.run cs n = Returned os n' → Node.reachable n'.
Proof.
  revert n os. induction cs as [|c cs IH]; intros n os Hreach; simpl.
  { by intros [= _ <-]. }
  destruct (Node.step c n) as [o n1|n1| |] eqn:Hstep; try done.
  - destruct (Node.run cs n1) as [os1 n2|n2| |] eqn:Hrun; try done.
    simpl. intros [= _ <-]. apply (IH n1 os1); [|done].
    apply (Node.reachable_step c n); [done|]. left. by exists o.
  - destruct (Node.run cs n1) as [os1 n2|n2| |] eqn:Hrun; try done.
    simpl. intros [= _ <-]. apply (IH n1 os1); [|done].
    apply (Node.reachable_step c n); [done|]. by right.
Qed.

(** A run catches "Hash table is full". *)
Lemma flat_run_catches (cs : list (call Key Value)) f f' :
  Flat.run cs f ≠ TableFull f'.
Proof.
  revert f. induction cs as [|c cs IH]; intros f; simpl; [done|].
  destruct (Flat.step c f) as [o f1|f1| |]; try done.
  - specialize (IH f1). by destruct (Flat.run cs f1).
  - specialize (IH f1). by destruct (Flat.run cs f1).
Qed.

Lemma contains_moved_from (key : Key) :
  Flat.contains key (Flat.moved_from : Flat.FlatHashMap Key Value) = Some false.
Proof. reflexivity. Qed.

(** [size()] is the number of keys [contains] accepts. *)
Lemma flat_size_counts f :
  Flat.reachable f →
  ∃ ks : list Key,
    NoDup ks ∧ (∀ k, k ∈ ks ↔ Flat.contains k f = Some true)
    ∧ Z.of_nat (length ks) = Flat.size f.
Proof.
  intros [Hinv| ->]%reachable_invariant.
  - pose proof (Flat.inv_table f Hinv) as Hok. exists (Flat.keys f).
    split; [apply keys_of_NoDup, Hok|]. split.
    + intros k. rewrite (contains_stored f k Hok). unfold Flat.keys.
      rewrite elem_of_keys_of. split.
      * intros (pos & slot & Hpos & Hocc & Hk).
        destruct (Flat.ok_slot f Hok pos slot Hpos Hocc) as (k' & v & _ & Hv & _).
        exists v, pos, slot. done.
      * intros (v & pos & slot & Hpos & Hocc & Hk & _). by exists pos, slot.
    + unfold Flat.keys, Flat.size. rewrite keys_of_length by by apply table_slots_ok.
      symmetry. apply Hinv.
  - exists []. split; [constructor|]. split; [|done].
    intros k. rewrite contains_moved_from. split; [by intros ?%elem_of_nil|done].
Qed.

Lemma node_size_counts n :
  Node.reachable n →
  ∃ ks : list Key,
    NoDup ks ∧ (∀ k, k ∈ ks ↔ Node.contains k n = Some true)
    ∧ Z.of_nat (length ks) = Node.size n.
Proof.
  intros (f & Hreach & Hinv & Hsim)%node_reachable_related.
  destruct (flat_size_counts f Hreach) as (ks & Hnodup & Hin & Hlen).
  exists ks. split; [done|]. split.
  - intros k. by rewrite <- (sim_contains f n).
  - rewrite Hlen. apply Hsim.
Qed.

(** [insert] on a map a program can hold: when it returns, the pair is
    stored in a map that satisfies the invariant, with at most a quarter of
    the slots tombstones and at most three quarters occupied; it throws
    only on a map without a table. *)
Lemma flat_insert_reachable f (key : Key) (value : Value) :
  Flat.reachable f →
  match Flat.insert key value f with
  | Returned (p, inserted) f' =>
      Flat.invariant f ∧ Flat.invariant f'
      ∧ Flat.stored f' key value ∧ Flat.deref p f' = Some value
      ∧ 4 * Flat.tombstone_count_ f' ≤ Flat.capacity_ f'
      ∧ 4 * Flat.size_ f' ≤ 3 * Flat.capacity_ f'
      ∧ 0 < Flat.capacity_ f'
      ∧ (if inserted
         then (∀ v, ¬ Flat.stored f key v) ∧ Flat.size_ f' = Flat.size_ f + 1
         else (∃ v, Flat.stored f key v) ∧ Flat.size_ f' = Flat.size_ f)
  | TableFull f' => f = Flat.moved_from ∧ f' = Flat.moved_from
  | LengthError => True
  | Undefined => False
  end.
Proof.
  intros [Hinv| ->]%reachable_invariant.
  - destruct (insert_ok f key value Hinv) as
      [->|(p & inserted & f' & -> & Hinv' & Hst & Hp & Ht & Hl & _ & Hcase)]; [done|].
    pose proof (capacity_pos f' (Flat.inv_table f' Hinv')). repeat (split; [done|]).
    split; [lia|done].
  - by destruct (insert_moved_from key value) as [-> | ->].
Qed.

Lemma flat_erase_reachable f (key : Key) :
  Flat.reachable f →
  ∃ erased f',
    Flat.erase key f = Returned erased f'
    ∧ (4 * Flat.tombstone_count_ f' ≤ Flat.capacity_ f' ∨ Flat.size_ f' = 0).
Proof.
  intros [Hinv| ->]%reachable_invariant.
  - destruct (erase_ok f key Hinv) as (erased & f' & -> & Hinv' & _).
    exists erased, f'. split; [done|]. apply Hinv'.
  - exists false, Flat.moved_from. split; [done|]. by right.
Qed.
End ReachableFacts.

(** * The properties of the specification *)

(** ** The maps of the examples *)

Lemma flat_fresh_8_reachable : Flat.reachable (flat_fresh 8).
Proof. by apply (Flat.reachable_create_sized 6). Qed.

Lemma node_fresh_8_reachable : Node.reachable (node_fresh 8).
Proof. by apply (Node.reachable_create_sized 6). Qed.

Lemma flat_fresh_16_reachable : Flat.reachable (flat_fresh 16).
Proof. by apply Flat.reachable_create. Qed.

Lemma node_fresh_16_reachable : Node.reachable (node_fresh 16).
Proof. by apply Node.reachable_create. Qed.

Lemma flat_fresh_1_reachable : Flat.reachable (flat_fresh 1).
Proof. by apply (Flat.reachable_create_sized 0). Qed.

Lemma node_fresh_1_reachable : Node.reachable (node_fresh 1).
Proof. by apply (Node.reachable_create_sized 0). Qed.

Lemma flat_probe_chain_reachable : Flat.reachable flat_probe_chain.
Proof.
eapply (flat_run_reachable probe_chain); [apply flat_fresh_8_reachable|].
vm_compute. reflexivity.
Qed.

Lemma node_probe_chain_reachable : Node.reachable node_probe_chain.
Proof.
eapply (node_run_reachable probe_chain); [apply node_fresh_8_reachable|].
vm_compute. reflexivity.
Qed.

Lemma flat_twelve_reachable : Flat.reachable flat_twelve.
Proof.
eapply (flat_run_reachable twelve_keys); [apply flat_fresh_16_reachable|].
vm_compute. reflexivity.
Qed.

Lemma node_twelve_reachable : Node.reachable node_twelve.
Proof.
eapply (node_run_reachable twelve_keys); [apply node_fresh_16_reachable|].
vm_compute. reflexivity.
Qed.

Lemma flat_erased_reachable : Flat.reachable flat_erased.
Proof.
eapply (flat_run_reachable [call_insert 5 50; call_erase 5]);
  [apply flat_fresh_1_reachable|].
vm_compute. reflexivity.
Qed.

Lemma node_erased_reachable : Node.reachable node_erased.
Proof.
eapply (node_run_reachable [call_insert 5 50; call_erase 5]);
  [apply node_fresh_1_reachable|].
vm_compute. reflexivity.
Qed.

Lemma flat_single_reachable : Flat.reachable flat_single.
Proof.
eapply (flat_run_reachable [call_insert 5 50]); [apply flat_fresh_1_reachable|].
vm_compute. reflexivity.
Qed.

Lemma node_single_reachable : Node.reachable node_single.
Proof.
eapply (node_run_reachable [call_insert 5 50]); [apply node_fresh_1_reachable|].
vm_compute. reflexivity.
Qed.

Section Claims.
Context {Key Value : Type} `{!MapParams Key Value}.
Implicit Types (f : Flat.FlatHashMap Key Value) (n : Node.NodeHashMap Key Value).

(** C1. In both backends, on every map reached from a fresh map by calls
    of the public interface, [size()] is the number of distinct keys for
    which [contains] is true: the keys accepted by [contains] are the
    members of a duplicate-free list of [size()] keys. *)
Theorem size_counts_contained_keys f n :
  Flat.reachable f → Node.reachable n →
  (∃ ks : list Key,
     NoDup ks ∧ (∀ k, k ∈ ks ↔ Flat.contains k f = Some true)
     ∧ Z.of_nat (length ks) = Flat.size f) ∧
  (∃ ks : list Key,
     NoDup ks ∧ (∀ k, k ∈ ks ↔ Node.contains k n = Some true)
     ∧ Z.of_nat (length ks) = Node.size n).
Proof.
  intros Hf Hn. split; [by apply flat_size_counts|by apply node_size_counts].
Qed.

(** C2. Driven from fresh construction (default or sized) by the same
    sequence of [insert], [erase], [clear], [operator[]], [find] and
    [contains] calls, the two backends end the same way; when the runs
    return, every call has let the caller observe the same result (the
    [inserted] flags, the values behind the returned pointers, the results
    of [erase], [find] and [contains]), and the two maps agree on [size()],
    on [contains(k)] and on [find(k)] for every key. *)
Theorem backends_agree (cs : list (call Key Value)) :
  let agree (o1 : outcome (Flat.FlatHashMap Key Value) (list (observation Value)))
            (o2 : outcome (Node.NodeHashMap Key Value) (list (observation Value))) :=
    match o1, o2 with
    | Returned os f, Returned os' n =>
        os = os' ∧ Flat.size f = Node.size n
        ∧ ∀ k, Flat.contains k f = Node.contains k n
               ∧ Flat.find_value k f = Node.find_value k n
    | LengthError, LengthError => True
    | Undefined, Undefined => True
    | _, _ => False
    end in
  agree (after Flat.create as _u on f then Flat.run cs f)
        (after Node.create as _u on n then Node.run cs n)
  ∧ ∀ expected_size,
      agree (after Flat.create_sized expected_size as _u on f then Flat.run cs f)
            (after Node.create_sized expected_size as _u on n then Node.run cs n).
Proof.
  intros agree.
  assert (Hrun : ∀ f n, related f n → agree (Flat.run cs f) (Node.run cs n)).
  { intros f n Hrel. pose proof (sim_run cs f n Hrel) as Hsim. unfold agree.
    destruct (Flat.run cs f) as [os f'|f'| |] eqn:Hf,
             (Node.run cs n) as [os' n'|n'| |] eqn:Hn; try done;
      [|by destruct (flat_run_catches cs f f')].
    destruct Hsim as [Hsim' [-> _]]. split; [done|].
    split; [apply Hsim'|]. intros k.
    by rewrite (sim_contains f' n'), (sim_find_value f' n'). }
  split; [|intros expected_size].
  - pose proof sim_create as Hsim.
    destruct Flat.create as [[] f|f| |] eqn:Hf, Node.create as [[] n|n| |]; try done.
    + simpl. apply Hrun. split; [left; by apply create_ok|by destruct Hsim].
    + unfold Flat.create in Hf. by destruct (max_slots <? INITIAL_CAPACITY).
  - pose proof (sim_create_sized expected_size) as Hsim.
    destruct (Flat.create_sized expected_size) as [[] f|f| |] eqn:Hf,
             (Node.create_sized expected_size) as [[] n|n| |]; try done.
    + simpl. apply Hrun.
      split; [by apply (create_sized_ok expected_size)|by destruct Hsim].
    + unfold Flat.create_sized in Hf.
      destruct (sized_capacity expected_size) as [c|]; [|done].
      by destruct (max_slots <? c).
Qed.

(** C3, as amended. In both backends, on every map reached from a fresh
    map: when [insert] returns, the table has slots and at most a quarter
    of them are tombstones; when [erase] returns, at most a quarter of the
    slots are tombstones or the map is empty ([size()] is 0). *)
Theorem tombstone_ratio_after_insert_and_erase f n (key : Key) (value : Value) :
  Flat.reachable f → Node.reachable n →
  (∀ r f', Flat.insert key value f = Returned r f' →
     0 < Flat.capacity f' ∧ 4 * Flat.tombstone_count_ f' ≤ Flat.capacity f') ∧
  (∀ erased f', Flat.erase key f = Returned erased f' →
     4 * Flat.tombstone_count_ f' ≤ Flat.capacity f' ∨ Flat.size f' = 0) ∧
  (∀ r n', Node.insert key value n = Returned r n' →
     0 < Node.capacity n' ∧ 4 * Node.tombstone_count_ n' ≤ Node.capacity n') ∧
  (∀ erased n', Node.erase key n = Returned erased n' →
     4 * Node.tombstone_count_ n' ≤ Node.capacity n' ∨ Node.size n' = 0).
Proof.
  intros Hf (f0 & Hf0 & Hrel)%node_reachable_related.
  assert (Hins : ∀ f, Flat.reachable f → ∀ r f',
            Flat.insert key value f = Returned r f' →
            0 < Flat.capacity f' ∧ 4 * Flat.tombstone_count_ f' ≤ Flat.capacity f').
  { intros f1 Hf1 [p b] f' Hret. pose proof (flat_insert_reachable f1 key value Hf1) as H.
    rewrite Hret in H. unfold Flat.capacity. by destruct H as (_ & _ & _ & _ & ? & _ & ? & _). }
  assert (Hera : ∀ f, Flat.reachable f → ∀ erased f',
            Flat.erase key f = Returned erased f' →
            4 * Flat.tombstone_count_ f' ≤ Flat.capacity f' ∨ Flat.size f' = 0).
  { intros f1 Hf1 erased f' Hret.
    destruct (flat_erase_reachable f1 key Hf1) as (e & f2 & He & Hratio).
    rewrite Hret in He. by simplify_eq. }
  split; [by apply Hins|]. split; [by apply Hera|]. split.
  - intros r n' Hret. pose proof (sim_insert f0 n key value Hrel) as Hsim.
    rewrite Hret in Hsim. destruct (Flat.insert key value f0) as [rf f'| | |] eqn:Hf'; try done.
    destruct Hsim as [Hsim _]. destruct (Hins f0 Hf0 rf f' Hf') as [Hc Ht].
    unfold Flat.capacity, Node.capacity in *.
    by rewrite <- (sim_capacity f' n'), <- (sim_tombstones f' n').
  - intros erased n' Hret. pose proof (sim_erase f0 n key (proj2 Hrel)) as Hsim.
    rewrite Hret in Hsim. destruct (Flat.erase key f0) as [ef f'| | |] eqn:Hf'; try done.
    destruct Hsim as [Hsim _]. pose proof (Hera f0 Hf0 ef f' Hf') as Hratio.
    unfold Flat.capacity, Node.capacity, Flat.size, Node.size in *.
    by rewrite <- (sim_capacity f' n'), <- (sim_tombstones f' n'), <- (sim_size f' n').
Qed.



(** C6. In both backends, [erase(k)] for a key that [contains] rejects
    returns [false] and leaves the map as it was: the same table, [size()],
    [capacity()] and tombstone count, hence the same answers of [contains]
    and [find] for every key. *)
Theorem erase_absent_key f n (key : Key) :
  (Flat.contains key f = Some false → Flat.erase key f = Returned false f) ∧
  (Node.contains key n = Some false → Node.erase key n = Returned false n).
Proof.
  split.
  - unfold Flat.contains, Flat.find, Flat.erase.
    destruct (Flat.find_slot key (Flat.hash_of key) f) as [q|]; [|done].
    simpl. by destruct (q =? Flat.capacity_ f).
  - unfold Node.contains, Node.find, Node.erase.
    destruct (Node.find_slot key (Node.hash_of key) n) as [q|]; [|done].
    simpl. destruct (q =? Node.capacity_ n); [done|].
    destruct (Node.table_ n !! Z.to_nat q) as [[hn [| |owner]]|]; done.
Qed.

(** C7. In both backends, on every map reached from a fresh map, when
    [insert] returns the table has slots and [size() / capacity()] is at
    most 0.75. *)
Theorem load_factor_after_insert f n (key : Key) (value : Value) :
  Flat.reachable f → Node.reachable n →
  (∀ r f', Flat.insert key value f = Returned r f' →
     0 < Flat.capacity f' ∧ 4 * Flat.size f' ≤ 3 * Flat.capacity f') ∧
  (∀ r n', Node.insert key value n = Returned r n' →
     0 < Node.capacity n' ∧ 4 * Node.size n' ≤ 3 * Node.capacity n').
Proof.
  intros Hf (f0 & Hf0 & Hrel)%node_reachable_related.
  assert (Hins : ∀ f, Flat.reachable f → ∀ r f',
            Flat.insert key value f = Returned r f' →
            0 < Flat.capacity f' ∧ 4 * Flat.size f' ≤ 3 * Flat.capacity f').
  { intros f1 Hf1 [p b] f' Hret. pose proof (flat_insert_reachable f1 key value Hf1) as H.
    rewrite Hret in H. unfold Flat.capacity, Flat.size.
    by destruct H as (_ & _ & _ & _ & _ & ? & ? & _). }
  split; [by apply Hins|].
  intros r n' Hret. pose proof (sim_insert f0 n key value Hrel) as Hsim.
  rewrite Hret in Hsim. destruct (Flat.insert key value f0) as [rf f'| | |] eqn:Hf'; try done.
  destruct Hsim as [Hsim _]. destruct (Hins f0 Hf0 rf f' Hf') as [Hc Hl].
  unfold Flat.capacity, Node.capacity, Flat.size, Node.size in *.
  by rewrite <- (sim_capacity f' n'), <- (sim_size f' n').
Qed.

(** The move operations of the inline backend leave the source without
    keys. *)
Lemma flat_move_empties_source f f0 (key : Key) :
  Flat.size (snd (Flat.move_construct f)) = 0
  ∧ Flat.contains key (snd (Flat.move_construct f)) = Some false
  ∧ Flat.size (snd (Flat.move_assign f0 f)) = 0
  ∧ Flat.contains key (snd (Flat.move_assign f0 f)) = Some false.
Proof. done. Qed.

(** On a map reached from a fresh map, [insert] throws "Hash table is
    full" only when the map has no table. *)
Lemma table_full_only_without_table f n (key : Key) (value : Value) :
  Flat.reachable f → Node.reachable n →
  (∀ f', Flat.insert key value f = TableFull f' → Flat.capacity f = 0) ∧
  (∀ n', Node.insert key value n = TableFull n' → Node.capacity n = 0).
Proof.
  intros Hf (f0 & Hf0 & Hrel)%node_reachable_related.
  assert (Hfull : ∀ f, Flat.reachable f → ∀ f',
            Flat.insert key value f = TableFull f' → Flat.capacity f = 0).
  { intros f1 Hf1 f' Hret. pose proof (flat_insert_reachable f1 key value Hf1) as H.
    rewrite Hret in H. by destruct H as [-> _]. }
  split; [by apply Hfull|].
  intros n' Hret. pose proof (sim_insert f0 n key value Hrel) as Hsim.
  rewrite Hret in Hsim. destruct (Flat.insert key value f0) as [|f'| |] eqn:Hf'; try done.
  unfold Node.capacity. rewrite <- (sim_capacity f0 n) by apply Hrel.
  by apply (Hfull f0 Hf0 f').
Qed.
End Claims.

(** ** The properties on [int] keys and values *)

(** C1, witness: the map of the test ProbeChainAfterErase. *)
Lemma size_counts_contained_keys_witness :
  (Flat.reachable flat_probe_chain ∧ Node.reachable node_probe_chain) ∧
  (∃ ks : list Z,
     NoDup ks ∧ (∀ k, k ∈ ks ↔ Flat.contains k flat_probe_chain = Some true)
     ∧ Z.of_nat (length ks) = Flat.size flat_probe_chain) ∧
  (∃ ks : list Z,
     NoDup ks ∧ (∀ k, k ∈ ks ↔ Node.contains k node_probe_chain = Some true)
     ∧ Z.of_nat (length ks) = Node.size node_probe_chain).
Proof.
  split; [split; [apply flat_probe_chain_reachable|apply node_probe_chain_reachable]|].
  apply (size_counts_contained_keys flat_probe_chain node_probe_chain);
    [apply flat_probe_chain_reachable|apply node_probe_chain_reachable].
Defined.

(** C3, counterexample: a key inserted in a table constructed with one slot
    (grown to two by the insertion) and erased again leaves one tombstone in
    two slots and an empty map, which [erase] does not compact: the ratio is
    0.5, in both backends. *)
Lemma tombstone_ratio_after_erase_counterexample :
  ¬ (∀ (f : Flat.FlatHashMap Z Z) key erased f',
       Flat.reachable f → Flat.erase key f = Returned erased f' →
       4 * Flat.tombstone_count_ f' ≤ Flat.capacity f') ∧
  ¬ (∀ (n : Node.NodeHashMap Z Z) key erased n',
       Node.reachable n → Node.erase key n = Returned erased n' →
       4 * Node.tombstone_count_ n' ≤ Node.capacity n').
Proof.
  split.
  - intros H. specialize (H flat_single 5 true flat_erased flat_single_reachable eq_refl).
    vm_compute in H. by apply H.
  - intros H. specialize (H node_single 5 true node_erased node_single_reachable eq_refl).
    vm_compute in H. by apply H.
Qed.

(** C3, witness: the insertion and the erasure of the counterexample. *)
Lemma tombstone_ratio_after_insert_and_erase_witness :
  (Flat.reachable flat_single ∧ Node.reachable node_single) ∧
  (∀ r f', Flat.insert 5 50 flat_single = Returned r f' →
     0 < Flat.capacity f' ∧ 4 * Flat.tombstone_count_ f' ≤ Flat.capacity f') ∧
  (∀ erased f', Flat.erase 5 flat_single = Returned erased f' →
     4 * Flat.tombstone_count_ f' ≤ Flat.capacity f' ∨ Flat.size f' = 0) ∧
  (∀ r n', Node.insert 5 50 node_single = Returned r n' →
     0 < Node.capacity n' ∧ 4 * Node.tombstone_count_ n' ≤ Node.capacity n') ∧
  (∀ erased n', Node.erase 5 node_single = Returned erased n' →
     4 * Node.tombstone_count_ n' ≤ Node.capacity n' ∨ Node.size n' = 0).
Proof.
  split; [split; [apply flat_single_reachable|apply node_single_reachable]|].
  apply (tombstone_ratio_after_insert_and_erase flat_single node_single 5 50);
    [apply flat_single_reachable|apply node_single_reachable].
Defined.

(** C4, on the maps of the tests MoveConstructor. The inline backend leaves
    the source of a move without keys. The indirect backend moves the two
    vectors out of the source and leaves its counters: the source still
    reports two keys, and a lookup in it reads a table that is gone. *)
Theorem node_move_keeps_source_counters :
  Flat.run two_keys (flat_fresh 16)
    = Returned [saw_insert 100 true; saw_insert 200 true] flat_two
  ∧ Flat.size (snd (Flat.move_construct flat_two)) = 0
  ∧ Flat.contains 1 (snd (Flat.move_construct flat_two)) = Some false
  ∧ Node.run two_keys (node_fresh 16)
    = Returned [saw_insert 100 true; saw_insert 200 true] node_two
  ∧ fst (Node.move_construct node_two) = node_two
  ∧ Node.size (snd (Node.move_construct node_two)) = 2
  ∧ Node.empty (snd (Node.move_construct node_two)) = false
  ∧ Node.capacity (snd (Node.move_construct node_two)) = 16
  ∧ Node.table_ (snd (Node.move_construct node_two)) = []
  ∧ Node.contains 1 (snd (Node.move_construct node_two)) = None
  ∧ Node.size (snd (Node.move_assign (node_fresh 16) node_two)) = 2.
Proof. repeat (split; [vm_compute; reflexivity|]). vm_compute. reflexivity. Qed.


(** C6, witness: the erased key 8 of the test ProbeChainAfterErase. *)
Lemma erase_absent_key_witness :
  (Flat.contains 8 flat_probe_chain = Some false
   ∧ Node.contains 8 node_probe_chain = Some false) ∧
  Flat.erase 8 flat_probe_chain = Returned false flat_probe_chain ∧
  Node.erase 8 node_probe_chain = Returned false node_probe_chain.
Proof.
  split; [split; reflexivity|].
  split; apply (erase_absent_key flat_probe_chain node_probe_chain 8); reflexivity.
Defined.

(** C7, witness: a thirteenth key in a table of 16 slots that holds twelve. *)
Lemma load_factor_after_insert_witness :
  (Flat.reachable flat_twelve ∧ Node.reachable node_twelve) ∧
  (∀ r f', Flat.insert 13 39 flat_twelve = Returned r f' →
     0 < Flat.capacity f' ∧ 4 * Flat.size f' ≤ 3 * Flat.capacity f') ∧
  (∀ r n', Node.insert 13 39 node_twelve = Returned r n' →
     0 < Node.capacity n' ∧ 4 * Node.size n' ≤ 3 * Node.capacity n').
Proof.
  split; [split; [apply flat_twelve_reachable|apply node_twelve_reachable]|].
  apply (load_factor_after_insert flat_twelve node_twelve 13 39);
    [apply flat_twelve_reachable|apply node_twelve_reachable].
Defined.

(** C8, at the failing input. The sized constructors called with
    [expected_size = 2^63] compute the capacity
    [next_power_of_2(12297829382473033728)], which wraps around to 0: the
    map has no slot, and the first [insert] throws "Hash table is full", in
    both backends. *)
Theorem table_full_after_wrapped_capacity :
  sized_capacity (2 ^ 63) = Some 0
  ∧ Flat.create_sized (2 ^ 63) = Returned tt (flat_fresh 0)
  ∧ Flat.reachable (flat_fresh 0)
  ∧ Flat.insert 1 1 (flat_fresh 0) = TableFull (flat_fresh 0)
  ∧ Node.create_sized (2 ^ 63) = Returned tt (node_fresh 0)
  ∧ Node.reachable (node_fresh 0)
  ∧ Node.insert 1 1 (node_fresh 0) = TableFull (node_fresh 0).
Proof.
  split; [reflexivity|]. split; [reflexivity|].
  split; [by apply (Flat.reachable_create_sized (2 ^ 63))|].
  split; [reflexivity|]. split; [reflexivity|].
  split; [by apply (Node.reachable_create_sized (2 ^ 63))|reflexivity].
Qed.

(** C9, counterexample: in a table of 8 slots the keys 0, 8 and 16 do not
    all have the home slot 0. The hash of the key 0 is the sentinel
    [EMPTY_HASH]; [make_hash] replaces it by 2, and the home slot of the key
    is 2. *)
Lemma home_slot_of_key_zero_counterexample :
  ¬ (∀ k : Z, k ∈ [0; 8; 16] → Flat.home (flat_fresh 8) (Flat.hash_of k) = 0).
Proof.
  intros H. specialize (H 0). vm_compute in H.
  assert (Hfalse : 2 = 0) by (apply H; by left). done.
Qed.

(** C9, as amended. In a table of 8 slots (as constructed for an expected
    size of 6) with integer keys under identity hashing, the keys 8 and 16
    have the home slot 0 and the key 0, whose hash is remapped to 2, has the
    home slot 2. After the insertion of 0, 8 and 16 in that order and
    [erase(8)], slot 0 is a tombstone and 16 sits behind it in slot 1;
    [contains(0)] is true, [contains(8)] is false and [contains(16)] is
    true, in both backends: probing skips the tombstone. *)
Theorem probe_skips_tombstone :
  (Flat.create_sized 6 = Returned tt (flat_fresh 8)
   ∧ Flat.home (flat_fresh 8) (Flat.hash_of 0) = 2
   ∧ Flat.home (flat_fresh 8) (Flat.hash_of 8) = 0
   ∧ Flat.home (flat_fresh 8) (Flat.hash_of 16) = 0
   ∧ Flat.run probe_chain (flat_fresh 8)
     = Returned [saw_insert 0 true; saw_insert 8 true; saw_insert 16 true;
                 saw_erase true] flat_probe_chain
   ∧ Flat.is_tombstone <$> Flat.table_ flat_probe_chain !! 0%nat = Some true
   ∧ Flat.key_storage <$> Flat.table_ flat_probe_chain !! 1%nat = Some (Some 16)
   ∧ Flat.contains 0 flat_probe_chain = Some true
   ∧ Flat.contains 8 flat_probe_chain = Some false
   ∧ Flat.contains 16 flat_probe_chain = Some true) ∧
  (Node.create_sized 6 = Returned tt (node_fresh 8)
   ∧ Node.home (node_fresh 8) (Node.hash_of 0) = 2
   ∧ Node.home (node_fresh 8) (Node.hash_of 8) = 0
   ∧ Node.home (node_fresh 8) (Node.hash_of 16) = 0
   ∧ Node.run probe_chain (node_fresh 8)
     = Returned [saw_insert 0 true; saw_insert 8 true; saw_insert 16 true;
                 saw_erase true] node_probe_chain
   ∧ Node.is_tombstone <$> Node.table_ node_probe_chain !! 0%nat = Some true
   ∧ (λ slot, Node.entry_key slot node_probe_chain)
       <$> Node.table_ node_probe_chain !! 1%nat = Some (Some 16)
   ∧ Node.contains 0 node_probe_chain = Some true
   ∧ Node.contains 8 node_probe_chain = Some false
   ∧ Node.contains 16 node_probe_chain = Some true).
Proof.
  split; (repeat (split; [vm_compute; reflexivity|])); vm_compute; reflexivity.
Qed.

(** C10. In both backends there is a map reached from a fresh map and a key
    it contains for which [insert] returns [inserted = false] and doubles
    [capacity()]: the table constructed by default holds twelve keys, among
    them 17, and [insert(17, 0)] rehashes it from 16 to 32 slots before it
    finds the key. In the inline backend the value moves from slot 1 to slot
    17, and the pointer returned by [find] before the call points to a slot
    without a value afterwards. *)
Theorem update_insert_doubles_capacity :
  (∃ (f : Flat.FlatHashMap Z Z) key value p f',
     Flat.reachable f ∧ Flat.contains key f = Some true
     ∧ Flat.insert key value f = Returned (p, false) f'
     ∧ Flat.capacity f' = 2 * Flat.capacity f
     ∧ Flat.find key f = Some (ptr_to 1) ∧ Flat.find key f' = Some (ptr_to 17)
     ∧ Flat.deref (ptr_to 1) f' = None) ∧
  (∃ (n : Node.NodeHashMap Z Z) key value p n',
     Node.reachable n ∧ Node.contains key n = Some true
     ∧ Node.insert key value n = Returned (p, false) n'
     ∧ Node.capacity n' = 2 * Node.capacity n).
Proof.
  split.
  - exists flat_twelve, 17, 0, (ptr_to 17), (flat_after [call_insert 17 0] flat_twelve).
    split; [apply flat_twelve_reachable|].
    do 5 (split; [vm_compute; reflexivity|]). vm_compute. reflexivity.
  - exists node_twelve, 17, 0, (ptr_to 11), (node_after [call_insert 17 0] node_twelve).
    split; [apply node_twelve_reachable|].
    do 2 (split; [vm_compute; reflexivity|]). vm_compute. reflexivity.
Qed.

(** * Further properties of the code *)

(** ** The inline backend: what a call changes and what it leaves alone *)

Section FlatFrame.
Context {Key Value : Type} `{!MapParams Key Value}.
Import Flat.
Implicit Types (m : FlatHashMap Key Value) (slot : Slot Key Value).

(** What [find] lets the caller read is the pair stored in the table. *)
Lemma find_value_stored m (key : Key) (value : Value) :
  table_ok m → find_value key m = Some (Some value) ↔ stored m key value.
Proof.
  intros Hok. unfold find_value.
  destruct (find_cases m key Hok) as [[-> Hnone]|(pos & v & -> & Hv & Hst)]; simpl.
  - split; [done|]. intros Hst. by destruct (Hnone value).
  - simpl in Hv. rewrite Hv. simpl. split.
    + by intros [= <-].
    + intros [p2 Hst2]. destruct Hst as [p1 Hst1].
      by destruct (stored_at_unique m key p1 p2 v value Hok Hst1 Hst2) as [_ ->].
Qed.

Lemma find_value_absent m (key : Key) :
  table_ok m → find_value key m = Some None ↔ ∀ v, ¬ stored m key v.
Proof.
  intros Hok. unfold find_value.
  destruct (find_cases m key Hok) as [[-> Hnone]|(pos & v & -> & Hv & Hst)]; simpl.
  - done.
  - simpl in Hv. rewrite Hv. simpl. split; [done|]. intros Hnone. by destruct (Hnone v).
Qed.

Lemma find_value_total m (key : Key) :
  table_ok m → ∃ r, find_value key m = Some r.
Proof.
  intros Hok. unfold find_value.
  destruct (find_cases m key Hok) as [[-> Hnone]|(pos & v & -> & Hv & Hst)]; simpl.
  - by eexists.
  - simpl in Hv. rewrite Hv. by eexists.
Qed.

(** Two tables that store the same values under a key answer [find] alike. *)
Lemma find_value_ext m m' (key : Key) :
  table_ok m → table_ok m' →
  (∀ v, stored m' key v ↔ stored m key v) →
  find_value key m' = find_value key m.
Proof.
  intros Hok Hok' Hsame.
  destruct (find_value_total m key Hok) as [[v|] Hr]; rewrite Hr.
  - apply find_value_stored; [done|]. apply Hsame. by apply find_value_stored.
  - apply find_value_absent; [done|]. intros v Hv%Hsame.
    by apply (proj1 (find_value_absent m key Hok) Hr v).
Qed.

Lemma contains_ext m m' (key : Key) :
  table_ok m → table_ok m' →
  (∀ v, stored m' key v ↔ stored m key v) →
  contains key m' = contains key m.
Proof.
  intros Hok Hok' Hsame.
  destruct (contains_total m key Hok) as [b Hb], (contains_total m' key Hok') as [b' Hb'].
  rewrite Hb, Hb'. f_equal. destruct b, b'; try done.
  - apply (contains_stored m key Hok) in Hb as [v Hv].
    assert (contains key m' = Some true) by (apply contains_stored; [done|]; exists v; by apply Hsame).
    congruence.
  - apply (contains_stored m' key Hok') in Hb' as [v Hv].
    assert (contains key m = Some true) by (apply contains_stored; [done|]; exists v; by apply Hsame).
    congruence.
Qed.

Lemma contains_absent m (key : Key) :
  table_ok m → contains key m = Some false ↔ ∀ v, ¬ stored m key v.
Proof.
  intros Hok. destruct (contains_total m key Hok) as [[] Hb]; rewrite Hb.
  - apply (contains_stored m key Hok) in Hb as [v Hv]. split; [done|].
    intros Hnone. by destruct (Hnone v).
  - split; [|done]. intros _ v Hv.
    assert (contains key m = Some true) by (apply contains_stored; [done|]; by exists v).
    congruence.
Qed.

(** The probing loop of [insert] touches the slot of [key] only. *)
Lemma insert_loop_frame m (key : Key) (value : Value) p inserted m' :
  table_ok m →
  insert_loop (Z.to_nat (capacity_ m)) 0 (capacity_ m) (home m (hash_of key))
    (hash_of key) key value m = Returned (p, inserted) m' →
  ∀ k v, k ≠ key → stored m' k v ↔ stored m k v.
Proof.
  intros Hok Hrun k v Hk.
  pose proof (capacity_pos m Hok) as Hc.
  unshelve epose proof (insert_loop_spec m key value (Z.to_nat (capacity_ m)) 0
                          (capacity_ m) Hok _ _ _ _) as Hspec;
    [lia|lia|intros; lia|by intros ?|].
  rewrite Hrun in Hspec. destruct inserted.
  - destruct Hspec as (Hfresh & ip & old & -> & Hold & Hocc & Hchain & ->).
    assert (Hlt : (ip < length (table_ m))%nat) by by eapply lookup_lt_Some.
    split.
    + intros [q Hq].
      apply (proj1 (stored_at_write m ip q _ k v Hlt)) in Hq as [[_ Hh]|[_ Hq]].
      * destruct Hh as (_ & Hkey & _). simpl in Hkey. congruence.
      * by exists q.
    + intros [q Hq]. exists q.
      apply (proj2 (stored_at_write m ip q (filled (hash_of key) key value) k v Hlt)).
      right. split; [|done]. intros ->.
      destruct Hq as (slot & Hslot & Hso & _). congruence.
  - destruct Hspec as (pos & old & -> & Hold & Hocc & Hkey & ->).
    assert (Hlt : (pos < length (table_ m))%nat) by by eapply lookup_lt_Some.
    split.
    + intros [q Hq].
      apply (proj1 (stored_at_write m pos q _ k v Hlt)) in Hq as [[_ Hh]|[_ Hq]].
      * destruct Hh as (_ & Hkey' & _). simpl in Hkey'. congruence.
      * by exists q.
    + intros [q Hq]. exists q.
      apply (proj2 (stored_at_write m pos q (set_value value old) k v Hlt)).
      right. split; [|done]. intros ->.
      destruct Hq as (slot & Hslot & _ & Hsk & _). congruence.
Qed.

(** [insert] leaves the pairs of the other keys as they are, also when it
    rebuilds the table. *)
Lemma insert_frame m (key : Key) (value : Value) r m' :
  invariant m → insert key value m = Returned r m' →
  ∀ k v, k ≠ key → stored m' k v ↔ stored m k v.
Proof.
  intros [Hok Hsize Htomb Hfactor Hratio] Hins k v Hk.
  destruct (checks_spec m Hok Hsize Htomb) as [Hload Htombs].
  pose proof (capacity_pos m Hok) as Hc.
  pose proof (counters_range m Hok) as Hcounts.
  destruct r as [p inserted].
  unfold insert in Hins. rewrite Hload, Htombs in Hins.
  destruct ((3 * capacity_ m <? 4 * (size_ m + 1))
            || (capacity_ m <? 4 * tombstone_count_ m)) eqn:Hcheck.
  - rewrite wrap64_small in Hins by lia.
    destruct (Z_lt_le_dec max_slots (capacity_ m * 2)) as [Hbig|Hfits].
    { by rewrite rehash_too_large in Hins. }
    destruct (rehash_ok (capacity_ m * 2) m Hok) as
      (m1 & Hre & Hok1 & Hc1 & Hs1 & Ht1 & Hn1 & Ho1 & Hst1); [|done|lia|].
    { destruct (double_capacity_pow2 m Hok) as (q & Hq & Hpow).
      exists q. split; [done|lia]. }
    rewrite Hre in Hins. simpl bind in Hins.
    rewrite (insert_loop_frame m1 key value p inserted m' Hok1 Hins k v Hk).
    apply Hst1.
  - simpl bind in Hins.
    apply (insert_loop_frame m key value p inserted m' Hok Hins k v Hk).
Qed.



(** [erase] leaves the pairs of the other keys as they are, and removes
    the pair of [key]. *)
Lemma erase_frame m (key : Key) erased m' :
  invariant m → erase key m = Returned erased m' →
  (∀ v, ¬ stored m' key v) ∧
  ∀ k v, k ≠ key → stored m' k v ↔ stored m k v.
Proof.
  intros Hinv. pose proof Hinv as [Hok Hsize Htomb Hfactor Hratio].
  pose proof (capacity_pos m Hok) as Hc.
  pose proof (counters_range m Hok) as Hcounts.
  unfold erase.
  destruct (find_slot_sound m key (hash_of key) Hok) as (q & Hq & Hcases).
  rewrite Hq. destruct Hcases as [->|(Hrange & v0 & Hst)].
  - rewrite Z.eqb_refl. intros [= _ <-]. split; [|done].
    intros v [pos Hst]. rewrite (find_slot_found m key pos v) in Hq by done.
    destruct Hst as (slot & Hslot & _).
    pose proof (lookup_in_range m pos slot Hok Hslot). simplify_eq. lia.
  - destruct (Z.eqb_spec q (capacity_ m)); [lia|].
    pose proof Hst as (slot & Hslot & Hocc & Hkey & Hval).
    rewrite Hslot. cbv zeta.
    set (dead := set_hash TOMBSTONE_HASH (destroy_slot slot)).
    set (m1 := set_size _ _).
    assert (Hlt : (Z.to_nat q < length (table_ m))%nat) by by eapply lookup_lt_Some.
    assert (Hdead : is_tombstone dead = true ∧ occupied dead = false) by done.
    destruct Hdead as [Hdt Hdo].
    pose proof (count_hit occupied _ _ _ Hslot Hocc) as Hone.
    assert (Htable : table_ m1 = <[Z.to_nat q := dead]> (table_ m)) by done.
    assert (Hcap1 : capacity_ m1 = capacity_ m) by done.
    assert (Hok1 : table_ok m1).
    { apply (table_ok_ext (set_table (<[Z.to_nat q := dead]> (table_ m)) m)); [done|done|].
      apply (table_ok_write m _ slot); [done|done| |].
      - intros _. by apply tombstone_not_empty.
      - intros Hocc'. congruence. }
    assert (Hst1 : ∀ k v, stored m1 k v ↔ k ≠ key ∧ stored m k v).
    { intros k v. split.
      - intros [pos Hp].
        apply (proj1 (stored_at_write m (Z.to_nat q) pos dead k v Hlt)) in Hp
          as [[_ Hh]|[Hne Hp]].
        + destruct Hh as (Hh & _). congruence.
        + split; [|by exists pos]. intros ->.
          destruct (stored_at_unique m key pos (Z.to_nat q) v v0 Hok Hp Hst). done.
      - intros [Hne [pos Hp]]. exists pos.
        apply (proj2 (stored_at_write m (Z.to_nat q) pos dead k v Hlt)).
        right. split; [|done]. intros ->.
        destruct Hp as (s & Hs & _ & Hsk & _). congruence. }
    assert (Hsize1 : size_ m1 = size_ m - 1) by (apply wrap64_small; lia).
    assert (Hcount1 : count occupied (table_ m1) = count occupied (table_ m) - 1).
    { rewrite Htable, !(count_insert _ _ _ _ slot) by done.
      rewrite Hdo, Hocc. lia. }
    destruct (tombstones_exceed _ _ && (0 <? size_ m1)).
    + destruct (rehash_ok (capacity_ m1) m1 Hok1) as
        (m2 & -> & Hok2 & Hc2 & Hs2 & Ht2 & Hn2 & Ho2 & Hst2);
        [apply Hok1|apply Hok1|lia|].
      simpl bind. intros [= _ <-]. split.
      * intros v Hv%Hst2%Hst1. by destruct Hv.
      * intros k v Hk. rewrite Hst2, Hst1. tauto.
    + intros [= _ <-]. split.
      * intros v Hv%Hst1. by destruct Hv.
      * intros k v Hk. rewrite Hst1. tauto.
Qed.

(** [operator[]] finds the value stored under the key, or inserts the
    value-initialised value. *)
Lemma index_cases m (key : Key) p m' :
  invariant m → index key m = Returned p m' →
  (∃ v, stored m key v ∧ m' = m ∧ deref p m' = Some v) ∨
  ((∀ v, ¬ stored m key v) ∧
   ∃ p', insert key default_value m = Returned (p', true) m' ∧ p = p').
Proof.
  intros Hinv. pose proof (inv_table m Hinv) as Hok. unfold index.
  destruct (find_slot_sound m key (hash_of key) Hok) as (q & Hq & Hcases).
  rewrite Hq. destruct Hcases as [->|(Hrange & v & Hst)].
  - rewrite Z.eqb_refl. simpl negb. cbv iota.
    assert (Hnone : ∀ v, ¬ stored m key v).
    { intros v [pos Hst]. rewrite (find_slot_found m key pos v) in Hq by done.
      destruct Hst as (slot & Hslot & _).
      pose proof (lookup_in_range m pos slot Hok Hslot). simplify_eq. lia. }
    destruct (insert_ok m key default_value Hinv) as
      [->|(p' & inserted & m1 & -> & _ & _ & _ & _ & _ & _ & Hcase)]; [done|].
    simpl. intros [= <- <-]. right. split; [done|]. exists p'. split; [|done].
    destruct inserted; [done|]. destruct Hcase as [[v Hv] _]. by destruct (Hnone v).
  - destruct (Z.eqb_spec q (capacity_ m)); [lia|]. simpl negb. cbv iota.
    intros [= <- <-]. left. exists v. split; [by exists (Z.to_nat q)|]. split; [done|].
    destruct Hst as (slot & Hslot & _ & _ & Hval). simpl. by rewrite Hslot.
Qed.
End FlatFrame.

(** ** The indirect backend: the backing store of the entries *)

Section NodeEntries.
Context {Key Value : Type} `{!MapParams Key Value}.
Import Node.
Implicit Types (n : NodeHashMap Key Value) (slot : Node.Slot).

Lemma insert_internal_loop_entries fuel i index h e n n' :
  insert_internal_loop fuel i index h e n = Returned tt n' →
  entries_ n' = entries_ n.
Proof.
  revert i. induction fuel as [|fuel IH]; intros i; simpl; [done|].
  destruct (table_ n !! Z.to_nat (probe n index i)) as [slot|]; [|done].
  destruct (is_empty slot || is_tombstone slot); [|by apply IH].
  intros [= <-]. by destruct (is_tombstone slot).
Qed.

Lemma rehash_loop_entries (old_table : list Node.Slot) n n' :
  rehash_loop old_table n = Returned tt n' → entries_ n' = entries_ n.
Proof.
  revert n. induction old_table as [|slot rest IH]; intros n; simpl.
  { by intros [= <-]. }
  destruct (negb (is_empty slot) && negb (is_tombstone slot)); [|by apply IH].
  destruct (insert_internal (hash slot) (entry slot) n) as [[] n1|n1| |] eqn:Hin; try done.
  simpl. intros Hrest. rewrite (IH n1 Hrest).
  by apply (insert_internal_loop_entries _ _ _ _ _ _ _ Hin).
Qed.

(** [rehash] rebuilds the table and leaves the entries where they are. *)
Lemma rehash_entries new_capacity n n' :
  rehash new_capacity n = Returned tt n' → entries_ n' = entries_ n.
Proof.
  unfold rehash. destruct (max_slots <? new_capacity); [done|].
  intros Hloop. by rewrite (rehash_loop_entries _ _ _ Hloop).
Qed.

(** The probing loop of [insert] appends one entry for a new key and
    overwrites the value of the entry of a key that is present. *)
Lemma insert_loop_entries fuel i first_tombstone index h (key : Key) (value : Value)
    n p inserted n' :
  insert_loop fuel i first_tombstone index h key value n = Returned (p, inserted) n' →
  if inserted
  then p = ptr_to (Z.of_nat (length (entries_ n)))
       ∧ entries_ n' = entries_ n ++ [{| data := (key, value) |}]
  else ∃ (owner : nat) e,
         p = ptr_to (Z.of_nat owner) ∧ entries_ n !! owner = Some e
         ∧ fst (data e) = key
         ∧ entries_ n' = <[owner := set_value value e]> (entries_ n).
Proof.
  revert i first_tombstone.
  induction fuel as [|fuel IH]; intros i first_tombstone; simpl; [done|].
  destruct (table_ n !! Z.to_nat (probe n index i)) as [slot|]; [|done].
  destruct (is_empty slot).
  { intros [= <- <- <-]. by destruct (negb (first_tombstone =? capacity_ n)). }
  destruct (is_tombstone slot && (first_tombstone =? capacity_ n)); [by apply IH|].
  destruct (negb (is_tombstone slot) && (hash slot =? h)); [|by apply IH].
  destruct (entry slot) as [| |owner]; [done|done|].
  destruct (entries_ n !! owner) as [e|] eqn:He; [|done].
  destruct (bool_decide (fst (data e) = key)) eqn:Hk; [|by apply IH].
  intros [= <- <- <-]. exists owner, e. by apply bool_decide_eq_true in Hk.
Qed.

Lemma insert_entries (key : Key) (value : Value) n p inserted n' :
  insert key value n = Returned (p, inserted) n' →
  if inserted
  then p = ptr_to (Z.of_nat (length (entries_ n)))
       ∧ entries_ n' = entries_ n ++ [{| data := (key, value) |}]
  else ∃ (owner : nat) e,
         p = ptr_to (Z.of_nat owner) ∧ entries_ n !! owner = Some e
         ∧ fst (data e) = key
         ∧ entries_ n' = <[owner := set_value value e]> (entries_ n).
Proof.
  unfold insert.
  destruct (load_exceeds _ _ || tombstones_exceed _ _).
  - destruct (rehash _ n) as [[] n1|n1| |] eqn:Hre; try done. simpl bind.
    intros Hloop%insert_loop_entries. by rewrite (rehash_entries _ _ _ Hre) in Hloop.
  - simpl bind. apply insert_loop_entries.
Qed.

Lemma erase_entries (key : Key) n erased n' :
  erase key n = Returned erased n' → entries_ n' = entries_ n.
Proof.
  unfold erase. destruct (find_slot key (hash_of key) n) as [pos|]; [|done].
  destruct (pos =? capacity_ n); [by intros [= _ <-]|]. cbv zeta.
  destruct (tombstones_exceed _ _ && _).
  - destruct (rehash _ _) as [[] n1|n1| |] eqn:Hre; try done. simpl.
    intros [= _ <-]. by rewrite (rehash_entries _ _ _ Hre).
  - by intros [= _ <-].
Qed.
End NodeEntries.

(** ** The inline backend: the calls on the maps a program can hold *)

Section FlatCalls.
Context {Key Value : Type} `{!MapParams Key Value}.
Implicit Types (f : Flat.FlatHashMap Key Value).

Lemma find_value_moved_from (key : Key) :
  Flat.find_value key (Flat.moved_from : Flat.FlatHashMap Key Value) = Some None.
Proof. reflexivity. Qed.

Lemma flat_insert_facts f (key : Key) (value : Value) r f' :
  Flat.reachable f → Flat.insert key value f = Returned r f' →
  Flat.deref (fst r) f' = Some value
  ∧ Flat.find_value key f' = Some (Some value)
  ∧ Flat.contains key f' = Some true
  ∧ Flat.contains key f = Some (negb (snd r))
  ∧ Flat.size f' = Flat.size f + (if snd r then 1 else 0)
  ∧ (∀ k, k ≠ key → Flat.find_value k f' = Flat.find_value k f
                    ∧ Flat.contains k f' = Flat.contains k f).
Proof.
  intros [Hinv| ->]%reachable_invariant Hins.
  - pose proof (insert_frame f key value r f' Hinv Hins) as Hframe.
    destruct (insert_ok f key value Hinv) as
      [?|(p & inserted & f1 & Hret & Hinv' & Hst & Hp & _ & _ & _ & Hcase)]; [congruence|].
    rewrite Hins in Hret. simplify_eq. cbn [fst snd].
    pose proof (Flat.inv_table f Hinv) as Hok.
    pose proof (Flat.inv_table f1 Hinv') as Hok'.
    split; [done|]. split; [by apply find_value_stored|].
    split; [apply contains_stored; [done|by exists value]|].
    split; [|split].
    + destruct inserted; simpl.
      * apply contains_absent; [done|]. apply Hcase.
      * apply contains_stored; [done|]. apply Hcase.
    + unfold Flat.size. destruct inserted; [apply Hcase|]. destruct Hcase as [_ ->]. lia.
    + intros k Hk. split.
      * apply find_value_ext; [done|done|]. intros v. by apply Hframe.
      * apply contains_ext; [done|done|]. intros v. by apply Hframe.
  - by destruct (insert_moved_from key value) as [Hm|Hm]; rewrite Hm in Hins.
Qed.

Lemma flat_erase_facts f (key : Key) :
  Flat.reachable f →
  ∃ erased f',
    Flat.erase key f = Returned erased f'
    ∧ Flat.contains key f = Some erased
    ∧ Flat.contains key f' = Some false
    ∧ Flat.find_value key f' = Some None
    ∧ Flat.size f' = Flat.size f - (if erased then 1 else 0)
    ∧ Flat.capacity f' = Flat.capacity f
    ∧ (∀ k, k ≠ key → Flat.find_value k f' = Flat.find_value k f
                      ∧ Flat.contains k f' = Flat.contains k f).
Proof.
  intros [Hinv| ->]%reachable_invariant.
  - destruct (erase_ok f key Hinv) as (erased & f' & Hret & Hinv' & Hcap & Hcase).
    destruct (erase_frame f key erased f' Hinv Hret) as [Hgone Hframe].
    pose proof (Flat.inv_table f Hinv) as Hok.
    pose proof (Flat.inv_table f' Hinv') as Hok'.
    exists erased, f'. split; [done|]. split; [|split; [|split; [|split; [|split]]]].
    + destruct erased.
      * apply contains_stored; [done|]. apply Hcase.
      * apply contains_absent; [done|]. apply Hcase.
    + by apply contains_absent.
    + by apply find_value_absent.
    + unfold Flat.size. destruct erased; [apply Hcase|]. destruct Hcase as [_ ->]. lia.
    + done.
    + intros k Hk. split.
      * apply find_value_ext; [done|done|]. intros v. by apply Hframe.
      * apply contains_ext; [done|done|]. intros v. by apply Hframe.
  - exists false, Flat.moved_from. by repeat split.
Qed.

Lemma flat_clear_facts f :
  Flat.reachable f →
  ∃ f',
    Flat.clear f = Returned tt f'
    ∧ Flat.size f' = 0
    ∧ Flat.capacity f' = Flat.capacity f
    ∧ Flat.tombstone_count_ f' = 0
    ∧ (∀ k, Flat.contains k f' = Some false ∧ Flat.find_value k f' = Some None).
Proof.
  intros [Hinv| ->]%reachable_invariant.
  - destruct (clear_ok f Hinv) as (f' & Hret & Hinv' & Hcap & Hsize & Hnone).
    pose proof (Flat.inv_table f' Hinv') as Hok'.
    exists f'. split; [done|]. split; [done|]. split; [done|].
    split; [by injection Hret as <-|].
    intros k. split; [apply contains_absent|apply find_value_absent]; try done;
      intros v; apply Hnone.
  - exists Flat.moved_from. by repeat split.
Qed.

Lemma index_moved_from (key : Key) p f' :
  Flat.index key (Flat.moved_from : Flat.FlatHashMap Key Value) ≠ Returned p f'.
Proof.
  unfold Flat.index.
  change (Flat.find_slot key (Flat.hash_of key) Flat.moved_from) with (Some 0).
  simpl negb. cbv iota.
  by destruct (insert_moved_from key default_value) as [-> | ->].
Qed.

Lemma flat_index_facts f (key : Key) p f' :
  Flat.reachable f → Flat.index key f = Returned p f' →
  ∃ v, Flat.deref p f' = Some v
       ∧ Flat.find_value key f' = Some (Some v)
       ∧ ((Flat.find_value key f = Some (Some v) ∧ Flat.size f' = Flat.size f)
          ∨ (Flat.find_value key f = Some None ∧ v = default_value
             ∧ Flat.size f' = Flat.size f + 1))
       ∧ (∀ k, k ≠ key → Flat.find_value k f' = Flat.find_value k f).
Proof.
  intros Hreach Hidx. pose proof Hreach as [Hinv| ->]%reachable_invariant;
    [|by destruct (index_moved_from key p f')].
  pose proof (Flat.inv_table f Hinv) as Hok.
  destruct (index_cases f key p f' Hinv Hidx) as
    [(v & Hst & -> & Hp)|(Hnone & p' & Hins & ->)].
  - exists v. split; [done|]. split; [by apply find_value_stored|].
    split; [left; split; [by apply find_value_stored|done]|done].
  - destruct (flat_insert_facts f key default_value (p', true) f' Hreach Hins)
      as (Hp & Hfind & _ & _ & Hsize & Hframe).
    exists default_value. split; [done|]. split; [done|]. split.
    + right. split; [by apply find_value_absent|done].
    + intros k Hk. by apply Hframe.
Qed.

(** A call keeps the capacity or doubles it. *)
Lemma flat_step_capacity f (c : call Key Value) f' :
  Flat.reachable f → leaves (Flat.step c f) f' →
  Flat.capacity f' = Flat.capacity f ∨ Flat.capacity f' = 2 * Flat.capacity f.
Proof.
  intros [Hinv| ->]%reachable_invariant Hleaves;
    [|left; by rewrite (step_moved_from c f' Hleaves)].
  unfold Flat.capacity.
  destruct c as [key value|key| |key|key|key]; unfold Flat.step in Hleaves.
  - destruct (insert_ok f key value Hinv) as
      [Hm|(p & inserted & f1 & Hret & _ & _ & Hp & _ & _ & Hcap & _)];
      rewrite ?Hm, ?Hret in Hleaves; simpl in Hleaves.
    + by destruct Hleaves as [[a Ha]|Ha].
    + rewrite Hp in Hleaves. destruct Hleaves as [[a Ha]|Ha]; by simplify_eq.
  - destruct (erase_ok f key Hinv) as (erased & f1 & Hret & _ & Hcap & _).
    rewrite Hret in Hleaves. simpl in Hleaves.
    destruct Hleaves as [[a Ha]|Ha]; simplify_eq. by left.
  - simpl in Hleaves. destruct Hleaves as [[a Ha]|Ha]; simplify_eq. by left.
  - destruct (Flat.index key f) as [p f1|f1| |] eqn:Hidx; simpl in Hleaves.
    + assert (Hcap : Flat.capacity_ f1 = Flat.capacity_ f
                     ∨ Flat.capacity_ f1 = 2 * Flat.capacity_ f).
      { destruct (index_cases f key p f1 Hinv Hidx) as
          [(v & _ & -> & _)|(_ & p' & Hins & _)]; [by left|].
        destruct (insert_ok f key default_value Hinv) as
          [Hm|(p2 & inserted & f2 & Hret & _ & _ & _ & _ & _ & Hcap & _)];
          [congruence|].
        rewrite Hins in Hret. by simplify_eq. }
      destruct (Flat.deref p f1); destruct Hleaves as [[a Ha]|Ha]; by simplify_eq.
    + exfalso. destruct (index_ok f key Hinv) as [?|(? & ? & ? & ? & _)]; congruence.
    + by destruct Hleaves as [[a Ha]|Ha].
    + by destruct Hleaves as [[a Ha]|Ha].
  - destruct (Flat.find_value key f); destruct Hleaves as [[a Ha]|Ha]; simplify_eq.
    by left.
  - destruct (Flat.contains key f); destruct Hleaves as [[a Ha]|Ha]; simplify_eq.
    by left.
Qed.



(** [empty()] on a map a program can hold. *)
Lemma flat_empty_no_key f :
  Flat.reachable f →
  Flat.empty f = true ↔ ∀ k : Key, Flat.contains k f = Some false.
Proof.
  intros Hreach. destruct (flat_size_counts f Hreach) as (ks & Hnodup & Hin & Hlen).
  unfold Flat.empty, Flat.size in *. rewrite Z.eqb_eq. split.
  - intros Hzero k. destruct ks as [|k0 ks]; [|simpl in Hlen; lia].
    pose proof Hreach as [Hinv| ->]%reachable_invariant; [|done].
    destruct (contains_total f k (Flat.inv_table f Hinv)) as [[] Hb]; [|done].
    apply Hin in Hb. by apply elem_of_nil in Hb.
  - intros Hnone. destruct ks as [|k0 ks]; [simpl in Hlen; lia|].
    assert (Hk0 : Flat.contains k0 f = Some true) by (apply Hin; left).
    rewrite Hnone in Hk0. done.
Qed.
End FlatCalls.

(** ** The indirect backend: the calls on the maps a program can hold *)

Section NodeCalls.
Context {Key Value : Type} `{!MapParams Key Value}.
Implicit Types (f : Flat.FlatHashMap Key Value) (n : Node.NodeHashMap Key Value).

Lemma node_insert_facts n (key : Key) (value : Value) r n' :
  Node.reachable n → Node.insert key value n = Returned r n' →
  Node.deref (fst r) n' = Some value
  ∧ Node.find_value key n' = Some (Some value)
  ∧ Node.contains key n' = Some true
  ∧ Node.contains key n = Some (negb (snd r))
  ∧ Node.size n' = Node.size n + (if snd r then 1 else 0)
  ∧ (∀ k, k ≠ key → Node.find_value k n' = Node.find_value k n
                    ∧ Node.contains k n' = Node.contains k n).
Proof.
  intros (f & Hf & Hrel)%node_reachable_related Hins.
  pose proof (sim_insert f n key value Hrel) as Hsim. rewrite Hins in Hsim.
  destruct (Flat.insert key value f) as [rf f'| | |] eqn:Hf'; try done.
  destruct Hsim as [Hsim' [Hflag (v & Hdf & Hdn)]].
  destruct (flat_insert_facts f key value rf f' Hf Hf')
    as (Hp & Hfind & Hc' & Hc & Hsize & Hframe).
  destruct Hrel as [_ Hsim0].
  split; [congruence|].
  split; [by rewrite <- (sim_find_value f' n')|].
  split; [by rewrite <- (sim_contains f' n')|].
  split; [by rewrite <- (sim_contains f n), <- Hflag|].
  split.
  - unfold Node.size, Flat.size in *.
    rewrite <- (sim_size f' n' Hsim'), <- (sim_size f n Hsim0), <- Hflag. done.
  - intros k Hk. destruct (Hframe k Hk) as [Hfv Hct].
    rewrite <- (sim_find_value f' n'), <- (sim_find_value f n) by done.
    rewrite <- (sim_contains f' n'), <- (sim_contains f n) by done. done.
Qed.

Lemma node_erase_facts n (key : Key) :
  Node.reachable n →
  ∃ erased n',
    Node.erase key n = Returned erased n'
    ∧ Node.contains key n = Some erased
    ∧ Node.contains key n' = Some false
    ∧ Node.find_value key n' = Some None
    ∧ Node.size n' = Node.size n - (if erased then 1 else 0)
    ∧ Node.capacity n' = Node.capacity n
    ∧ (∀ k, k ≠ key → Node.find_value k n' = Node.find_value k n
                      ∧ Node.contains k n' = Node.contains k n).
Proof.
  intros (f & Hf & _ & Hsim0)%node_reachable_related.
  destruct (flat_erase_facts f key Hf)
    as (erased & f' & Hret & Hc & Hc' & Hfind & Hsize & Hcap & Hframe).
  pose proof (sim_erase f n key Hsim0) as Hsim. rewrite Hret in Hsim.
  destruct (Node.erase key n) as [b n'| | |]; try done.
  destruct Hsim as [Hsim' <-]. exists erased, n'. split; [done|].
  split; [by rewrite <- (sim_contains f n)|].
  split; [by rewrite <- (sim_contains f' n')|].
  split; [by rewrite <- (sim_find_value f' n')|].
  split; [|split].
  - unfold Node.size, Flat.size in *.
    by rewrite <- (sim_size f' n' Hsim'), <- (sim_size f n Hsim0).
  - unfold Node.capacity, Flat.capacity in *.
    by rewrite <- (sim_capacity f' n' Hsim'), <- (sim_capacity f n Hsim0).
  - intros k Hk. destruct (Hframe k Hk) as [Hfv Hct].
    rewrite <- (sim_find_value f' n'), <- (sim_find_value f n) by done.
    rewrite <- (sim_contains f' n'), <- (sim_contains f n) by done. done.
Qed.

Lemma node_clear_facts n :
  Node.reachable n →
  ∃ n',
    Node.clear n = Returned tt n'
    ∧ Node.size n' = 0
    ∧ Node.capacity n' = Node.capacity n
    ∧ Node.tombstone_count_ n' = 0
    ∧ Node.entries_ n' = []
    ∧ (∀ k : Key, Node.contains k n' = Some false ∧ Node.find_value k n' = Some None).
Proof.
  intros (f & Hf & _ & Hsim0)%node_reachable_related.
  destruct (flat_clear_facts f Hf) as (f' & Hret & Hsize & Hcap & Htomb & Hnone).
  pose proof (sim_clear f n Hsim0) as Hsim. rewrite Hret in Hsim.
  destruct (Node.clear n) as [[] n'| | |] eqn:Hclear; try done.
  destruct Hsim as [Hsim' _]. exists n'. split; [done|].
  split; [by injection Hclear as <-|]. split; [by injection Hclear as <-|].
  split; [by injection Hclear as <-|]. split; [by injection Hclear as <-|].
  intros k. destruct (Hnone k) as [Hc Hfv].
  by rewrite <- (sim_find_value f' n'), <- (sim_contains f' n').
Qed.

Lemma node_index_facts n (key : Key) p n' :
  Node.reachable n → Node.index key n = Returned p n' →
  ∃ v, Node.deref p n' = Some v
       ∧ Node.find_value key n' = Some (Some v)
       ∧ ((Node.find_value key n = Some (Some v) ∧ Node.size n' = Node.size n)
          ∨ (Node.find_value key n = Some None ∧ v = default_value
             ∧ Node.size n' = Node.size n + 1))
       ∧ (∀ k, k ≠ key → Node.find_value k n' = Node.find_value k n).
Proof.
  intros (f & Hf & Hrel)%node_reachable_related Hidx.
  pose proof (sim_index f n key Hrel) as Hsim. rewrite Hidx in Hsim.
  destruct (Flat.index key f) as [pf f'| | |] eqn:Hf'; try done.
  destruct Hsim as [Hsim' (v0 & Hdf & Hdn)]. destruct Hrel as [_ Hsim0].
  destruct (flat_index_facts f key pf f' Hf Hf') as (v & Hp & Hfind & Hcase & Hframe).
  assert (v0 = v) by congruence. subst v0.
  exists v. split; [done|].
  split; [by rewrite <- (sim_find_value f' n')|]. split.
  - unfold Node.size, Flat.size in *.
    rewrite <- (sim_size f' n' Hsim'), <- (sim_size f n Hsim0).
    by rewrite <- (sim_find_value f n).
  - intros k Hk.
    rewrite <- (sim_find_value f' n'), <- (sim_find_value f n) by done.
    by apply Hframe.
Qed.

Lemma node_step_capacity n (c : call Key Value) n' :
  Node.reachable n → leaves (Node.step c n) n' →
  Node.capacity n' = Node.capacity n ∨ Node.capacity n' = 2 * Node.capacity n.
Proof.
  intros (f & Hf & Hrel)%node_reachable_related Hleaves.
  destruct (related_step_back f n c n' Hrel Hleaves) as (f' & Hleaves' & _ & Hsim').
  destruct Hrel as [_ Hsim0].
  unfold Node.capacity.
  rewrite <- (sim_capacity f' n' Hsim'), <- (sim_capacity f n Hsim0).
  by apply (flat_step_capacity f c f').
Qed.


Lemma node_empty_no_key n :
  Node.reachable n →
  Node.empty n = true ↔ ∀ k : Key, Node.contains k n = Some false.
Proof.
  intros (f & Hf & _ & Hsim0)%node_reachable_related.
  assert (Node.empty n = Flat.empty f) as ->.
  { unfold Node.empty, Flat.empty. by rewrite (sim_size f n Hsim0). }
  rewrite (flat_empty_no_key f Hf).
  split; intros Hnone k; [by rewrite <- (sim_contains f n)|by rewrite (sim_contains f n)].
Qed.

(** The entries of the keys in the table are owned by the backing store:
    the store holds at least [size()] entries. *)
Lemma node_size_entries n :
  Node.reachable n → Node.size n ≤ Z.of_nat (length (Node.entries_ n)).
Proof.
  intros (f & Hf & Hinv & Hsim0)%node_reachable_related.
  unfold Node.size. rewrite <- (sim_size f n Hsim0).
  destruct Hinv as [Hinv| ->]; [|simpl; lia].
  pose proof (Flat.inv_table f Hinv) as Hok.
  rewrite (Flat.inv_size f Hinv), <- keys_of_length by by apply table_slots_ok.
  apply inj_le. rewrite <- (length_fmap (λ e, fst (Node.data e)) (Node.entries_ n)).
  apply submseteq_length, NoDup_submseteq; [apply keys_of_NoDup, Hok|].
  intros k (pos & slot & Hpos & Hocc & Hk)%elem_of_keys_of.
  pose proof (sim_lookup f n pos Hsim0) as Hslot. rewrite Hpos in Hslot.
  destruct (Node.table_ n !! pos) as [ns|]; [|done].
  destruct Hslot as [Hh Hentry].
  pose proof (occupied_not_empty slot Hocc) as He.
  pose proof (occupied_not_tombstone slot Hocc) as Ht.
  unfold Flat.is_empty, Flat.is_tombstone in He, Ht.
  apply Z.eqb_neq in He, Ht.
  destruct (Node.entry ns) as [| |owner]; [done|done|].
  destruct Hentry as (_ & _ & k' & v & Howner & Hk' & _).
  assert (k' = k) by congruence. subst k'.
  apply list_elem_of_fmap. exists {| Node.data := (k, v) |}. split; [done|].
  by apply (list_elem_of_lookup_2 _ owner).
Qed.
End NodeCalls.

(** ** The table without tombstones: an erased slot ends the probe chain *)

Section LegacyFacts.
Context {Key Value : Type} `{!MapParams Key Value}.
Import Legacy.
Implicit Types (m : HashMap Key Value) (slot : Legacy.Slot).

(** In a table of 16 slots, probe [i] from the home slot [index]. *)
Lemma legacy_probe m index i :
  capacity_ m = 16 → 0 ≤ index < 16 → 0 ≤ i < 16 →
  probe m index i = (index + i) mod 16.
Proof.
  intros Hc Hindex Hi. unfold probe. rewrite Hc.
  change (wrap64 (16 - 1)) with (Z.ones 4).
  rewrite wrap64_small, Z.land_ones by lia. reflexivity.
Qed.

Lemma legacy_home m h : capacity_ m = 16 → home m h = Z.land h 15.
Proof. intros Hc. unfold home. by rewrite Hc. Qed.

Lemma legacy_home_range h : 0 ≤ Z.land h 15 < 16.
Proof.
  change 15 with (Z.ones 4). rewrite Z.land_ones by lia.
  apply Z.mod_pos_bound. lia.
Qed.

(** The probing loop of [insert] at an empty slot. *)
Lemma legacy_insert_at_empty fuel i index h (key : Key) (value : Value) m slot :
  table_ m !! Z.to_nat (probe m index i) = Some slot → entry slot = None →
  insert_loop (S fuel) i index h key value m
  = Returned (ptr_to (Z.of_nat (length (entries_ m))), true)
      {| table_ := <[Z.to_nat (probe m index i) :=
                      {| hash := h; entry := Some (length (entries_ m)) |}]> (table_ m);
         entries_ := entries_ m ++ [{| data := (key, value) |}];
         size_ := wrap64 (size_ m + 1);
         capacity_ := capacity_ m |}.
Proof. intros Hslot He. simpl. by rewrite Hslot, He. Qed.

(** The probing loop of [insert] at a slot of another key. *)
Lemma legacy_insert_skip fuel i index h (key : Key) (value : Value) m slot owner e :
  table_ m !! Z.to_nat (probe m index i) = Some slot → entry slot = Some owner →
  entries_ m !! owner = Some e → fst (data e) ≠ key →
  insert_loop (S fuel) i index h key value m
  = insert_loop fuel (wrap64 (i + 1)) index h key value m.
Proof.
  intros Hslot He Howner Hk. simpl. rewrite Hslot, He, Howner.
  rewrite bool_decide_eq_false_2 by done. by destruct (hash slot =? h).
Qed.

(** The loop of [find_slot] at an empty slot, at the slot of the key, and at
    a slot of another key. *)
Lemma legacy_find_at_empty fuel i index (key : Key) h m slot :
  table_ m !! Z.to_nat (probe m index i) = Some slot → entry slot = None →
  find_slot_loop (S fuel) i index key h m = Some (capacity_ m).
Proof. intros Hslot He. simpl. by rewrite Hslot, He. Qed.

Lemma legacy_find_hit fuel i index (key : Key) h m slot owner e :
  table_ m !! Z.to_nat (probe m index i) = Some slot → entry slot = Some owner →
  hash slot = h → entries_ m !! owner = Some e → fst (data e) = key →
  find_slot_loop (S fuel) i index key h m = Some (probe m index i).
Proof.
  intros Hslot He Hh Howner Hk. simpl. rewrite Hslot, He, Hh, Z.eqb_refl, Howner.
  by rewrite bool_decide_eq_true_2.
Qed.

Lemma legacy_find_skip fuel i index (key : Key) h m slot owner e :
  table_ m !! Z.to_nat (probe m index i) = Some slot → entry slot = Some owner →
  entries_ m !! owner = Some e → fst (data e) ≠ key →
  find_slot_loop (S fuel) i index key h m
  = find_slot_loop fuel (wrap64 (i + 1)) index key h m.
Proof.
  intros Hslot He Howner Hk. simpl. rewrite Hslot, He, Howner.
  rewrite bool_decide_eq_false_2 by done. by destruct (hash slot =? h).
Qed.

Lemma legacy_load_16 : load_exceeds 0 16 = false ∧ load_exceeds 1 16 = false.
Proof. split; vm_compute; reflexivity. Qed.

(** X19. [hash_map.hpp], [HashMap::erase]: erasing a key cuts the probe
    chain that runs through its slot. In a default-constructed table, for
    two distinct keys with the same home slot, after [insert(k1)],
    [insert(k2)] and [erase(k1)] the key [k2] is no longer found although
    it was never erased: [contains(k2)] is false and [erase(k2)] returns
    false, while [size()] is still 1; a further [insert(k2)] reports a new
    key and stores a second entry for it. *)
Theorem legacy_erase_loses_colliding_key (k1 k2 : Key) (v1 v2 v3 : Value) :
  k1 ≠ k2 →
  Z.land (hash_of k1) 15 = Z.land (hash_of k2) 15 →
  INITIAL_CAPACITY ≤ max_slots →
  ∃ m0 p1 m1 p2 m2 m3 p3 m4,
    create = Returned tt m0
    ∧ insert k1 v1 m0 = Returned (p1, true) m1
    ∧ insert k2 v2 m1 = Returned (p2, true) m2
    ∧ contains k2 m2 = Some true
    ∧ erase k1 m2 = Returned true m3
    ∧ contains k2 m3 = Some false
    ∧ size m3 = 1
    ∧ erase k2 m3 = Returned false m3
    ∧ insert k2 v3 m3 = Returned (p3, true) m4
    ∧ size m4 = 2
    ∧ entries_ m4 = [{| data := (k1, v1) |}; {| data := (k2, v2) |};
                     {| data := (k2, v3) |}].
Proof.
  intros Hk Hhome Hmax.
  pose proof (legacy_home_range (hash_of k1)) as Hrange.
  set (h1 := hash_of k1) in *. set (h2 := hash_of k2) in *.
  set (i0 := Z.land h1 15) in *.
  set (i1 := (i0 + 1) mod 16).
  assert (Hi1 : 0 ≤ i1 < 16) by (apply Z.mod_pos_bound; lia).
  assert (Hne : Z.to_nat i0 ≠ Z.to_nat i1).
  { unfold i1. destruct (Z.eq_dec i0 15) as [->|]; [done|].
    rewrite Z.mod_small by lia. lia. }
  set (t0 := replicate 16 (new_slot : Legacy.Slot)).
  set (t1 := <[Z.to_nat i0 := {| hash := h1; entry := Some 0%nat |}]> t0).
  set (t2 := <[Z.to_nat i1 := {| hash := h2; entry := Some 1%nat |}]> t1).
  set (t3 := <[Z.to_nat i0 := {| hash := EMPTY_HASH; entry := None |}]> t2).
  set (t4 := <[Z.to_nat i0 := {| hash := h2; entry := Some 2%nat |}]> t3).
  set (e1 := {| data := (k1, v1) |}). set (e2 := {| data := (k2, v2) |}).
  set (e3 := {| data := (k2, v3) |}).
  set (m0 := {| table_ := t0; entries_ := []; size_ := 0; capacity_ := 16 |}
             : HashMap Key Value).
  set (m1 := {| table_ := t1; entries_ := [e1]; size_ := 1; capacity_ := 16 |}).
  set (m2 := {| table_ := t2; entries_ := [e1; e2]; size_ := 2; capacity_ := 16 |}).
  set (m3 := {| table_ := t3; entries_ := [e1; e2]; size_ := 1; capacity_ := 16 |}).
  set (m4 := {| table_ := t4; entries_ := [e1; e2; e3]; size_ := 2; capacity_ := 16 |}).
  assert (Hlen0 : length t0 = 16%nat) by done.
  assert (Hlen1 : length t1 = 16%nat) by (unfold t1; by rewrite length_insert).
  assert (Hlen2 : length t2 = 16%nat) by (unfold t2; by rewrite length_insert).
  assert (Hlen3 : length t3 = 16%nat) by (unfold t3; by rewrite length_insert).
  assert (Ht0a : t0 !! Z.to_nat i0 = Some new_slot)
    by (apply lookup_replicate_2; lia).
  assert (Ht1a : t1 !! Z.to_nat i0 = Some {| hash := h1; entry := Some 0%nat |})
    by (apply list_lookup_insert_eq; lia).
  assert (Ht1b : t1 !! Z.to_nat i1 = Some new_slot).
  { unfold t1. rewrite list_lookup_insert_ne by done. apply lookup_replicate_2. lia. }
  assert (Ht2a : t2 !! Z.to_nat i0 = Some {| hash := h1; entry := Some 0%nat |}).
  { unfold t2. by rewrite list_lookup_insert_ne by done. }
  assert (Ht2b : t2 !! Z.to_nat i1 = Some {| hash := h2; entry := Some 1%nat |})
    by (apply list_lookup_insert_eq; lia).
  assert (Ht3a : t3 !! Z.to_nat i0 = Some {| hash := EMPTY_HASH; entry := None |})
    by (apply list_lookup_insert_eq; lia).
  assert (Hp0 : ∀ m, capacity_ m = 16 → probe m i0 0 = i0).
  { intros m Hc. rewrite legacy_probe by (done || lia).
    rewrite Z.add_0_r. apply Z.mod_small. lia. }
  assert (Hp1 : ∀ m, capacity_ m = 16 → probe m i0 1 = i1).
  { intros m Hc. by rewrite legacy_probe by (done || lia). }
  destruct legacy_load_16 as [Hload0 Hload1].
  exists m0, (ptr_to 0), m1, (ptr_to 1), m2, m3, (ptr_to 2), m4.
  split.
  { unfold create. by destruct (Z.ltb_spec max_slots INITIAL_CAPACITY); [lia|]. }
  split.
  { unfold insert.
    change (load_exceeds (size_ m0) (capacity_ m0)) with (load_exceeds 0 16).
    rewrite Hload0. cbn [bind]. cbv zeta.
    rewrite legacy_home by done. fold h1 i0. change (Z.to_nat (capacity_ m0)) with 16%nat.
    rewrite (legacy_insert_at_empty _ _ _ _ _ _ m0 new_slot);
      rewrite ?Hp0 by done; done. }
  split.
  { unfold insert.
    change (load_exceeds (size_ m1) (capacity_ m1)) with (load_exceeds 1 16).
    rewrite Hload1. cbn [bind]. cbv zeta.
    rewrite legacy_home by done. fold h2. rewrite <- Hhome. fold i0.
    change (Z.to_nat (capacity_ m1)) with 16%nat.
    rewrite (legacy_insert_skip _ _ _ _ _ _ m1 {| hash := h1; entry := Some 0%nat |} 0%nat e1);
      rewrite ?Hp0 by done; try done.
    change (wrap64 (0 + 1)) with 1.
    rewrite (legacy_insert_at_empty _ _ _ _ _ _ m1 new_slot);
      rewrite ?Hp1 by done; done. }
  assert (Hfind2 : find_slot k2 h2 m2 = Some i1).
  { unfold find_slot. rewrite legacy_home by done. fold h2. rewrite <- Hhome. fold i0.
    change (Z.to_nat (capacity_ m2)) with 16%nat.
    rewrite (legacy_find_skip _ _ _ _ _ m2 {| hash := h1; entry := Some 0%nat |} 0%nat e1);
      rewrite ?Hp0 by done; try done.
    change (wrap64 (0 + 1)) with 1.
    rewrite (legacy_find_hit _ _ _ _ _ m2 {| hash := h2; entry := Some 1%nat |} 1%nat e2); rewrite ?Hp1 by done; done. }
  split.
  { unfold contains, find. fold h2. rewrite Hfind2. simpl.
    destruct (Z.eqb_spec i1 16); [lia|]. cbn [table_ m2]. by rewrite Ht2b. }
  split.
  { unfold erase. fold h1. unfold find_slot. rewrite legacy_home by done. fold i0.
    change (Z.to_nat (capacity_ m2)) with 16%nat.
    rewrite (legacy_find_hit _ _ _ _ _ m2 {| hash := h1; entry := Some 0%nat |} 0%nat e1); rewrite ?Hp0 by done; try done.
    cbn [capacity_ m2]. destruct (Z.eqb_spec i0 16); [lia|].
    cbn [table_ m2]. by rewrite Ht2a. }
  assert (Hfind3 : find_slot k2 h2 m3 = Some 16).
  { unfold find_slot. rewrite legacy_home by done. fold h2. rewrite <- Hhome. fold i0.
    change (Z.to_nat (capacity_ m3)) with 16%nat.
    rewrite (legacy_find_at_empty _ _ _ _ _ m3 {| hash := EMPTY_HASH; entry := None |});
      rewrite ?Hp0 by done; done. }
  split.
  { unfold contains, find. fold h2. by rewrite Hfind3. }
  split; [done|].
  split.
  { unfold erase. fold h2. by rewrite Hfind3. }
  split; [|done].
  unfold insert.
    change (load_exceeds (size_ m3) (capacity_ m3)) with (load_exceeds 1 16).
    rewrite Hload1. cbn [bind]. cbv zeta.
    rewrite legacy_home by done. fold h2. rewrite <- Hhome. fold i0.
  change (Z.to_nat (capacity_ m3)) with 16%nat.
  rewrite (legacy_insert_at_empty _ _ _ _ _ _ m3 {| hash := EMPTY_HASH; entry := None |});
    rewrite ?Hp0 by done; done.
Qed.
End LegacyFacts.

(** ** [next_power_of_2], the hashes and the probe sequence *)

(** The bits below the leading bit of [n - 1] are filled: the result is
    the power of two after the leading bit, reduced to 64 bits. *)
Lemma next_power_of_2_log2 n :
  1 < n < 2 ^ 64 → next_power_of_2 n = wrap64 (2 ^ (Z.log2 (n - 1) + 1)).
Proof.
  intros Hn. unfold next_power_of_2.
  destruct (Z.eqb_spec n 0) as [|Hn0]; [lia|].
  rewrite (wrap64_small (n - 1)) by lia. cbv zeta.
  set (m := n - 1) in *. set (l := Z.log2 m).
  assert (Hl : 0 ≤ l < 64).
  { split; [apply Z.log2_nonneg|]. apply Z.log2_lt_pow2; lia. }
  assert (H0 : top_run l 1 m).
  { split; intros i.
    - intros _ Hi. replace i with l by lia. apply Z.bit_log2. lia.
    - intros Hi. apply Z.bits_above_log2; lia. }
  apply (top_run_smear l 1 1) in H0; [|lia|lia].
  apply (top_run_smear l _ 2) in H0; [|lia|lia].
  apply (top_run_smear l _ 4) in H0; [|lia|lia].
  apply (top_run_smear l _ 8) in H0; [|lia|lia].
  apply (top_run_smear l _ 16) in H0; [|lia|lia].
  apply (top_run_smear l _ 32) in H0; [|lia|lia].
  apply top_run_ones in H0; [|lia]. rewrite H0.
  rewrite Z.ones_equiv. f_equal. lia.
Qed.

Lemma next_power_of_2_bounds n :
  0 ≤ n < 2 ^ 64 →
  (n ≤ 2 ^ 63 →
     ∃ p, 0 ≤ p ≤ 63 ∧ next_power_of_2 n = 2 ^ p ∧ n ≤ 2 ^ p
          ∧ ∀ q, 0 ≤ q → n ≤ 2 ^ q → 2 ^ p ≤ 2 ^ q)
  ∧ (2 ^ 63 < n → next_power_of_2 n = 0).
Proof.
  intros Hn.
  destruct (Z_le_gt_dec n 1) as [Hsmall|Hbig].
  { split; [|lia]. intros _. exists 0.
    assert (Hone : next_power_of_2 n = 1).
    { destruct (Z.eq_dec n 0) as [->|]; [done|]. by replace n with 1 by lia. }
    rewrite Hone. split; [lia|]. split; [done|]. split; [simpl; lia|].
    intros q Hq _. apply Z.pow_le_mono_r; lia. }
  rewrite next_power_of_2_log2 by lia.
  set (l := Z.log2 (n - 1)).
  assert (Hl : 0 ≤ l < 64).
  { split; [apply Z.log2_nonneg|]. apply Z.log2_lt_pow2; lia. }
  pose proof (Z.log2_spec (n - 1)) as Hspec. fold l in Hspec.
  rewrite <- Z.add_1_r in Hspec.
  split.
  - intros Hle. exists (l + 1).
    assert (Hl63 : l < 63).
    { destruct (Z_lt_le_dec l 63) as [|Hge]; [done|].
      assert (2 ^ 63 ≤ 2 ^ l) by (apply Z.pow_le_mono_r; lia). lia. }
    split; [lia|]. split.
    { apply wrap64_small. split; [apply Z.pow_nonneg; lia|].
      apply Z.pow_lt_mono_r; lia. }
    split; [lia|].
    intros q Hq Hnq. apply Z.pow_le_mono_r; [lia|].
    destruct (Z_lt_le_dec l q) as [|Hge]; [lia|].
    assert (2 ^ q ≤ 2 ^ l) by (apply Z.pow_le_mono_r; lia). lia.
  - intros Hgt.
    assert (l = 63) as ->.
    { destruct (Z_lt_le_dec l 63) as [Hlt|]; [|lia].
      assert (2 ^ (l + 1) ≤ 2 ^ 63) by (apply Z.pow_le_mono_r; lia). lia. }
    reflexivity.
Qed.


(** X1. [constants.hpp], [next_power_of_2]: for [n] up to [2^63] the
    result is the least power of two that is at least [n] (1 for 0); for a
    larger [n] the addition wraps around and the result is 0. *)
Theorem next_power_of_2_least n :
  0 ≤ n < 2 ^ 64 →
  (n ≤ 2 ^ 63 →
     ∃ p, 0 ≤ p ≤ 63 ∧ next_power_of_2 n = 2 ^ p ∧ n ≤ 2 ^ p
          ∧ ∀ q, 0 ≤ q → n ≤ 2 ^ q → 2 ^ p ≤ 2 ^ q)
  ∧ (2 ^ 63 < n → next_power_of_2 n = 0).
Proof. intros Hn. split; by apply next_power_of_2_bounds. Qed.

(** X2. [insert] and [erase], the two comparisons on doubles: for a table
    of [2^p] slots and counters below [2^53 - 1], the comparison of
    [(size + 1) / capacity] with 0.75 and that of
    [tombstone_count / capacity] with 0.25, computed in binary64, are the
    exact comparisons of the integers. *)
Theorem double_checks_are_exact size tombstone_count p :
  0 ≤ p ≤ 63 → 0 ≤ size < 2 ^ 53 - 1 → 0 ≤ tombstone_count < 2 ^ 53 →
  load_exceeds size (2 ^ p) = (3 * 2 ^ p <? 4 * (size + 1))
  ∧ tombstones_exceed tombstone_count (2 ^ p) = (2 ^ p <? 4 * tombstone_count).
Proof.
  intros Hp Hsize Htomb.
  split; [by apply load_exceeds_spec|by apply tombstones_exceed_spec].
Qed.

Section Hashes.
Context {Key Value : Type} `{!MapParams Key Value}.

(** X3. [make_hash]: the hash stored with a key is a [size_t] that is
    neither of the two markers, in both backends, so that the slot of a
    stored key is neither empty nor a tombstone; the hashes 0, 1 and 2 of
    the hasher are all stored as 2. *)
Theorem stored_hash_is_no_marker (key : Key) (value : Value) :
  2 ≤ Flat.hash_of key < 2 ^ 64
  ∧ Node.hash_of key = Flat.hash_of key
  ∧ Flat.is_empty (Flat.filled (Flat.hash_of key) key value) = false
  ∧ Flat.is_tombstone (Flat.filled (Flat.hash_of key) key value) = false
  ∧ (wrap64 (hash_fn key) ≤ 2 ↔ Flat.hash_of key = 2).
Proof.
  assert (Hw : 0 ≤ wrap64 (hash_fn key) < 2 ^ 64) by (apply Z.mod_pos_bound; lia).
  assert (Hh : 2 ≤ Flat.hash_of key < 2 ^ 64
               ∧ (wrap64 (hash_fn key) ≤ 2 ↔ Flat.hash_of key = 2)).
  { unfold Flat.hash_of, Flat.make_hash, EMPTY_HASH, TOMBSTONE_HASH.
    destruct (Z.eqb_spec (wrap64 (hash_fn key)) 0) as [->|];
      [simpl; lia|].
    destruct (Z.eqb_spec (wrap64 (hash_fn key)) 1) as [->|]; simpl; lia. }
  destruct Hh as [Hrange Htwo].
  split; [done|]. split; [done|].
  unfold Flat.is_empty, Flat.is_tombstone, EMPTY_HASH, TOMBSTONE_HASH. simpl.
  split; [apply Z.eqb_neq; lia|]. split; [apply Z.eqb_neq; lia|done].
Qed.

(** X4. [probe]: the probe sequence of both backends is linear (slot
    [(hash + i) mod capacity] at step [i], not quadratic), and in a table
    whose capacity is a power of two the [capacity] probes from the home
    slot of a hash visit every slot exactly once. *)
Theorem probe_sequence_visits_every_slot
    (f : Flat.FlatHashMap Key Value) (n : Node.NodeHashMap Key Value) h p :
  0 ≤ p ≤ 52 → Flat.capacity_ f = 2 ^ p → Node.capacity_ n = 2 ^ p →
  (∀ i, 0 ≤ i < 2 ^ p →
     Flat.probe f (Flat.home f h) i = (h + i) mod 2 ^ p
     ∧ Node.probe n (Node.home n h) i = (h + i) mod 2 ^ p)
  ∧ (∀ pos, 0 ≤ pos < 2 ^ p →
       ∃ i, 0 ≤ i < 2 ^ p ∧ Flat.probe f (Flat.home f h) i = pos
            ∧ ∀ j, 0 ≤ j < 2 ^ p → Flat.probe f (Flat.home f h) j = pos → j = i).
Proof.
  intros Hp Hc Hcn.
  assert (Hpos : 0 < 2 ^ p) by (apply pow2_pos; lia).
  assert (Hmax : 2 ^ p ≤ 2 ^ 52) by (apply Z.pow_le_mono_r; lia).
  assert (Hprobe : ∀ i, 0 ≤ i < 2 ^ p →
            Flat.probe f (Flat.home f h) i = slot_pos (2 ^ p) h i).
  { intros i Hi. unfold Flat.probe, Flat.home. rewrite Hc.
    apply probe_slot_pos; [|done|done]. exists p. split; [lia|done]. }
  split.
  { intros i Hi. split; [by apply Hprobe|].
    unfold Node.probe, Node.home. rewrite Hcn.
    apply probe_slot_pos; [|done|done]. exists p. split; [lia|done]. }
  intros pos Hrange. exists (displacement (2 ^ p) h pos).
  pose proof (displacement_range (2 ^ p) h pos Hpos) as Hd.
  split; [done|]. split.
  - rewrite Hprobe by done. by apply slot_pos_displacement.
  - intros j Hj Hjp. rewrite Hprobe in Hjp by done. subst pos.
    by rewrite displacement_slot_pos.
Qed.
End Hashes.

(** ** The capacity chosen by the sized constructors

    [expected_size / MAX_LOAD_FACTOR] is a division of doubles, rounded to
    the nearest double, and its conversion to [size_t] truncates. For an
    expected size below [2^51] the result is the integer quotient
    [4 * expected_size / 3]. *)

Lemma shr_fexp_53_loc mx e l :
  Z.pos (digits2_pos mx) = 53 → -1074 ≤ e →
  shr_fexp 53 1024 (Z.pos mx) e l = (shr_record_of_loc (Z.pos mx) l, e).
Proof.
  intros Hd He. unfold shr_fexp. cbv [Zdigits2]. rewrite Hd.
  replace (fexp 53 1024 (53 + e) - e) with 0 by (unfold fexp, emin; lia).
  reflexivity.
Qed.

Lemma shr_fexp_54_loc q e l :
  Z.pos (digits2_pos q) = 54 → -1075 ≤ e →
  shr_fexp 53 1024 (Z.pos q) e l = (shr_1 (shr_record_of_loc (Z.pos q) l), e + 1).
Proof.
  intros Hd He. unfold shr_fexp. cbv [Zdigits2]. rewrite Hd.
  replace (fexp 53 1024 (54 + e) - e) with 1 by (unfold fexp, emin; lia).
  reflexivity.
Qed.

Lemma digits_53 (m : positive) :
  2 ^ 52 ≤ Z.pos m < 2 ^ 53 → Z.pos (digits2_pos m) = 53.
Proof. intros Hm. by apply digits2_pos_unique. Qed.

(** Rounding a quotient of 53 digits: the mantissa is kept, or incremented
    when the remainder is more than half of the divisor. *)
Lemma round_quotient_53 (m : positive) e l :
  2 ^ 52 ≤ Z.pos m → Z.pos m + 1 < 2 ^ 53 → -1074 ≤ e ≤ 971 →
  l ≠ loc_Inexact Eq →
  binary_round_aux 53 1024 false (Z.pos m) e l
  = S754_finite false (match l with loc_Inexact Gt => m + 1 | _ => m end)%positive e.
Proof.
  intros Hlo Hhi He Hl. unfold binary_round_aux.
  rewrite shr_fexp_53_loc by (try apply digits_53; lia).
  assert (Hround : round_nearest_even (shr_m (shr_record_of_loc (Z.pos m) l))
                     (loc_of_shr_record (shr_record_of_loc (Z.pos m) l))
                   = Z.pos (match l with loc_Inexact Gt => m + 1 | _ => m end)%positive).
  { destruct l as [|[]]; try done. }
  rewrite Hround.
  rewrite shr_fexp_53 by (try apply digits_53; destruct l as [|[]]; lia).
  cbv [shr_m]. destruct (Z.leb_spec e (1024 - 53)); [done|lia].
Qed.

(** Rounding a quotient of 54 digits: the mantissa is halved, and the half
    is incremented only if the quotient was odd. *)
Lemma round_quotient_54 (q : positive) e l :
  2 ^ 53 ≤ Z.pos q → Z.pos q / 2 + 1 < 2 ^ 53 → -1075 ≤ e ≤ 970 →
  ∃ m1, binary_round_aux 53 1024 false (Z.pos q) e l = S754_finite false m1 (e + 1)
        ∧ (Z.pos m1 = Z.pos q / 2
           ∨ (Z.pos m1 = Z.pos q / 2 + 1 ∧ Z.odd (Z.pos q) = true)).
Proof.
  intros Hlo Hhi He.
  assert (Hd : Z.pos (digits2_pos q) = 54).
  { apply digits2_pos_unique. change (2 ^ (54 - 1)) with (2 ^ 53).
    change (2 ^ 54) with (2 * 2 ^ 53). pose proof (Z.div_mod (Z.pos q) 2).
    pose proof (Z.mod_pos_bound (Z.pos q) 2). lia. }
  unfold binary_round_aux. rewrite shr_fexp_54_loc by lia.
  destruct q as [p|p|]; [| |lia].
  - (* an odd quotient *)
    assert (Hhalf : Z.pos p~1 / 2 = Z.pos p).
    { symmetry. apply (Z.div_unique _ _ _ 1); lia. }
    rewrite Hhalf in *.
    assert (Hcases : ∃ m1 : positive,
              round_nearest_even
                (shr_m (shr_1 (shr_record_of_loc (Z.pos p~1) l)))
                (loc_of_shr_record (shr_1 (shr_record_of_loc (Z.pos p~1) l)))
              = Z.pos m1 ∧ (m1 = p ∨ m1 = (p + 1)%positive)).
    { destruct l as [|[]]; simpl.
      - destruct (match p with xO _ => true | _ => false end);
          [exists p|exists (p + 1)%positive]; auto.
      - exists (p + 1)%positive. auto.
      - exists (p + 1)%positive. auto.
      - exists (p + 1)%positive. auto. }
    destruct Hcases as (m1 & -> & Hm1).
    assert (Hm1r : 2 ^ 52 ≤ Z.pos m1 < 2 ^ 53).
    { change (2 ^ 53) with (2 * 2 ^ 52) in Hlo. destruct Hm1 as [-> | ->]; lia. }
    rewrite shr_fexp_53 by (try apply digits_53; lia). cbv [shr_m].
    exists m1. destruct (Z.leb_spec (e + 1) (1024 - 53)); [|lia].
    split; [done|]. destruct Hm1 as [-> | ->]; [by left|right]. split; [lia|done].
  - (* an even quotient *)
    assert (Hhalf : Z.pos p~0 / 2 = Z.pos p).
    { symmetry. apply (Z.div_unique _ _ _ 0); lia. }
    rewrite Hhalf in *.
    assert (Hround : round_nearest_even
                (shr_m (shr_1 (shr_record_of_loc (Z.pos p~0) l)))
                (loc_of_shr_record (shr_1 (shr_record_of_loc (Z.pos p~0) l)))
              = Z.pos p).
    { by destruct l as [|[]]. }
    rewrite Hround.
    assert (Hpr : 2 ^ 52 ≤ Z.pos p < 2 ^ 53).
    { change (2 ^ 53) with (2 * 2 ^ 52) in Hlo. lia. }
    rewrite shr_fexp_53 by (try apply digits_53; lia). cbv [shr_m].
    exists p. destruct (Z.leb_spec (e + 1) (1024 - 53)); [|lia]. by split; [|left].
Qed.

(** The division by 0.75 of a double that holds the integer [N], a
    multiple of four units in the last place, truncated to an integer. *)
Lemma divide_by_load_factor (mx : positive) ex N :
  Z.pos (digits2_pos mx) = 53 → -52 ≤ ex ≤ -2 → Z.pos mx = N * 2 ^ (- ex) →
  size_t_of_double (double_div (S754_finite false mx ex) MAX_LOAD_FACTOR)
  = Some (4 * N / 3).
Proof.
  intros Hd He HN.
  pose proof (digits2_pos_bounds mx) as Hmx. rewrite Hd in Hmx.
  change (2 ^ (53 - 1)) with 4503599627370496 in Hmx.
  change (2 ^ 53) with 9007199254740992 in Hmx.
  (* K = 2^(-ex) = 2 * K2 = 4 * K4 *)
  assert (HK2 : 2 ^ (- ex) = 2 * 2 ^ (- (ex + 1))).
  { rewrite <- Z.pow_succ_r by lia. f_equal. lia. }
  assert (HK4 : 2 ^ (- (ex + 1)) = 2 * 2 ^ (- (ex + 2))).
  { rewrite <- Z.pow_succ_r by lia. f_equal. lia. }
  assert (HK4pos : 0 < 2 ^ (- (ex + 2))) by (apply Z.pow_pos_nonneg; lia).
  set (K := 2 ^ (- ex)) in *. set (K2 := 2 ^ (- (ex + 1))) in *.
  set (K4 := 2 ^ (- (ex + 2))) in *.
  assert (HNpos : 0 < N) by nia.
  (* a = 4N / 3 *)
  pose proof (Z.div_mod (4 * N) 3) as Hab.
  pose proof (Z.mod_pos_bound (4 * N) 3) as Hb.
  set (a := 4 * N / 3) in *. set (b := (4 * N) mod 3) in *.
  assert (Ha : 0 ≤ a) by lia.
  assert (E : 4 * Z.pos mx = 3 * (K * a) + b * K) by nia.
  assert (Ez : Z.pos mx = 4 * (N * K4)) by nia.
  (* the quotient and the remainder *)
  unfold double_div, MAX_LOAD_FACTOR, SFdiv, SFdiv_core_binary.
  cbv [Zdigits2]. rewrite Hd.
  change (Z.pos (digits2_pos 6755399441055744)) with 53.
  replace (Z.min (fexp 53 1024 (53 + ex - (53 + -53))) (ex - -53)) with ex
    by (unfold fexp, emin; lia).
  replace (ex - -53 - ex) with 53 by lia.
  rewrite Z.shiftl_mul_pow2 by lia. change (2 ^ 53) with 9007199254740992.
  generalize (Z_div_mod (Z.pos mx * 9007199254740992) 6755399441055744).
  destruct Z.div_eucl as [q r]. intros [Hqr Hr]; [lia|].
  set (rho := 4 * Z.pos mx - 3 * q).
  assert (Hrho : r = 2251799813685248 * rho ∧ 0 ≤ rho < 3) by (unfold rho; lia).
  destruct Hrho as [Hr' Hrho].
  assert (Hq : 3 * q = 4 * Z.pos mx - rho) by (unfold rho; lia).
  assert (Hloc : new_location 6755399441055744 r ≠ loc_Inexact Eq).
  { assert (Hc : rho = 0 ∨ rho = 1 ∨ rho = 2) by lia.
    destruct Hc as [Hc|[Hc|Hc]]; rewrite Hr', Hc; vm_compute; discriminate. }
  (* the bounds of the quotient *)
  assert (Hlow : K * a ≤ q).
  { assert (Hc : b = 0 ∨ b = 1 ∨ b = 2) by lia.
    destruct Hc as [Hc|[Hc|Hc]]; rewrite Hc in E; lia. }
  assert (Hhigh : q + 1 < K * a + K).
  { assert (Hc : b = 0 ∨ b = 1 ∨ b = 2) by lia.
    destruct Hc as [Hc|[Hc|Hc]]; rewrite Hc in E; lia. }
  assert (Hat : a < 2 ^ 64).
  { assert (a < 9007199254740992) by nia.
    change (2 ^ 64) with 18446744073709551616. lia. }
  destruct q as [|qp|qp]; [lia| |lia].
  cbn [xorb].
  destruct (Z_lt_le_dec (Z.pos qp) 9007199254740992) as [Hsmall|Hlarge].
  - (* a quotient of 53 digits *)
    rewrite round_quotient_53;
      [|change (2 ^ 52) with 4503599627370496; lia
       |change (2 ^ 53) with 9007199254740992; lia|lia|done].
    set (m1 := match new_location 6755399441055744 r with
               | loc_Inexact Gt => (qp + 1)%positive
               | _ => qp
               end).
    assert (Hm1 : Z.pos qp ≤ Z.pos m1 ≤ Z.pos qp + 1).
    { unfold m1. destruct (new_location _ r) as [|[]]; lia. }
    unfold size_t_of_double.
    destruct (Z.leb_spec 0 ex); [lia|]. fold K.
    assert (Ht : Z.pos m1 / K = a).
    { symmetry. apply (Z.div_unique _ _ _ (Z.pos m1 - K * a)); lia. }
    rewrite Ht. by destruct (Z.ltb_spec a (2 ^ 64)); [|lia].
  - (* a quotient of 54 digits *)
    pose proof (Z.div_mod (Z.pos qp) 2) as Hhalf.
    pose proof (Z.mod_pos_bound (Z.pos qp) 2) as Hhalfr.
    destruct (round_quotient_54 qp ex (new_location 6755399441055744 r))
      as (m1 & -> & Hm1);
      [change (2 ^ 53) with 9007199254740992; lia
      |change (2 ^ 53) with 9007199254740992; lia|lia|].
    unfold size_t_of_double.
    destruct (Z.leb_spec 0 (ex + 1)); [lia|]. fold K2.
    assert (HKa : K * a = 2 * (K2 * a)) by (rewrite HK2; ring).
    assert (Ht : Z.pos m1 / K2 = a).
    { symmetry. apply (Z.div_unique _ _ _ (Z.pos m1 - K2 * a)); [left|lia].
      destruct Hm1 as [Hm1|[Hm1 Hodd]]; rewrite Hm1.
      - lia.
      - apply Z.odd_spec in Hodd as [k Hk]. lia. }
    rewrite Ht. by destruct (Z.ltb_spec a (2 ^ 64)); [|lia].
Qed.

(** [static_cast<size_t>(expected_size / MAX_LOAD_FACTOR)] *)
Lemma size_t_of_quotient N :
  0 ≤ N < 2 ^ 51 →
  size_t_of_double (double_div (double_of_size_t N) MAX_LOAD_FACTOR) = Some (4 * N / 3).
Proof.
  intros HN. destruct N as [|n|n]; [vm_compute; reflexivity| |lia].
  destruct (double_of_pos n) as (mx & -> & Hmx & Hdig).
  { change (2 ^ 53) with (4 * 2 ^ 51). lia. }
  pose proof (digits2_pos_bounds n) as [Hlo Hhi].
  set (d := Z.pos (digits2_pos n)) in *.
  assert (Hd : 1 ≤ d ≤ 51).
  { split; [lia|]. destruct (Z_le_gt_dec d 51); [done|].
    assert (2 ^ 51 ≤ 2 ^ (d - 1)) by (apply Z.pow_le_mono_r; lia). lia. }
  apply divide_by_load_factor; [done|lia|].
  rewrite Hmx. f_equal. f_equal. lia.
Qed.

(** The capacity chosen for an expected size below [2^51]. *)
Lemma sized_capacity_spec N :
  0 ≤ N < 2 ^ 51 →
  sized_capacity N = Some (next_power_of_2 (4 * N / 3))
  ∧ ∃ p, 0 ≤ p ≤ 52 ∧ next_power_of_2 (4 * N / 3) = 2 ^ p
         ∧ 4 * N / 3 ≤ 2 ^ p
         ∧ (∀ q, 0 ≤ q → 4 * N / 3 ≤ 2 ^ q → 2 ^ p ≤ 2 ^ q)
         ∧ (3 ≤ N → 4 * N ≤ 3 * 2 ^ p)
         ∧ (N = 1 → p = 0) ∧ (N = 2 → p = 1).
Proof.
  intros HN. unfold sized_capacity. rewrite size_t_of_quotient by done.
  split; [done|].
  pose proof (Z.div_mod (4 * N) 3) as Hab.
  pose proof (Z.mod_pos_bound (4 * N) 3) as Hb.
  set (a := 4 * N / 3) in *. set (b := (4 * N) mod 3) in *.
  assert (Ha : 0 ≤ a < 2 ^ 52) by (change (2 ^ 52) with (2 * 2 ^ 51); lia).
  destruct (next_power_of_2_bounds a) as [Hleast _].
  { change (2 ^ 64) with (4096 * 2 ^ 52). lia. }
  destruct Hleast as (p & Hp & Hc & Hle & Hmin).
  { change (2 ^ 63) with (2048 * 2 ^ 52). lia. }
  assert (Hp52 : p ≤ 52).
  { destruct (Z_le_gt_dec p 52); [done|].
    assert (2 ^ p ≤ 2 ^ 52) by (apply Hmin; lia).
    assert (2 ^ 53 ≤ 2 ^ p) by (apply Z.pow_le_mono_r; lia).
    change (2 ^ 53) with (2 * 2 ^ 52) in *. lia. }
  exists p. split; [lia|]. split; [done|]. split; [done|]. split; [done|].
  assert (Hcases : p = 0 ∨ p = 1 ∨ 2 ≤ p) by lia.
  assert (H1 : a ≤ 1 → p = 0).
  { intros Ha1. destruct (Z.eq_dec p 0); [done|].
    assert (2 ^ p ≤ 2 ^ 0) by (apply Hmin; [lia|simpl; lia]).
    assert (2 ^ 1 ≤ 2 ^ p) by (apply Z.pow_le_mono_r; lia).
    simpl in *. lia. }
  assert (H2 : a ≤ 2 → p ≤ 1).
  { intros Ha2. destruct (Z_le_gt_dec p 1); [done|].
    assert (2 ^ p ≤ 2 ^ 1) by (apply Hmin; [lia|simpl; lia]).
    assert (2 ^ 2 ≤ 2 ^ p) by (apply Z.pow_le_mono_r; lia).
    simpl in *. lia. }
  split; [|split].
  - intros HN3. destruct Hcases as [->|[->|Hp2]].
    + simpl in *. lia.
    + simpl in *. lia.
    + assert (Hp4 : 2 ^ p = 4 * 2 ^ (p - 2)).
      { replace p with (2 + (p - 2)) at 1 by lia. rewrite Z.pow_add_r by lia. done. }
      assert (0 < 2 ^ (p - 2)) by (apply Z.pow_pos_nonneg; lia). lia.
  - intros ->. apply H1. subst a. done.
  - intros ->. assert (p ≤ 1) by (apply H2; subst a; done).
    destruct (Z.eq_dec p 0) as [->|]; [|lia]. subst a. simpl in Hle. done.
Qed.

(** ** The calls of the public interface, in both backends *)

Section Calls.
Context {Key Value : Type} `{!MapParams Key Value}.
Implicit Types (f : Flat.FlatHashMap Key Value) (n : Node.NodeHashMap Key Value).

(** X5. [insert], round trip and frame: in both backends, on every map a
    program can hold, when [insert(key, value)] returns, [find(key)] yields
    [value] and [contains(key)] is true, and [find] and [contains] answer
    for every other key as they did before the call, also when the call
    rebuilt the table. *)
Theorem insert_stores_and_keeps_others f n (key : Key) (value : Value) :
  Flat.reachable f → Node.reachable n →
  (∀ r f', Flat.insert key value f = Returned r f' →
     Flat.find_value key f' = Some (Some value)
     ∧ Flat.contains key f' = Some true
     ∧ ∀ k, k ≠ key → Flat.find_value k f' = Flat.find_value k f
                      ∧ Flat.contains k f' = Flat.contains k f) ∧
  (∀ r n', Node.insert key value n = Returned r n' →
     Node.find_value key n' = Some (Some value)
     ∧ Node.contains key n' = Some true
     ∧ ∀ k, k ≠ key → Node.find_value k n' = Node.find_value k n
                      ∧ Node.contains k n' = Node.contains k n).
Proof.
  intros Hf Hn. split.
  - intros r f' Hins.
    by destruct (flat_insert_facts f key value r f' Hf Hins) as (_ & ? & ? & _ & _ & ?).
  - intros r n' Hins.
    by destruct (node_insert_facts n key value r n' Hn Hins) as (_ & ? & ? & _ & _ & ?).
Qed.

(** X6. [insert], the returned pair: in both backends, on every map a
    program can hold, the pointer returned by [insert(key, value)] points
    to [value], the flag is true exactly when the key was not contained
    before the call, and [size()] grows by one in that case and stays as it
    was otherwise. *)
Theorem insert_reports_new_keys f n (key : Key) (value : Value) :
  Flat.reachable f → Node.reachable n →
  (∀ p inserted f', Flat.insert key value f = Returned (p, inserted) f' →
     Flat.deref p f' = Some value
     ∧ Flat.contains key f = Some (negb inserted)
     ∧ Flat.size f' = Flat.size f + (if inserted then 1 else 0)) ∧
  (∀ p inserted n', Node.insert key value n = Returned (p, inserted) n' →
     Node.deref p n' = Some value
     ∧ Node.contains key n = Some (negb inserted)
     ∧ Node.size n' = Node.size n + (if inserted then 1 else 0)).
Proof.
  intros Hf Hn. split.
  - intros p inserted f' Hins.
    by destruct (flat_insert_facts f key value _ f' Hf Hins) as (? & _ & _ & ? & ? & _).
  - intros p inserted n' Hins.
    by destruct (node_insert_facts n key value _ n' Hn Hins) as (? & _ & _ & ? & ? & _).
Qed.

(** X7. [erase]: in both backends, on every map a program can hold,
    [erase(key)] returns (it never throws); its result tells whether the
    key was contained; afterwards the key is not contained, [size()] has
    dropped by one if it was, the capacity is unchanged, and [find] and
    [contains] answer for every other key as before, also when the call
    rebuilt the table to drop the tombstones. *)
Theorem erase_removes_and_keeps_others f n (key : Key) :
  Flat.reachable f → Node.reachable n →
  (∃ erased f',
     Flat.erase key f = Returned erased f'
     ∧ Flat.contains key f = Some erased
     ∧ Flat.contains key f' = Some false
     ∧ Flat.find_value key f' = Some None
     ∧ Flat.size f' = Flat.size f - (if erased then 1 else 0)
     ∧ Flat.capacity f' = Flat.capacity f
     ∧ ∀ k, k ≠ key → Flat.find_value k f' = Flat.find_value k f
                      ∧ Flat.contains k f' = Flat.contains k f) ∧
  (∃ erased n',
     Node.erase key n = Returned erased n'
     ∧ Node.contains key n = Some erased
     ∧ Node.contains key n' = Some false
     ∧ Node.find_value key n' = Some None
     ∧ Node.size n' = Node.size n - (if erased then 1 else 0)
     ∧ Node.capacity n' = Node.capacity n
     ∧ ∀ k, k ≠ key → Node.find_value k n' = Node.find_value k n
                      ∧ Node.contains k n' = Node.contains k n).
Proof.
  intros Hf Hn. split; [by apply flat_erase_facts|by apply node_erase_facts].
Qed.

(** X8. [clear]: in both backends, on every map a program can hold,
    [clear()] returns a map of the same capacity with [size()] 0, no
    tombstone and no key contained; the indirect backend releases all its
    entries. *)
Theorem clear_empties_and_keeps_capacity f n :
  Flat.reachable f → Node.reachable n →
  (∃ f', Flat.clear f = Returned tt f'
         ∧ Flat.size f' = 0 ∧ Flat.empty f' = true
         ∧ Flat.capacity f' = Flat.capacity f
         ∧ Flat.tombstone_count_ f' = 0
         ∧ ∀ k : Key, Flat.contains k f' = Some false
                      ∧ Flat.find_value k f' = Some None) ∧
  (∃ n', Node.clear n = Returned tt n'
         ∧ Node.size n' = 0 ∧ Node.empty n' = true
         ∧ Node.capacity n' = Node.capacity n
         ∧ Node.tombstone_count_ n' = 0
         ∧ Node.entries_ n' = []
         ∧ ∀ k : Key, Node.contains k n' = Some false
                      ∧ Node.find_value k n' = Some None).
Proof.
  intros Hf Hn. split.
  - destruct (flat_clear_facts f Hf) as (f' & Hret & Hsize & Hcap & Htomb & Hnone).
    exists f'. unfold Flat.empty. unfold Flat.size in Hsize. rewrite Hsize. done.
  - destruct (node_clear_facts n Hn) as (n' & Hret & Hsize & Hcap & Htomb & Hes & Hnone).
    exists n'. unfold Node.empty. unfold Node.size in Hsize. rewrite Hsize. done.
Qed.

(** X9. [operator[]]: in both backends, on every map a program can hold,
    when [operator[](key)] returns, the reference it returns is to the
    value [find(key)] now yields; that value is the one stored before the
    call, with [size()] unchanged, or, for a key that was not contained,
    the value-initialised [Value{}], with [size()] grown by one; [find]
    answers for every other key as before. *)
Theorem index_finds_or_inserts_default f n (key : Key) :
  Flat.reachable f → Node.reachable n →
  (∀ p f', Flat.index key f = Returned p f' →
     ∃ v, Flat.deref p f' = Some v
          ∧ Flat.find_value key f' = Some (Some v)
          ∧ ((Flat.find_value key f = Some (Some v) ∧ Flat.size f' = Flat.size f)
             ∨ (Flat.find_value key f = Some None ∧ v = default_value
                ∧ Flat.size f' = Flat.size f + 1))
          ∧ ∀ k, k ≠ key → Flat.find_value k f' = Flat.find_value k f) ∧
  (∀ p n', Node.index key n = Returned p n' →
     ∃ v, Node.deref p n' = Some v
          ∧ Node.find_value key n' = Some (Some v)
          ∧ ((Node.find_value key n = Some (Some v) ∧ Node.size n' = Node.size n)
             ∨ (Node.find_value key n = Some None ∧ v = default_value
                ∧ Node.size n' = Node.size n + 1))
          ∧ ∀ k, k ≠ key → Node.find_value k n' = Node.find_value k n).
Proof.
  intros Hf Hn. split.
  - intros p f' Hidx. by apply (flat_index_facts f key p f').
  - intros p n' Hidx. by apply (node_index_facts n key p n').
Qed.

(** X10. The capacity never shrinks: in both backends, a call of the
    public interface on a map a program can hold leaves the capacity as it
    was or doubles it, whether the call returns or throws. *)
Theorem capacity_only_doubles f n (c : call Key Value) :
  Flat.reachable f → Node.reachable n →
  (∀ f', leaves (Flat.step c f) f' →
     Flat.capacity f' = Flat.capacity f ∨ Flat.capacity f' = 2 * Flat.capacity f) ∧
  (∀ n', leaves (Node.step c n) n' →
     Node.capacity n' = Node.capacity n ∨ Node.capacity n' = 2 * Node.capacity n).
Proof.
  intros Hf Hn. split.
  - intros f' Hleaves. by apply (flat_step_capacity f c f').
  - intros n' Hleaves. by apply (node_step_capacity n c n').
Qed.


(** X12. [empty()]: in both backends, on every map a program can hold,
    [empty()] is true exactly when no key is contained. *)
Theorem empty_iff_no_key f n :
  Flat.reachable f → Node.reachable n →
  (Flat.empty f = true ↔ ∀ k : Key, Flat.contains k f = Some false) ∧
  (Node.empty n = true ↔ ∀ k : Key, Node.contains k n = Some false).
Proof.
  intros Hf Hn. split; [by apply flat_empty_no_key|by apply node_empty_no_key].
Qed.
End Calls.

(** ** The tables and the finite map they implement *)

Section Refinement.
Context {Key Value : Type} `{!MapParams Key Value}.
Implicit Types (f : Flat.FlatHashMap Key Value) (n : Node.NodeHashMap Key Value).
Implicit Types (s : model (Key := Key) (Value := Value)).

Lemma contains_of_find_value f (key : Key) r :
  Flat.find_value key f = Some r →
  Flat.contains key f = Some (match r with Some _ => true | None => false end).
Proof.
  unfold Flat.find_value, Flat.contains.
  destruct (Flat.find key f) as [[|pos]|]; simpl; [by intros [= <-]| |done].
  destruct (Flat.table_ f !! Z.to_nat pos) as [slot|]; simpl; [|done].
  destruct (Flat.value_storage slot); simpl; [by intros [= <-]|done].
Qed.

Lemma model_has_contains f s (key : Key) :
  (∀ k, Flat.find_value k f = Some (s k)) →
  Flat.contains key f = Some (model_has key s).
Proof. intros Hrep. by rewrite (contains_of_find_value f key (s key)). Qed.

(** A call that returns lets the caller observe what the finite map
    answers, and leaves a table that reads as the finite map it leaves. *)
Lemma flat_step_model f (c : call Key Value) s o f1 :
  Flat.reachable f →
  (∀ k, Flat.find_value k f = Some (s k)) →
  Flat.step c f = Returned o f1 →
  o = fst (model_step c s) ∧ ∀ k, Flat.find_value k f1 = Some (snd (model_step c s) k).
Proof.
  intros Hreach Hrep Hstep.
  destruct c as [key value|key| |key|key|key]; unfold Flat.step in Hstep; simpl.
  - destruct (Flat.insert key value f) as [r f'| | |] eqn:Hins; try done.
    simpl in Hstep.
    destruct (flat_insert_facts f key value r f' Hreach Hins)
      as (Hp & Hfind & _ & Hc & _ & Hframe).
    rewrite Hp in Hstep. simplify_eq. split.
    + f_equal. rewrite (model_has_contains f s key Hrep) in Hc.
      injection Hc as Hc. rewrite Hc. by destruct (snd r).
    + intros k. unfold model_insert. case_bool_decide as Hk; [by subst|].
      destruct (Hframe k Hk) as [-> _]. apply Hrep.
  - destruct (flat_erase_facts f key Hreach)
      as (erased & f' & Hret & Hc & _ & Hfind & _ & _ & Hframe).
    rewrite Hret in Hstep. simpl in Hstep. simplify_eq. split.
    + f_equal. rewrite (model_has_contains f s key Hrep) in Hc. by injection Hc.
    + intros k. unfold model_erase. case_bool_decide as Hk; [by subst|].
      destruct (Hframe k Hk) as [-> _]. apply Hrep.
  - destruct (flat_clear_facts f Hreach) as (f' & Hret & _ & _ & _ & Hnone).
    rewrite Hret in Hstep. simpl in Hstep. simplify_eq. split; [done|].
    intros k. apply Hnone.
  - destruct (Flat.index key f) as [p f'| | |] eqn:Hidx; try done.
    simpl in Hstep.
    destruct (flat_index_facts f key p f' Hreach Hidx)
      as (v & Hp & Hfind & Hcase & Hframe).
    rewrite Hp in Hstep. simplify_eq.
    destruct Hcase as [[Hold _]|(Hold & -> & _)];
      rewrite (Hrep key) in Hold; injection Hold as Hold; rewrite Hold; simpl.
    + split; [done|]. intros k. destruct (decide (k = key)) as [->|Hk].
      * by rewrite Hfind, Hold.
      * rewrite (Hframe k Hk). apply Hrep.
    + split; [done|]. intros k. unfold model_insert.
      case_bool_decide as Hk; [by subst|].
      rewrite (Hframe k Hk). apply Hrep.
  - rewrite (Hrep key) in Hstep. by simplify_eq.
  - rewrite (model_has_contains f s key Hrep) in Hstep. by simplify_eq.
Qed.

Lemma flat_run_model (cs : list (call Key Value)) f s os f' :
  Flat.reachable f → 0 < Flat.capacity f →
  (∀ k, Flat.find_value k f = Some (s k)) →
  Flat.run cs f = Returned os f' →
  os = fst (model_run cs s) ∧ ∀ k, Flat.find_value k f' = Some (snd (model_run cs s) k).
Proof.
  revert f s os. induction cs as [|c cs IH]; intros f s os Hreach Hcap Hrep; simpl.
  { by intros [= <- <-]. }
  assert (Hinv : Flat.invariant f).
  { destruct (reachable_invariant f Hreach) as [|Hm]; [done|].
    rewrite Hm in Hcap. unfold Flat.capacity in Hcap. simpl in Hcap. lia. }
  destruct (step_ok c f Hinv) as [->|(o & f1 & Hstep & Hinv1)]; [done|].
  rewrite Hstep.
  destruct (flat_step_model f c s o f1 Hreach Hrep Hstep) as [Ho Hrep1].
  assert (Hreach1 : Flat.reachable f1).
  { apply (Flat.reachable_step c f); [done|]. left. by exists o. }
  pose proof (capacity_pos f1 (Flat.inv_table f1 Hinv1)) as Hcap1.
  destruct (Flat.run cs f1) as [os1 f2| | |] eqn:Hrun; try done.
  simpl. intros [= <- <-].
  destruct (model_step c s) as [o' s1]. simpl in Ho, Hrep1. subst o'.
  destruct (IH f1 s1 os1 Hreach1) as [Hos Hrep2]; [unfold Flat.capacity; lia|done|done|].
  destruct (model_run cs s1) as [os' s2]. simpl in *. by subst.
Qed.

Lemma node_run_model (cs : list (call Key Value)) n s os n' :
  Node.reachable n → 0 < Node.capacity n →
  (∀ k, Node.find_value k n = Some (s k)) →
  Node.run cs n = Returned os n' →
  os = fst (model_run cs s) ∧ ∀ k, Node.find_value k n' = Some (snd (model_run cs s) k).
Proof.
  intros (f & Hf & Hrel)%node_reachable_related Hcap Hrep Hrun.
  pose proof (sim_run cs f n Hrel) as Hsim. rewrite Hrun in Hsim.
  destruct (Flat.run cs f) as [os0 f'| | |] eqn:Hfrun; try done.
  destruct Hsim as [Hsim' [-> [_ Hsim1]]]. destruct Hrel as [_ Hsim0].
  destruct (flat_run_model cs f s os f' Hf) as [Hos Hrep']; try done.
  - unfold Flat.capacity, Node.capacity in *. by rewrite (sim_capacity f n Hsim0).
  - intros k. rewrite (sim_find_value f n) by done. apply Hrep.
  - split; [done|]. intros k. rewrite <- (sim_find_value f' n') by done. apply Hrep'.
Qed.

(** X20. Both backends implement a finite map. On a map a program can
    hold, with a table, every sequence of calls of the public interface
    that returns lets the caller observe exactly what a finite map with the
    same content answers to the same calls (the flags and values of
    [insert], the results of [erase], [find], [contains] and
    [operator[]]), and [find] reads in the table left behind the content of
    the finite map left behind. *)
Theorem tables_refine_finite_map f n (cs : list (call Key Value)) :
  Flat.reachable f → Node.reachable n →
  0 < Flat.capacity f → 0 < Node.capacity n →
  (∀ os f', Flat.run cs f = Returned os f' →
     os = fst (model_run cs (flat_view f))
     ∧ ∀ k, flat_view f' k = snd (model_run cs (flat_view f)) k) ∧
  (∀ os n', Node.run cs n = Returned os n' →
     os = fst (model_run cs (node_view n))
     ∧ ∀ k, node_view n' k = snd (model_run cs (node_view n)) k).
Proof.
  intros Hf Hn Hcf Hcn. split.
  - intros os f' Hrun.
    destruct (flat_run_model cs f (flat_view f) os f' Hf Hcf) as [Hos Hrep]; [|done|].
    + intros k. unfold flat_view.
      destruct (reachable_invariant f Hf) as [Hinv|Hm].
      * by destruct (find_value_total f k (Flat.inv_table f Hinv)) as [r ->].
      * by rewrite Hm.
    + split; [done|]. intros k. unfold flat_view at 1. by rewrite Hrep.
  - intros os n' Hrun.
    destruct (node_run_model cs n (node_view n) os n' Hn Hcn) as [Hos Hrep]; [|done|].
    + intros k. unfold node_view.
      destruct (node_reachable_related n Hn) as (f0 & Hf0 & _ & Hsim0).
      rewrite <- (sim_find_value f0 n) by done.
      destruct (reachable_invariant f0 Hf0) as [Hinv|Hm].
      * by destruct (find_value_total f0 k (Flat.inv_table f0 Hinv)) as [r ->].
      * by rewrite Hm.
    + split; [done|]. intros k. unfold node_view at 1. by rewrite Hrep.
Qed.

Lemma fresh_find_value c (key : Key) :
  (∃ p, 0 ≤ p ∧ c = 2 ^ p) → c ≤ max_slots →
  Flat.find_value key
    {| Flat.table_ := replicate (Z.to_nat c) Flat.new_slot;
       Flat.size_ := 0; Flat.capacity_ := c; Flat.tombstone_count_ := 0 |}
  = Some None.
Proof.
  intros Hpow Hmax. pose proof (fresh_invariant c Hpow Hmax) as Hinv.
  apply find_value_absent; [apply Hinv|].
  intros v (pos & slot & Hslot & Hocc & _). simpl in Hslot.
  apply lookup_replicate in Hslot as [-> _]. done.
Qed.

(** X21. The default constructors build the empty finite map: in both
    backends, a sequence of calls on a default-constructed map that returns
    lets the caller observe exactly what the same calls observe on the
    empty finite map, and leaves a table in which [find] reads the finite
    map these calls build. *)
Theorem fresh_tables_are_empty_maps (cs : list (call Key Value)) :
  (∀ os f', (after Flat.create as _u on f then Flat.run cs f) = Returned os f' →
     os = fst (model_run cs model_empty)
     ∧ ∀ k, Flat.find_value k f' = Some (snd (model_run cs model_empty) k)) ∧
  (∀ os n', (after Node.create as _u on n then Node.run cs n) = Returned os n' →
     os = fst (model_run cs model_empty)
     ∧ ∀ k, Node.find_value k n' = Some (snd (model_run cs model_empty) k)).
Proof.
  assert (Hpow : ∃ p, 0 ≤ p ∧ INITIAL_CAPACITY = 2 ^ p) by by exists 4.
  split.
  - intros os f'. destruct Flat.create as [[] f| | |] eqn:Hcreate; try done. simpl.
    assert (Hf : Flat.reachable f) by by apply Flat.reachable_create.
    unfold Flat.create in Hcreate.
    destruct (Z.ltb_spec max_slots INITIAL_CAPACITY); [done|]. injection Hcreate as <-.
    apply flat_run_model; [done|done|].
    intros k. by apply fresh_find_value.
  - intros os n'. destruct Node.create as [[] n| | |] eqn:Hcreate; try done. simpl.
    assert (Hn : Node.reachable n) by by apply Node.reachable_create.
    pose proof (sim_create (Key := Key) (Value := Value)) as Hsim.
    rewrite Hcreate in Hsim.
    destruct Flat.create as [[] f| | |] eqn:Hfc; try done. destruct Hsim as [Hsim _].
    unfold Node.create in Hcreate.
    destruct (Z.ltb_spec max_slots INITIAL_CAPACITY); [done|]. injection Hcreate as <-.
    apply node_run_model; [done|done|].
    intros k. rewrite <- (sim_find_value f _ k Hsim).
    unfold Flat.create in Hfc.
    destruct (Z.ltb_spec max_slots INITIAL_CAPACITY); [done|]. injection Hfc as <-.
    by apply fresh_find_value.
Qed.
End Refinement.

(** ** Growth, rebuilding and the shape of the tables *)

Section Tables.
Context {Key Value : Type} `{!MapParams Key Value}.
Implicit Types (f : Flat.FlatHashMap Key Value) (n : Node.NodeHashMap Key Value).



Lemma flat_rehash_lookups f new_capacity :
  Flat.reachable f → 0 < Flat.capacity f →
  (∃ p, 0 ≤ p ∧ new_capacity = 2 ^ p) →
  Flat.size f < new_capacity → new_capacity ≤ max_slots →
  ∃ f', Flat.rehash new_capacity f = Returned tt f'
        ∧ Flat.invariant f ∧ Flat.table_ok f'
        ∧ Flat.capacity f' = new_capacity
        ∧ Flat.size f' = Flat.size f
        ∧ Flat.tombstone_count_ f' = 0
        ∧ ∀ k, Flat.find_value k f' = Flat.find_value k f
               ∧ Flat.contains k f' = Flat.contains k f.
Proof.
  intros Hreach Hcap Hpow Hroom Hmax.
  assert (Hinv : Flat.invariant f).
  { destruct (reachable_invariant f Hreach) as [|Hm]; [done|].
    rewrite Hm in Hcap. unfold Flat.capacity in Hcap. simpl in Hcap. lia. }
  pose proof (Flat.inv_table f Hinv) as Hok.
  destruct (rehash_ok new_capacity f Hok Hpow Hmax) as
    (f' & Hre & Hok' & Hc' & Hs' & Ht' & _ & _ & Hst).
  { rewrite <- (Flat.inv_size f Hinv). done. }
  exists f'. split; [done|]. split; [done|]. split; [done|]. split; [done|].
  split; [done|]. split; [done|]. intros k. split.
  - apply find_value_ext; [done|done|]. intros v. apply Hst.
  - apply contains_ext; [done|done|]. intros v. apply Hst.
Qed.

(** X14. [rehash]: in both backends, rebuilding the table of a map a
    program can hold, in a table of any power-of-two capacity that exceeds
    [size()] and can be allocated, returns a map of that capacity with the
    same [size()], no tombstone, and the same answer of [find] and
    [contains] for every key; the indirect backend keeps its entries where
    they are. *)
Theorem rehash_preserves_lookups f n new_capacity :
  Flat.reachable f → Node.reachable n →
  0 < Flat.capacity f → 0 < Node.capacity n →
  (∃ p, 0 ≤ p ∧ new_capacity = 2 ^ p) →
  Flat.size f < new_capacity → Node.size n < new_capacity →
  new_capacity ≤ max_slots →
  (∃ f', Flat.rehash new_capacity f = Returned tt f'
         ∧ Flat.capacity f' = new_capacity
         ∧ Flat.size f' = Flat.size f
         ∧ Flat.tombstone_count_ f' = 0
         ∧ ∀ k, Flat.find_value k f' = Flat.find_value k f
                ∧ Flat.contains k f' = Flat.contains k f) ∧
  (∃ n', Node.rehash new_capacity n = Returned tt n'
         ∧ Node.capacity n' = new_capacity
         ∧ Node.size n' = Node.size n
         ∧ Node.tombstone_count_ n' = 0
         ∧ Node.entries_ n' = Node.entries_ n
         ∧ ∀ k, Node.find_value k n' = Node.find_value k n
                ∧ Node.contains k n' = Node.contains k n).
Proof.
  intros Hf (f0 & Hf0 & _ & Hsim0)%node_reachable_related Hcf Hcn Hpow Hsf Hsn Hmax.
  split.
  - destruct (flat_rehash_lookups f new_capacity Hf Hcf Hpow Hsf Hmax)
      as (f' & Hre & _ & _ & H). by exists f'.
  - unfold Flat.capacity, Flat.size, Node.capacity, Node.size in *.
    destruct (flat_rehash_lookups f0 new_capacity Hf0) as
      (f' & Hre & _ & _ & Hc & Hs & Ht & Hsame); try done.
    { unfold Flat.capacity. by rewrite (sim_capacity f0 n Hsim0). }
    { unfold Flat.size. by rewrite (sim_size f0 n Hsim0). }
    pose proof (sim_rehash f0 n new_capacity Hsim0) as Hsim. rewrite Hre in Hsim.
    destruct (Node.rehash new_capacity n) as [[] n'| | |]; try done.
    destruct Hsim as [Hsim' Hes]. exists n'. split; [done|].
    unfold Flat.capacity, Flat.size in *.
    rewrite <- (sim_capacity f' n' Hsim'), <- (sim_size f' n' Hsim'),
      <- (sim_tombstones f' n' Hsim'), <- (sim_size f0 n Hsim0).
    split; [done|]. split; [done|]. split; [done|]. split; [done|].
    intros k. destruct (Hsame k) as [Hfv Hct].
    rewrite <- (sim_find_value f' n'), <- (sim_find_value f0 n) by done.
    by rewrite <- (sim_contains f' n'), <- (sim_contains f0 n) by done.
Qed.

(** X15. A moved-from [FlatHashMap] can be read but not written: the
    source of a move construction or of a move assignment has [size()] 0
    and capacity 0; [find] returns null, [contains] and [erase] return
    false and [clear] returns, all leaving it as it is; [insert] and
    [operator[]] throw "Hash table is full", since doubling the capacity 0
    gives a table of no slot. *)
Theorem flat_moved_from_is_read_only f f0 (key : Key) (value : Value) :
  0 ≤ max_slots →
  snd (Flat.move_assign f0 f) = snd (Flat.move_construct f) ∧
  fst (Flat.move_construct f) = f ∧
  let src := snd (Flat.move_construct f) in
  Flat.size src = 0 ∧ Flat.capacity src = 0
  ∧ Flat.find_value key src = Some None
  ∧ Flat.contains key src = Some false
  ∧ Flat.erase key src = Returned false src
  ∧ Flat.clear src = Returned tt src
  ∧ Flat.insert key value src = TableFull src
  ∧ Flat.index key src = TableFull src.
Proof.
  intros Hmax. split; [done|]. split; [done|]. cbv zeta.
  change (snd (Flat.move_construct f)) with (Flat.moved_from : Flat.FlatHashMap Key Value).
  assert (Hins : ∀ v : Value, Flat.insert key v Flat.moved_from = TableFull Flat.moved_from).
  { intros v. unfold Flat.insert.
    change (load_exceeds (Flat.size_ Flat.moved_from) (Flat.capacity_ Flat.moved_from))
      with (load_exceeds 0 0).
    rewrite load_exceeds_no_table. simpl orb. cbv iota. unfold Flat.rehash.
    change (wrap64 (Flat.capacity_ Flat.moved_from * 2)) with 0.
    by destruct (Z.ltb_spec max_slots 0); [lia|]. }
  do 6 (split; [done|]). split; [apply Hins|].
  unfold Flat.index.
  change (Flat.find_slot key (Flat.hash_of key) Flat.moved_from) with (Some 0).
  simpl negb. cbv iota. by rewrite Hins.
Qed.

(** X16. Pointers into a [NodeHashMap] stay valid: a pointer to the value
    of an entry of the backing store still points to the same value after
    [insert] of any key (unless it is the pointer the call returns, whose
    value the call sets), also when the call rebuilds the table, after
    [erase] of any key, the entry's own key included, and after [rehash]. *)
Theorem node_pointers_stay_valid n (owner : nat) (v : Value) :
  Node.deref (ptr_to (Z.of_nat owner)) n = Some v →
  (∀ (key : Key) value r n',
     Node.insert key value n = Returned r n' →
     fst r ≠ ptr_to (Z.of_nat owner) →
     Node.deref (ptr_to (Z.of_nat owner)) n' = Some v) ∧
  (∀ (key : Key) erased n',
     Node.erase key n = Returned erased n' →
     Node.deref (ptr_to (Z.of_nat owner)) n' = Some v) ∧
  (∀ new_capacity n',
     Node.rehash new_capacity n = Returned tt n' →
     Node.deref (ptr_to (Z.of_nat owner)) n' = Some v).
Proof.
  unfold Node.deref. rewrite !Nat2Z.id. intros Hv. split; [|split].
  - intros key value [p inserted] n' Hins Hp. simpl in Hp.
    pose proof (insert_entries key value n p inserted n' Hins) as Hes.
    destruct inserted.
    + destruct Hes as [_ ->].
      destruct (Node.entries_ n !! owner) as [e|] eqn:He; [|done].
      by rewrite (lookup_app_l_Some _ _ _ _ He).
    + destruct Hes as (o & e & -> & _ & _ & ->).
      rewrite list_lookup_insert_ne; [done|]. intros ->. done.
  - intros key erased n' Hera. by rewrite (erase_entries key n erased n' Hera).
  - intros new_capacity n' Hre. by rewrite (rehash_entries new_capacity n n' Hre).
Qed.

(** X17. The entries of a [NodeHashMap] are released by [clear] only: on
    every map a program can hold, the backing store holds at least
    [size()] entries; [erase] leaves the store as it is, so that the entry
    of an erased key stays allocated; [insert] appends one entry when it
    reports a new key and none otherwise. *)
Theorem node_entries_grow_until_clear n (key : Key) (value : Value) :
  Node.reachable n →
  Node.size n ≤ Z.of_nat (length (Node.entries_ n)) ∧
  (∀ erased n', Node.erase key n = Returned erased n' →
     Node.entries_ n' = Node.entries_ n) ∧
  (∀ p inserted n', Node.insert key value n = Returned (p, inserted) n' →
     length (Node.entries_ n')
     = (length (Node.entries_ n) + (if inserted then 1 else 0))%nat) ∧
  (∀ n', Node.clear n = Returned tt n' → Node.entries_ n' = []).
Proof.
  intros Hn. split; [by apply node_size_entries|]. split; [|split].
  - intros erased n' Hera. by apply (erase_entries key n erased n').
  - intros p inserted n' Hins.
    pose proof (insert_entries key value n p inserted n' Hins) as Hes.
    destruct inserted.
    + destruct Hes as [_ ->]. by rewrite length_app.
    + destruct Hes as (o & e & _ & _ & _ & ->). rewrite length_insert. lia.
  - by intros n' [= <-].
Qed.

Lemma count_Forall2 {A B} (R : A → B → Prop) (g : A → bool) (h : B → bool) l1 l2 :
  Forall2 R l1 l2 → (∀ x y, R x y → g x = h y) → count g l1 = count h l2.
Proof.
  intros Hall Hgh. induction Hall as [|x y l1 l2 Hxy _ IH]; [done|].
  by rewrite !count_cons, IH, (Hgh x y Hxy).
Qed.

(** X18. The shape of the tables: in both backends, on every map a
    program can hold, the capacity is 0 or a power of two that can be
    allocated, the table has [capacity] slots, [size_] counts the slots
    that hold a key, [tombstone_count_] counts the tombstones, and the two
    together never exceed the capacity. *)
Theorem reachable_table_shape f n :
  Flat.reachable f → Node.reachable n →
  ((Flat.capacity f = 0 ∨ ∃ p, 0 ≤ p ≤ 52 ∧ Flat.capacity f = 2 ^ p
                               ∧ Flat.capacity f ≤ max_slots)
   ∧ Z.of_nat (length (Flat.table_ f)) = Flat.capacity f
   ∧ Flat.size f = count Flat.occupied (Flat.table_ f)
   ∧ Flat.tombstone_count_ f = count Flat.is_tombstone (Flat.table_ f)
   ∧ 0 ≤ Flat.size f ∧ 0 ≤ Flat.tombstone_count_ f
   ∧ Flat.size f + Flat.tombstone_count_ f ≤ Flat.capacity f) ∧
  ((Node.capacity n = 0 ∨ ∃ p, 0 ≤ p ≤ 52 ∧ Node.capacity n = 2 ^ p
                               ∧ Node.capacity n ≤ max_slots)
   ∧ Z.of_nat (length (Node.table_ n)) = Node.capacity n
   ∧ Node.size n
     = count (λ slot, negb (Node.is_empty slot) && negb (Node.is_tombstone slot))
             (Node.table_ n)
   ∧ Node.tombstone_count_ n = count Node.is_tombstone (Node.table_ n)
   ∧ 0 ≤ Node.size n ∧ 0 ≤ Node.tombstone_count_ n
   ∧ Node.size n + Node.tombstone_count_ n ≤ Node.capacity n).
Proof.
  assert (Hflat : ∀ f, Flat.reachable f →
    (Flat.capacity f = 0 ∨ ∃ p, 0 ≤ p ≤ 52 ∧ Flat.capacity f = 2 ^ p
                                ∧ Flat.capacity f ≤ max_slots)
    ∧ Z.of_nat (length (Flat.table_ f)) = Flat.capacity f
    ∧ Flat.size f = count Flat.occupied (Flat.table_ f)
    ∧ Flat.tombstone_count_ f = count Flat.is_tombstone (Flat.table_ f)
    ∧ 0 ≤ Flat.size f ∧ 0 ≤ Flat.tombstone_count_ f
    ∧ Flat.size f + Flat.tombstone_count_ f ≤ Flat.capacity f).
  { intros f1 [Hinv| ->]%reachable_invariant; unfold Flat.capacity, Flat.size.
    - pose proof (Flat.inv_table f1 Hinv) as Hok.
      destruct (table_ok_capacity f1 Hok) as (p & Hp & Hc & _).
      pose proof (counters_range f1 Hok) as Hcounts.
      rewrite (Flat.inv_size f1 Hinv), (Flat.inv_tombstones f1 Hinv).
      split; [right; exists p; split; [done|]; split; [done|apply Hok]|].
      split; [apply Hok|]. repeat split; lia.
    - simpl. repeat split; try done. by left. }
  intros Hf (f0 & Hf0 & _ & Hsim0)%node_reachable_related.
  split; [by apply Hflat|].
  destruct (Hflat f0 Hf0) as (Hc & Hlen & Hs & Ht & Hrest).
  unfold Flat.capacity, Flat.size, Node.capacity, Node.size in *.
  rewrite <- (sim_capacity f0 n Hsim0), <- (sim_size f0 n Hsim0),
    <- (sim_tombstones f0 n Hsim0).
  pose proof (sim_table f0 n Hsim0) as Htable.
  split; [done|]. split; [by rewrite <- (Forall2_length _ _ _ Htable)|].
  split; [|split; [|done]].
  - rewrite Hs. apply (count_Forall2 _ _ _ _ _ Htable).
    intros fs ns Hsim. unfold Flat.occupied.
    by rewrite (slot_sim_is_empty _ fs ns Hsim), (slot_sim_is_tombstone _ fs ns Hsim).
  - rewrite Ht. apply (count_Forall2 _ _ _ _ _ Htable).
    intros fs ns Hsim. by apply (slot_sim_is_tombstone (Node.entries_ n)).
Qed.

(** X22. [insert] undone by [erase]: in both backends, on every map a
    program can hold, inserting a key that is not contained and erasing it
    again leaves [size()] and the answers of [find] and [contains] for
    every key as they were before the two calls. *)
Theorem insert_then_erase_restores f n (key : Key) (value : Value) :
  Flat.reachable f → Node.reachable n →
  Flat.contains key f = Some false → Node.contains key n = Some false →
  (∀ r f1, Flat.insert key value f = Returned r f1 →
     ∃ f2, Flat.erase key f1 = Returned true f2
           ∧ Flat.size f2 = Flat.size f
           ∧ ∀ k, Flat.find_value k f2 = Flat.find_value k f
                  ∧ Flat.contains k f2 = Flat.contains k f) ∧
  (∀ r n1, Node.insert key value n = Returned r n1 →
     ∃ n2, Node.erase key n1 = Returned true n2
           ∧ Node.size n2 = Node.size n
           ∧ ∀ k, Node.find_value k n2 = Node.find_value k n
                  ∧ Node.contains k n2 = Node.contains k n).
Proof.
  intros Hf Hn Hcf Hcn. split.
  - intros r f1 Hins.
    destruct (flat_insert_facts f key value r f1 Hf Hins)
      as (Hp & Hfind & Hc1 & Hc & Hsize & Hframe).
    assert (Hf1 : Flat.reachable f1).
    { apply (Flat.reachable_step (call_insert key value) f); [done|]. left.
      exists (saw_insert value (snd r)). unfold Flat.step. rewrite Hins. simpl.
      by rewrite Hp. }
    destruct (flat_erase_facts f1 key Hf1)
      as (erased & f2 & Hret & Hce & Hc2 & Hfind2 & Hsize2 & _ & Hframe2).
    assert (erased = true) by congruence. subst erased.
    assert (snd r = true) as Hr.
    { rewrite Hcf in Hc. injection Hc. by destruct (snd r). }
    rewrite Hr in Hsize. exists f2. split; [done|]. split; [lia|].
    intros k. destruct (decide (k = key)) as [->|Hk].
    + rewrite Hfind2, Hc2, Hcf. split; [|done].
      unfold Flat.contains, Flat.find_value in *.
      destruct (Flat.find key f) as [[|pos]|]; by simplify_eq/=.
    + destruct (Hframe k Hk) as [<- <-]. by apply Hframe2.
  - intros r n1 Hins.
    destruct (node_insert_facts n key value r n1 Hn Hins)
      as (Hp & Hfind & Hc1 & Hc & Hsize & Hframe).
    assert (Hn1 : Node.reachable n1).
    { apply (Node.reachable_step (call_insert key value) n); [done|]. left.
      exists (saw_insert value (snd r)). unfold Node.step. rewrite Hins. simpl.
      by rewrite Hp. }
    destruct (node_erase_facts n1 key Hn1)
      as (erased & n2 & Hret & Hce & Hc2 & Hfind2 & Hsize2 & _ & Hframe2).
    assert (erased = true) by congruence. subst erased.
    assert (snd r = true) as Hr.
    { rewrite Hcn in Hc. injection Hc. by destruct (snd r). }
    rewrite Hr in Hsize. exists n2. split; [done|]. split; [lia|].
    intros k. destruct (decide (k = key)) as [->|Hk].
    + rewrite Hfind2, Hc2, Hcn. split; [|done].
      unfold Node.contains, Node.find_value in *.
      destruct (Node.find key n) as [[|pos]|]; by simplify_eq/=.
    + destruct (Hframe k Hk) as [<- <-]. by apply Hframe2.
Qed.
End Tables.

(** ** The inline backend: the lifetime of the keys and values *)

Section LifetimeFacts.
Context {Key Value : Type} `{!MapParams Key Value}.
Import Flat.
Implicit Types (m : FlatHashMap Key Value) (slot : Slot Key Value).

Lemma free_slots_write (t : list (Slot Key Value)) (pos : nat) new :
  free_slots_hold_nothing t →
  (occupied new = false → holds_nothing new = true) →
  free_slots_hold_nothing (<[pos := new]> t).
Proof.
  intros Ht Hnew q slot Hq Hocc.
  destruct (decide (q = pos)) as [->|Hne].
  - destruct (lookup_lt_is_Some_2 t pos) as [old Hold].
    { apply lookup_lt_Some in Hq. by rewrite length_insert in Hq. }
    rewrite list_lookup_insert_eq in Hq by by eapply lookup_lt_Some.
    simplify_eq. by apply Hnew.
  - rewrite list_lookup_insert_ne in Hq by done. by apply (Ht q).
Qed.

Lemma free_slots_fresh (c : nat) :
  free_slots_hold_nothing (replicate c (new_slot : Slot Key Value)).
Proof. intros pos slot [-> _]%lookup_replicate _. done. Qed.

Lemma destroyed_holds_nothing slot :
  (occupied slot = false → holds_nothing slot = true) →
  ∀ h, holds_nothing (set_hash h (destroy_slot slot)) = true.
Proof.
  intros Hfree h. unfold destroy_slot. fold (occupied slot).
  destruct (occupied slot); [done|]. by apply Hfree.
Qed.

Lemma insert_internal_loop_free_slots fuel i index h (key : Key) (value : Value) m :
  occupied (filled h key value) = true →
  free_slots_hold_nothing (table_ m) →
  match insert_internal_loop fuel i index h key value m with
  | Returned _ m' | TableFull m' => free_slots_hold_nothing (table_ m')
  | _ => True
  end.
Proof.
  intros Hh. revert i. induction fuel as [|fuel IH]; intros i Hm; simpl; [done|].
  destruct (table_ m !! Z.to_nat (probe m index i)) as [slot|]; [|done].
  destruct (is_empty slot || is_tombstone slot); [|by apply IH].
  cbn [table_ set_table].
  apply free_slots_write; [by destruct (is_tombstone slot)|]. by rewrite Hh.
Qed.

Lemma rehash_loop_free_slots (old_table : list (Slot Key Value)) m :
  free_slots_hold_nothing (table_ m) →
  match rehash_loop old_table m with
  | Returned _ m' | TableFull m' => free_slots_hold_nothing (table_ m')
  | _ => True
  end.
Proof.
  revert m. induction old_table as [|slot rest IH]; intros m Hm; simpl; [done|].
  destruct (negb (is_empty slot) && negb (is_tombstone slot)) eqn:Hocc; [|by apply IH].
  destruct (key_storage slot) as [key|]; [|done].
  destruct (value_storage slot) as [value|]; [|done].
  pose proof (insert_internal_loop_free_slots (Z.to_nat (capacity_ m)) 0
                (home m (hash slot)) (hash slot) key value m Hocc Hm) as Hin.
  unfold insert_internal.
  destruct (insert_internal_loop _ _ _ _ _ _ _) as [[] m1|m1| |]; simpl; try done.
  by apply IH.
Qed.

Lemma rehash_free_slots new_capacity m :
  match rehash new_capacity m with
  | Returned _ m' | TableFull m' => free_slots_hold_nothing (table_ m')
  | _ => True
  end.
Proof.
  unfold rehash. destruct (max_slots <? new_capacity); [done|].
  apply rehash_loop_free_slots. cbn [table_]. apply free_slots_fresh.
Qed.

Lemma insert_loop_free_slots fuel i first_tombstone index (key : Key) (value : Value) m :
  free_slots_hold_nothing (table_ m) →
  match insert_loop fuel i first_tombstone index (hash_of key) key value m with
  | Returned _ m' | TableFull m' => free_slots_hold_nothing (table_ m')
  | _ => True
  end.
Proof.
  revert i first_tombstone.
  induction fuel as [|fuel IH]; intros i first_tombstone Hm; simpl; [done|].
  destruct (table_ m !! Z.to_nat (probe m index i)) as [slot|] eqn:Hslot; [|done].
  destruct (is_empty slot) eqn:He.
  { cbn [table_ set_table set_size].
    apply free_slots_write; [by destruct (negb (first_tombstone =? capacity_ m))|].
    by rewrite filled_occupied. }
  destruct (is_tombstone slot && (first_tombstone =? capacity_ m)); [by apply IH|].
  destruct (negb (is_tombstone slot) && (hash slot =? hash_of key)) eqn:Hhit;
    [|by apply IH].
  destruct (key_storage slot) as [k|]; [|done].
  destruct (bool_decide (k = key)); [|by apply IH].
  destruct (value_storage slot) as [v|]; [|done].
  cbn [table_ set_table]. apply free_slots_write; [done|].
  apply andb_true_iff in Hhit as [Ht _].
  change (occupied (set_value value slot)) with (occupied slot).
  unfold occupied. by rewrite He, Ht.
Qed.

Lemma insert_free_slots (key : Key) (value : Value) m :
  free_slots_hold_nothing (table_ m) →
  match insert key value m with
  | Returned _ m' | TableFull m' => free_slots_hold_nothing (table_ m')
  | _ => True
  end.
Proof.
  intros Hm. unfold insert.
  destruct (load_exceeds _ _ || tombstones_exceed _ _).
  - pose proof (rehash_free_slots (wrap64 (capacity_ m * 2)) m) as Hre.
    destruct (rehash _ m) as [[] m1|m1| |]; simpl; try done.
    by apply insert_loop_free_slots.
  - simpl. by apply insert_loop_free_slots.
Qed.

Lemma erase_free_slots (key : Key) m :
  free_slots_hold_nothing (table_ m) →
  match erase key m with
  | Returned _ m' | TableFull m' => free_slots_hold_nothing (table_ m')
  | _ => True
  end.
Proof.
  intros Hm. unfold erase.
  destruct (find_slot key (hash_of key) m) as [pos|]; [|done].
  destruct (pos =? capacity_ m); [done|].
  destruct (table_ m !! Z.to_nat pos) as [slot|] eqn:Hslot; [|done]. cbv zeta.
  destruct (tombstones_exceed _ _ && _).
  - match goal with |- context [rehash ?c ?m1] =>
      pose proof (rehash_free_slots c m1) as Hre;
      destruct (rehash c m1) as [[] m2|m2| |] end; done.
  - cbn [table_ set_table set_size set_tombstone_count].
    apply free_slots_write; [done|]. intros _.
    apply destroyed_holds_nothing. by apply (Hm (Z.to_nat pos)).
Qed.

Lemma clear_free_slots m :
  free_slots_hold_nothing (table_ m) →
  match clear m with
  | Returned _ m' | TableFull m' => free_slots_hold_nothing (table_ m')
  | _ => True
  end.
Proof.
  intros Hm pos slot Hpos _. cbn [table_] in Hpos.
  rewrite list_lookup_fmap in Hpos.
  destruct (table_ m !! pos) as [old|] eqn:Hold; [|done]. simplify_eq/=.
  apply destroyed_holds_nothing. by apply (Hm pos).
Qed.

Lemma step_free_slots (c : call Key Value) m m' :
  free_slots_hold_nothing (table_ m) → leaves (step c m) m' →
  free_slots_hold_nothing (table_ m').
Proof.
  intros Hm Hleaves.
  destruct c as [key value|key| |key|key|key]; unfold step in Hleaves.
  - pose proof (insert_free_slots key value m Hm) as H.
    destruct (insert key value m) as [r m1|m1| |]; cbn [bind] in Hleaves.
    + destruct (deref (fst r) m1); destruct Hleaves as [[a Ha]|Ha]; by simplify_eq.
    + destruct Hleaves as [[a Ha]|Ha]; by simplify_eq.
    + by destruct Hleaves as [[a Ha]|Ha].
    + by destruct Hleaves as [[a Ha]|Ha].
  - pose proof (erase_free_slots key m Hm) as H.
    destruct (erase key m) as [r m1|m1| |]; cbn [bind] in Hleaves;
      destruct Hleaves as [[a Ha]|Ha]; by simplify_eq.
  - pose proof (clear_free_slots m Hm) as H. unfold clear in Hleaves, H.
    cbn [bind] in Hleaves.
    destruct Hleaves as [[a Ha]|Ha]; by simplify_eq.
  - unfold index in Hleaves.
    destruct (find_slot key (hash_of key) m) as [pos|];
      [|by destruct Hleaves as [[a Ha]|Ha]].
    destruct (negb (pos =? capacity_ m)).
    + cbn [bind] in Hleaves.
      destruct (deref (ptr_to pos) m); destruct Hleaves as [[a Ha]|Ha]; by simplify_eq.
    + pose proof (insert_free_slots key default_value m Hm) as H.
      destruct (insert key default_value m) as [r m1|m1| |]; cbn [bind] in Hleaves.
      * destruct (deref (fst r) m1); destruct Hleaves as [[a Ha]|Ha]; by simplify_eq.
      * destruct Hleaves as [[a Ha]|Ha]; by simplify_eq.
      * by destruct Hleaves as [[a Ha]|Ha].
      * by destruct Hleaves as [[a Ha]|Ha].
  - destruct (find_value key m); destruct Hleaves as [[a Ha]|Ha]; by simplify_eq.
  - destruct (contains key m); destruct Hleaves as [[a Ha]|Ha]; by simplify_eq.
Qed.

Lemma reachable_free_slots m :
  reachable m → free_slots_hold_nothing (table_ m).
Proof.
  induction 1 as [m Hcreate|expected_size m _ Hcreate|c m m' _ IH Hleaves].
  - unfold create in Hcreate. destruct (max_slots <? INITIAL_CAPACITY); [done|].
    injection Hcreate as <-. apply (free_slots_fresh (Z.to_nat INITIAL_CAPACITY)).
  - unfold create_sized in Hcreate.
    destruct (sized_capacity expected_size) as [c|]; [|done].
    destruct (max_slots <? c); [done|]. injection Hcreate as <-.
    apply (free_slots_fresh (Z.to_nat c)).
  - by apply (step_free_slots c m m').
Qed.

(** X23. The lifetime of the keys and values of a [FlatHashMap]: on every
    map a program can hold, a slot holds a constructed key and a
    constructed value when its hash is neither of the two markers, and no
    object when it is empty or a tombstone; the loop of the destructor
    leaves no object behind. *)
Theorem flat_objects_live_in_occupied_slots m :
  reachable m →
  objects_match_hashes (table_ m)
  ∧ Forall (λ slot, holds_nothing slot = true) (destructor m).
Proof.
  intros Hreach. pose proof (reachable_free_slots m Hreach) as Hfree.
  assert (Hmatch : objects_match_hashes (table_ m)).
  { intros pos slot Hpos. destruct (occupied slot) eqn:Hocc; [|by apply (Hfree pos)].
    destruct (reachable_invariant m Hreach) as [Hinv| ->]; [|done].
    destruct (ok_slot m (inv_table m Hinv) pos slot Hpos Hocc) as (k & v & Hk & Hv & _).
    unfold holds_pair. by rewrite Hk, Hv. }
  split; [done|]. unfold destructor. apply Forall_fmap, Forall_lookup_2.
  intros pos slot Hpos. simpl.
  change (holds_nothing (destroy_slot slot))
    with (holds_nothing (set_hash (hash (destroy_slot slot)) (destroy_slot slot))).
  apply destroyed_holds_nothing. by apply (Hfree pos).
Qed.
End LifetimeFacts.

(** ** The sized constructors and the insertions they reserve room for *)

Section SizedConstructors.
Context {Key Value : Type} `{!MapParams Key Value}.
Implicit Types (f : Flat.FlatHashMap Key Value) (n : Node.NodeHashMap Key Value).

(** X24. The sized constructors: for an expected size [N] below [2^51],
    [static_cast<size_t>(N / 0.75)] is the integer quotient [4 * N / 3]
    (the division of doubles rounds to nearest, the conversion truncates),
    and both constructors build, or fail to allocate, an empty table whose
    capacity is the least power of two that is at least that quotient. For
    [N] of 3 or more three quarters of the capacity are at least [N]; for
    [N] of 1 and 2 the capacity is [N] itself. *)
Theorem sized_constructor_capacity N :
  0 ≤ N < 2 ^ 51 →
  ∃ p, 0 ≤ p ≤ 52
       ∧ size_t_of_double (double_div (double_of_size_t N) MAX_LOAD_FACTOR)
         = Some (4 * N / 3)
       ∧ sized_capacity N = Some (2 ^ p)
       ∧ 4 * N / 3 ≤ 2 ^ p
       ∧ (∀ q, 0 ≤ q → 4 * N / 3 ≤ 2 ^ q → 2 ^ p ≤ 2 ^ q)
       ∧ (3 ≤ N → 4 * N ≤ 3 * 2 ^ p)
       ∧ (N = 1 → 2 ^ p = 1) ∧ (N = 2 → 2 ^ p = 2)
       ∧ (Flat.create_sized N : outcome (Flat.FlatHashMap Key Value) unit)
         = (if max_slots <? 2 ^ p then LengthError
            else Returned tt
                   {| Flat.table_ := replicate (Z.to_nat (2 ^ p)) Flat.new_slot;
                      Flat.size_ := 0; Flat.capacity_ := 2 ^ p;
                      Flat.tombstone_count_ := 0 |})
       ∧ (Node.create_sized N : outcome (Node.NodeHashMap Key Value) unit)
         = (if max_slots <? 2 ^ p then LengthError
            else Returned tt
                   {| Node.table_ := replicate (Z.to_nat (2 ^ p)) Node.new_slot;
                      Node.entries_ := [];
                      Node.size_ := 0; Node.capacity_ := 2 ^ p;
                      Node.tombstone_count_ := 0 |}).
Proof.
  intros HN.
  destruct (sized_capacity_spec N HN) as (Hc & p & Hp & Hpow & Hle & Hmin & H3 & H1 & H2).
  rewrite Hpow in Hc. exists p. split; [done|].
  split; [by apply size_t_of_quotient|]. split; [done|]. split; [done|].
  split; [done|]. split; [done|].
  split; [by intros ->%H1|]. split; [by intros ->%H2|].
  unfold Flat.create_sized, Node.create_sized. rewrite Hc. done.
Qed.



End SizedConstructors.

(** ** The generator of the benchmarks never merges two states *)

Lemma wrap64_range x : 0 ≤ wrap64 x < 2 ^ 64.
Proof. apply Z.mod_pos_bound. lia. Qed.

Lemma wrap64_add_cancel x t1 t2 :
  0 ≤ t1 < 2 ^ 64 → 0 ≤ t2 < 2 ^ 64 →
  wrap64 (x + t1) = wrap64 (x + t2) → t1 = t2.
Proof.
  unfold wrap64. intros H1 H2 Heq.
  pose proof (Z.div_mod (x + t1) (2 ^ 64)). pose proof (Z.div_mod (x + t2) (2 ^ 64)).
  change (2 ^ 64) with 18446744073709551616 in *. lia.
Qed.

(** [c + (c << 3)] is the product by 9, which is odd. *)
Lemma times_nine_cancel c1 c2 :
  0 ≤ c1 < 2 ^ 64 → 0 ≤ c2 < 2 ^ 64 →
  wrap64 (c1 + wrap64 (Z.shiftl c1 3)) = wrap64 (c2 + wrap64 (Z.shiftl c2 3)) →
  c1 = c2.
Proof.
  unfold wrap64. intros H1 H2. rewrite !Z.shiftl_mul_pow2 by lia.
  rewrite !Zplus_mod_idemp_r. change (2 ^ 3) with 8. intros Heq.
  pose proof (Z.div_mod (c1 + c1 * 8) (2 ^ 64)).
  pose proof (Z.div_mod (c2 + c2 * 8) (2 ^ 64)).
  change (2 ^ 64) with 18446744073709551616 in *. lia.
Qed.

(** [b ^ (b >> 11)] is undone by folding the shifted copies back. *)
Lemma xorshift_inverse b :
  0 ≤ b < 2 ^ 64 →
  let a := Z.lxor b (Z.shiftr b 11) in
  Z.lxor a (Z.lxor (Z.shiftr a 11) (Z.lxor (Z.shiftr a 22)
    (Z.lxor (Z.shiftr a 33) (Z.lxor (Z.shiftr a 44) (Z.shiftr a 55))))) = b.
Proof.
  intros Hb a. subst a. apply Z.bits_inj'. intros i Hi.
  rewrite !Z.lxor_spec, !Z.shiftr_spec, !Z.lxor_spec, !Z.shiftr_spec by lia.
  replace (i + 11 + 11) with (i + 22) by lia.
  replace (i + 22 + 11) with (i + 33) by lia.
  replace (i + 33 + 11) with (i + 44) by lia.
  replace (i + 44 + 11) with (i + 55) by lia.
  replace (i + 55 + 11) with (i + 66) by lia.
  assert (Hhigh : Z.testbit b (i + 66) = false).
  { destruct (Z.eq_dec b 0) as [->|]; [apply Z.bits_0|].
    apply Z.bits_above_log2; [lia|].
    assert (Z.log2 b < 64) by (apply Z.log2_lt_pow2; lia). lia. }
  rewrite Hhigh.
  destruct (Z.testbit b i), (Z.testbit b (i + 11)), (Z.testbit b (i + 22)),
    (Z.testbit b (i + 33)), (Z.testbit b (i + 44)), (Z.testbit b (i + 55)); reflexivity.
Qed.

Lemma xorshift_cancel b1 b2 :
  0 ≤ b1 < 2 ^ 64 → 0 ≤ b2 < 2 ^ 64 →
  Z.lxor b1 (Z.shiftr b1 11) = Z.lxor b2 (Z.shiftr b2 11) → b1 = b2.
Proof.
  intros H1 H2 Heq.
  rewrite <- (xorshift_inverse b1 H1), <- (xorshift_inverse b2 H2). cbv zeta.
  by rewrite Heq.
Qed.

Lemma xorshift_range b : 0 ≤ b < 2 ^ 64 → 0 ≤ Z.lxor b (Z.shiftr b 11) < 2 ^ 64.
Proof.
  intros Hb.
  assert (Hs : 0 ≤ Z.shiftr b 11) by (apply Z.shiftr_nonneg; lia).
  split; [apply Z.lxor_nonneg; lia|].
  destruct (Z.eq_dec (Z.lxor b (Z.shiftr b 11)) 0) as [->|Hne]; [lia|].
  apply Z.log2_lt_pow2; [pose proof (proj2 (Z.lxor_nonneg b (Z.shiftr b 11))); lia|].
  eapply Z.le_lt_trans; [apply Z.log2_lxor; lia|].
  assert (Hshift : Z.shiftr b 11 ≤ b).
  { rewrite Z.shiftr_div_pow2 by lia. apply Z.div_le_upper_bound; [lia|].
    change (2 ^ 11) with 2048. lia. }
  pose proof (Z.log2_le_mono _ _ Hshift).
  destruct (Z.eq_dec b 0) as [->|]; [simpl; lia|].
  assert (Z.log2 b < 64) by (apply Z.log2_lt_pow2; lia). lia.
Qed.

(** X26. The generator [sfc64] of the benchmarks: a step maps generators
    of 64-bit words to generators of 64-bit words and returns a number
    between [min()] and [max()]; the generators built by the constructors
    are of that kind; and a step never merges two states: two generators
    that differ differ after a step, since the shift-xor, the product by 9
    and the additions of the step can each be undone. *)
Theorem sfc64_step_is_injective (g1 g2 : Sfc64.sfc64) seed :
  Sfc64.words g1 → Sfc64.words g2 →
  Sfc64.words (snd (Sfc64.next g1))
  ∧ Sfc64.min ≤ fst (Sfc64.next g1) ≤ Sfc64.max
  ∧ Sfc64.words (Sfc64.seeded (wrap64 seed))
  ∧ (snd (Sfc64.next g1) = snd (Sfc64.next g2) → g1 = g2).
Proof.
  assert (Hstep : ∀ g, Sfc64.words g → Sfc64.words (snd (Sfc64.next g))).
  { intros g (H0 & H1 & H2 & Hn). unfold Sfc64.words, Sfc64.next. simpl.
    split; [by apply xorshift_range|]. repeat split; apply wrap64_range. }
  intros Hw1 Hw2. split; [by apply Hstep|]. split.
  { unfold Sfc64.next, Sfc64.min, Sfc64.max. simpl.
    pose proof (wrap64_range (wrap64 (Sfc64.state0 g1 + Sfc64.state1 g1)
                              + Sfc64.counter_ g1)). lia. }
  split.
  { unfold Sfc64.seeded. pose proof (wrap64_range seed) as Hs.
    assert (Hinit : Sfc64.words {| Sfc64.state0 := wrap64 seed; Sfc64.state1 := wrap64 seed;
                                   Sfc64.state2 := wrap64 seed; Sfc64.counter_ := 1 |}).
    { unfold Sfc64.words. simpl. lia. }
    revert Hinit. generalize (Sfc64.Build_sfc64 (wrap64 seed) (wrap64 seed) (wrap64 seed) 1).
    intros g Hg. do 12 (apply Hstep in Hg). exact Hg. }
  destruct g1 as [a1 b1 c1 n1], g2 as [a2 b2 c2 n2].
  destruct Hw1 as (Ha1 & Hb1 & Hc1 & Hn1), Hw2 as (Ha2 & Hb2 & Hc2 & Hn2).
  simpl in *. unfold Sfc64.next. simpl. intros [= E0 E1 E2 En].
  assert (b1 = b2) by by apply xorshift_cancel. subst b2.
  assert (c1 = c2) by by apply times_nine_cancel. subst c2.
  assert (n1 = n2).
  { apply (wrap64_add_cancel 1); [done|done|]. by rewrite !(Z.add_comm 1). }
  subst n2.
  apply wrap64_add_cancel in E2; [|apply wrap64_range|apply wrap64_range].
  rewrite !(Z.add_comm _ n1) in E2.
  apply wrap64_add_cancel in E2; [|apply wrap64_range|apply wrap64_range].
  rewrite !(Z.add_comm _ b1) in E2.
  apply wrap64_add_cancel in E2; [|done|done]. by subst.
Qed.

(** ** The further properties on [int] keys and values *)

Lemma flat_two_reachable : Flat.reachable flat_two.
Proof.
  eapply (flat_run_reachable two_keys); [apply flat_fresh_16_reachable|].
  vm_compute. reflexivity.
Qed.

Lemma node_two_reachable : Node.reachable node_two.
Proof.
  eapply (node_run_reachable two_keys); [apply node_fresh_16_reachable|].
  vm_compute. reflexivity.
Qed.

(** X1, witness: [next_power_of_2(1000)]. *)
Lemma next_power_of_2_least_witness :
  0 ≤ 1000 < 2 ^ 64 ∧
  ((1000 ≤ 2 ^ 63 →
      ∃ p, 0 ≤ p ≤ 63 ∧ next_power_of_2 1000 = 2 ^ p ∧ 1000 ≤ 2 ^ p
           ∧ ∀ q, 0 ≤ q → 1000 ≤ 2 ^ q → 2 ^ p ≤ 2 ^ q)
   ∧ (2 ^ 63 < 1000 → next_power_of_2 1000 = 0)).
Proof. split; [lia|]. apply (next_power_of_2_least 1000). lia. Defined.

(** X2, witness: twelve keys and three tombstones in 16 slots. *)
Lemma double_checks_are_exact_witness :
  (0 ≤ 4 ≤ 63 ∧ 0 ≤ 12 < 2 ^ 53 - 1 ∧ 0 ≤ 3 < 2 ^ 53) ∧
  load_exceeds 12 (2 ^ 4) = (3 * 2 ^ 4 <? 4 * (12 + 1))
  ∧ tombstones_exceed 3 (2 ^ 4) = (2 ^ 4 <? 4 * 3).
Proof.
  split; [lia|]. apply (double_checks_are_exact 12 3 4); lia.
Defined.

(** X4, witness: the probes of the hash 42 in the default-constructed
    tables. *)
Lemma probe_sequence_visits_every_slot_witness :
  (0 ≤ 4 ≤ 52 ∧ Flat.capacity_ (flat_fresh 16) = 2 ^ 4
   ∧ Node.capacity_ (node_fresh 16) = 2 ^ 4) ∧
  ((∀ i, 0 ≤ i < 2 ^ 4 →
      Flat.probe (flat_fresh 16) (Flat.home (flat_fresh 16) 42) i = (42 + i) mod 2 ^ 4
      ∧ Node.probe (node_fresh 16) (Node.home (node_fresh 16) 42) i = (42 + i) mod 2 ^ 4)
   ∧ (∀ pos, 0 ≤ pos < 2 ^ 4 →
        ∃ i, 0 ≤ i < 2 ^ 4
             ∧ Flat.probe (flat_fresh 16) (Flat.home (flat_fresh 16) 42) i = pos
             ∧ ∀ j, 0 ≤ j < 2 ^ 4 →
                    Flat.probe (flat_fresh 16) (Flat.home (flat_fresh 16) 42) j = pos →
                    j = i)).
Proof.
  split; [split; [lia|split; reflexivity]|].
  apply (probe_sequence_visits_every_slot (flat_fresh 16) (node_fresh 16) 42 4);
    [lia|reflexivity|reflexivity].
Defined.

(** X5, witness: a thirteenth key in the tables that hold twelve, which
    grow from 16 to 32 slots. *)
Lemma insert_stores_and_keeps_others_witness :
  (Flat.reachable flat_twelve ∧ Node.reachable node_twelve) ∧
  (∀ r f', Flat.insert 13 39 flat_twelve = Returned r f' →
     Flat.find_value 13 f' = Some (Some 39)
     ∧ Flat.contains 13 f' = Some true
     ∧ ∀ k, k ≠ 13 → Flat.find_value k f' = Flat.find_value k flat_twelve
                     ∧ Flat.contains k f' = Flat.contains k flat_twelve) ∧
  (∀ r n', Node.insert 13 39 node_twelve = Returned r n' →
     Node.find_value 13 n' = Some (Some 39)
     ∧ Node.contains 13 n' = Some true
     ∧ ∀ k, k ≠ 13 → Node.find_value k n' = Node.find_value k node_twelve
                     ∧ Node.contains k n' = Node.contains k node_twelve).
Proof.
  split; [split; [apply flat_twelve_reachable|apply node_twelve_reachable]|].
  apply (insert_stores_and_keeps_others flat_twelve node_twelve 13 39);
    [apply flat_twelve_reachable|apply node_twelve_reachable].
Defined.

(** X6, witness: the key 16 of the test ProbeChainAfterErase inserted
    again. *)
Lemma insert_reports_new_keys_witness :
  (Flat.reachable flat_probe_chain ∧ Node.reachable node_probe_chain) ∧
  (∀ p inserted f', Flat.insert 16 7 flat_probe_chain = Returned (p, inserted) f' →
     Flat.deref p f' = Some 7
     ∧ Flat.contains 16 flat_probe_chain = Some (negb inserted)
     ∧ Flat.size f' = Flat.size flat_probe_chain + (if inserted then 1 else 0)) ∧
  (∀ p inserted n', Node.insert 16 7 node_probe_chain = Returned (p, inserted) n' →
     Node.deref p n' = Some 7
     ∧ Node.contains 16 node_probe_chain = Some (negb inserted)
     ∧ Node.size n' = Node.size node_probe_chain + (if inserted then 1 else 0)).
Proof.
  split; [split; [apply flat_probe_chain_reachable|apply node_probe_chain_reachable]|].
  apply (insert_reports_new_keys flat_probe_chain node_probe_chain 16 7);
    [apply flat_probe_chain_reachable|apply node_probe_chain_reachable].
Defined.

(** X7, witness: the key 16 of the test ProbeChainAfterErase erased. *)
Lemma erase_removes_and_keeps_others_witness :
  (Flat.reachable flat_probe_chain ∧ Node.reachable node_probe_chain) ∧
  (∃ erased f',
     Flat.erase 16 flat_probe_chain = Returned erased f'
     ∧ Flat.contains 16 flat_probe_chain = Some erased
     ∧ Flat.contains 16 f' = Some false
     ∧ Flat.find_value 16 f' = Some None
     ∧ Flat.size f' = Flat.size flat_probe_chain - (if erased then 1 else 0)
     ∧ Flat.capacity f' = Flat.capacity flat_probe_chain
     ∧ ∀ k, k ≠ 16 → Flat.find_value k f' = Flat.find_value k flat_probe_chain
                     ∧ Flat.contains k f' = Flat.contains k flat_probe_chain) ∧
  (∃ erased n',
     Node.erase 16 node_probe_chain = Returned erased n'
     ∧ Node.contains 16 node_probe_chain = Some erased
     ∧ Node.contains 16 n' = Some false
     ∧ Node.find_value 16 n' = Some None
     ∧ Node.size n' = Node.size node_probe_chain - (if erased then 1 else 0)
     ∧ Node.capacity n' = Node.capacity node_probe_chain
     ∧ ∀ k, k ≠ 16 → Node.find_value k n' = Node.find_value k node_probe_chain
                     ∧ Node.contains k n' = Node.contains k node_probe_chain).
Proof.
  split; [split; [apply flat_probe_chain_reachable|apply node_probe_chain_reachable]|].
  apply (erase_removes_and_keeps_others flat_probe_chain node_probe_chain 16);
    [apply flat_probe_chain_reachable|apply node_probe_chain_reachable].
Defined.

(** X8, witness: the tables that hold twelve keys. *)
Lemma clear_empties_and_keeps_capacity_witness :
  (Flat.reachable flat_twelve ∧ Node.reachable node_twelve) ∧
  (∃ f', Flat.clear flat_twelve = Returned tt f'
         ∧ Flat.size f' = 0 ∧ Flat.empty f' = true
         ∧ Flat.capacity f' = Flat.capacity flat_twelve
         ∧ Flat.tombstone_count_ f' = 0
         ∧ ∀ k : Z, Flat.contains k f' = Some false
                    ∧ Flat.find_value k f' = Some None) ∧
  (∃ n', Node.clear node_twelve = Returned tt n'
         ∧ Node.size n' = 0 ∧ Node.empty n' = true
         ∧ Node.capacity n' = Node.capacity node_twelve
         ∧ Node.tombstone_count_ n' = 0
         ∧ Node.entries_ n' = []
         ∧ ∀ k : Z, Node.contains k n' = Some false
                    ∧ Node.find_value k n' = Some None).
Proof.
  split; [split; [apply flat_twelve_reachable|apply node_twelve_reachable]|].
  apply (clear_empties_and_keeps_capacity flat_twelve node_twelve);
    [apply flat_twelve_reachable|apply node_twelve_reachable].
Defined.

(** X9, witness: [map[3]] on the maps of the tests MoveConstructor, which
    hold the keys 1 and 2. *)
Lemma index_finds_or_inserts_default_witness :
  (Flat.reachable flat_two ∧ Node.reachable node_two) ∧
  (∀ p f', Flat.index 3 flat_two = Returned p f' →
     ∃ v, Flat.deref p f' = Some v
          ∧ Flat.find_value 3 f' = Some (Some v)
          ∧ ((Flat.find_value 3 flat_two = Some (Some v)
              ∧ Flat.size f' = Flat.size flat_two)
             ∨ (Flat.find_value 3 flat_two = Some None ∧ v = default_value
                ∧ Flat.size f' = Flat.size flat_two + 1))
          ∧ ∀ k, k ≠ 3 → Flat.find_value k f' = Flat.find_value k flat_two) ∧
  (∀ p n', Node.index 3 node_two = Returned p n' →
     ∃ v, Node.deref p n' = Some v
          ∧ Node.find_value 3 n' = Some (Some v)
          ∧ ((Node.find_value 3 node_two = Some (Some v)
              ∧ Node.size n' = Node.size node_two)
             ∨ (Node.find_value 3 node_two = Some None ∧ v = default_value
                ∧ Node.size n' = Node.size node_two + 1))
          ∧ ∀ k, k ≠ 3 → Node.find_value k n' = Node.find_value k node_two).
Proof.
  split; [split; [apply flat_two_reachable|apply node_two_reachable]|].
  apply (index_finds_or_inserts_default flat_two node_two 3);
    [apply flat_two_reachable|apply node_two_reachable].
Defined.

(** X10, witness: a thirteenth key in the tables that hold twelve. *)
Lemma capacity_only_doubles_witness :
  (Flat.reachable flat_twelve ∧ Node.reachable node_twelve) ∧
  (∀ f', leaves (Flat.step (call_insert 13 39) flat_twelve) f' →
     Flat.capacity f' = Flat.capacity flat_twelve
     ∨ Flat.capacity f' = 2 * Flat.capacity flat_twelve) ∧
  (∀ n', leaves (Node.step (call_insert 13 39) node_twelve) n' →
     Node.capacity n' = Node.capacity node_twelve
     ∨ Node.capacity n' = 2 * Node.capacity node_twelve).
Proof.
  split; [split; [apply flat_twelve_reachable|apply node_twelve_reachable]|].
  apply (capacity_only_doubles flat_twelve node_twelve (call_insert 13 39));
    [apply flat_twelve_reachable|apply node_twelve_reachable].
Defined.


(** X12, witness: the maps left by one insertion and one erasure, which
    hold a tombstone and no key. *)
Lemma empty_iff_no_key_witness :
  (Flat.reachable flat_erased ∧ Node.reachable node_erased) ∧
  (Flat.empty flat_erased = true ↔ ∀ k : Z, Flat.contains k flat_erased = Some false) ∧
  (Node.empty node_erased = true ↔ ∀ k : Z, Node.contains k node_erased = Some false).
Proof.
  split; [split; [apply flat_erased_reachable|apply node_erased_reachable]|].
  apply (empty_iff_no_key flat_erased node_erased);
    [apply flat_erased_reachable|apply node_erased_reachable].
Defined.


(** X14, witness: the tables of the test ProbeChainAfterErase, with two
    keys and a tombstone in 8 slots, rebuilt in 4 slots. *)
Lemma rehash_preserves_lookups_witness :
  (Flat.reachable flat_probe_chain ∧ Node.reachable node_probe_chain
   ∧ 0 < Flat.capacity flat_probe_chain ∧ 0 < Node.capacity node_probe_chain
   ∧ (∃ p, 0 ≤ p ∧ 4 = 2 ^ p)
   ∧ Flat.size flat_probe_chain < 4 ∧ Node.size node_probe_chain < 4
   ∧ 4 ≤ max_slots) ∧
  (∃ f', Flat.rehash 4 flat_probe_chain = Returned tt f'
         ∧ Flat.capacity f' = 4
         ∧ Flat.size f' = Flat.size flat_probe_chain
         ∧ Flat.tombstone_count_ f' = 0
         ∧ ∀ k, Flat.find_value k f' = Flat.find_value k flat_probe_chain
                ∧ Flat.contains k f' = Flat.contains k flat_probe_chain) ∧
  (∃ n', Node.rehash 4 node_probe_chain = Returned tt n'
         ∧ Node.capacity n' = 4
         ∧ Node.size n' = Node.size node_probe_chain
         ∧ Node.tombstone_count_ n' = 0
         ∧ Node.entries_ n' = Node.entries_ node_probe_chain
         ∧ ∀ k, Node.find_value k n' = Node.find_value k node_probe_chain
                ∧ Node.contains k n' = Node.contains k node_probe_chain).
Proof.
  assert (Hpow : ∃ p, 0 ≤ p ∧ 4 = 2 ^ p) by (exists 2; split; [lia|reflexivity]).
  assert (Hmax : 4 ≤ max_slots) by (vm_compute; discriminate).
  split.
  { split; [apply flat_probe_chain_reachable|].
    split; [apply node_probe_chain_reachable|].
    split; [reflexivity|]. split; [reflexivity|]. split; [exact Hpow|].
    split; [reflexivity|]. split; [reflexivity|exact Hmax]. }
  apply (rehash_preserves_lookups flat_probe_chain node_probe_chain 4);
    [apply flat_probe_chain_reachable|apply node_probe_chain_reachable
    |reflexivity|reflexivity|exact Hpow|reflexivity|reflexivity|exact Hmax].
Defined.

(** X15, witness: the source of the move of the test MoveConstructor. *)
Lemma flat_moved_from_is_read_only_witness :
  0 ≤ max_slots ∧
  (snd (Flat.move_assign (flat_fresh 16) flat_two) = snd (Flat.move_construct flat_two) ∧
   fst (Flat.move_construct flat_two) = flat_two ∧
   let src := snd (Flat.move_construct flat_two) in
   Flat.size src = 0 ∧ Flat.capacity src = 0
   ∧ Flat.find_value 1 src = Some None
   ∧ Flat.contains 1 src = Some false
   ∧ Flat.erase 1 src = Returned false src
   ∧ Flat.clear src = Returned tt src
   ∧ Flat.insert 1 100 src = TableFull src
   ∧ Flat.index 1 src = TableFull src).
Proof.
  assert (Hmax : 0 ≤ max_slots) by (vm_compute; discriminate).
  split; [exact Hmax|].
  apply (flat_moved_from_is_read_only flat_two (flat_fresh 16) 1 100 Hmax).
Defined.

(** X16, witness: the pointer to the value 100 of the key 1 in the map of
    the test MoveConstructor. *)
Lemma node_pointers_stay_valid_witness :
  Node.deref (ptr_to (Z.of_nat 0)) node_two = Some 100 ∧
  (∀ (key : Z) value r n',
     Node.insert key value node_two = Returned r n' →
     fst r ≠ ptr_to (Z.of_nat 0) →
     Node.deref (ptr_to (Z.of_nat 0)) n' = Some 100) ∧
  (∀ (key : Z) erased n',
     Node.erase key node_two = Returned erased n' →
     Node.deref (ptr_to (Z.of_nat 0)) n' = Some 100) ∧
  (∀ new_capacity n',
     Node.rehash new_capacity node_two = Returned tt n' →
     Node.deref (ptr_to (Z.of_nat 0)) n' = Some 100).
Proof.
  split; [reflexivity|].
  apply (node_pointers_stay_valid node_two 0 100). reflexivity.
Defined.

(** X17, witness: the map left by one insertion and one erasure, which
    holds no key and one entry. *)
Lemma node_entries_grow_until_clear_witness :
  Node.reachable node_erased ∧
  (Node.size node_erased ≤ Z.of_nat (length (Node.entries_ node_erased)) ∧
   (∀ erased n', Node.erase 5 node_erased = Returned erased n' →
      Node.entries_ n' = Node.entries_ node_erased) ∧
   (∀ p inserted n', Node.insert 5 50 node_erased = Returned (p, inserted) n' →
      length (Node.entries_ n')
      = (length (Node.entries_ node_erased) + (if inserted then 1 else 0))%nat) ∧
   (∀ n', Node.clear node_erased = Returned tt n' → Node.entries_ n' = [])).
Proof.
  split; [apply node_erased_reachable|].
  apply (node_entries_grow_until_clear node_erased 5 50), node_erased_reachable.
Defined.

(** X18, witness: the tables of the test ProbeChainAfterErase. *)
Lemma reachable_table_shape_witness :
  (Flat.reachable flat_probe_chain ∧ Node.reachable node_probe_chain) ∧
  ((Flat.capacity flat_probe_chain = 0
    ∨ ∃ p, 0 ≤ p ≤ 52 ∧ Flat.capacity flat_probe_chain = 2 ^ p
           ∧ Flat.capacity flat_probe_chain ≤ max_slots)
   ∧ Z.of_nat (length (Flat.table_ flat_probe_chain)) = Flat.capacity flat_probe_chain
   ∧ Flat.size flat_probe_chain = count Flat.occupied (Flat.table_ flat_probe_chain)
   ∧ Flat.tombstone_count_ flat_probe_chain
     = count Flat.is_tombstone (Flat.table_ flat_probe_chain)
   ∧ 0 ≤ Flat.size flat_probe_chain ∧ 0 ≤ Flat.tombstone_count_ flat_probe_chain
   ∧ Flat.size flat_probe_chain + Flat.tombstone_count_ flat_probe_chain
     ≤ Flat.capacity flat_probe_chain) ∧
  ((Node.capacity node_probe_chain = 0
    ∨ ∃ p, 0 ≤ p ≤ 52 ∧ Node.capacity node_probe_chain = 2 ^ p
           ∧ Node.capacity node_probe_chain ≤ max_slots)
   ∧ Z.of_nat (length (Node.table_ node_probe_chain)) = Node.capacity node_probe_chain
   ∧ Node.size node_probe_chain
     = count (λ slot, negb (Node.is_empty slot) && negb (Node.is_tombstone slot))
             (Node.table_ node_probe_chain)
   ∧ Node.tombstone_count_ node_probe_chain
     = count Node.is_tombstone (Node.table_ node_probe_chain)
   ∧ 0 ≤ Node.size node_probe_chain ∧ 0 ≤ Node.tombstone_count_ node_probe_chain
   ∧ Node.size node_probe_chain + Node.tombstone_count_ node_probe_chain
     ≤ Node.capacity node_probe_chain).
Proof.
  split; [split; [apply flat_probe_chain_reachable|apply node_probe_chain_reachable]|].
  apply (reachable_table_shape flat_probe_chain node_probe_chain);
    [apply flat_probe_chain_reachable|apply node_probe_chain_reachable].
Defined.

(** X19, witness: the keys 16 and 32, both with home slot 0 in 16 slots. *)
Lemma legacy_erase_loses_colliding_key_witness :
  ((16 : Z) ≠ 32
   ∧ Z.land (Legacy.hash_of (16 : Z)) 15 = Z.land (Legacy.hash_of (32 : Z)) 15
   ∧ INITIAL_CAPACITY ≤ max_slots) ∧
  ∃ m0 p1 m1 p2 m2 m3 p3 m4,
    Legacy.create = Returned tt m0
    ∧ Legacy.insert 16 1 m0 = Returned (p1, true) m1
    ∧ Legacy.insert 32 2 m1 = Returned (p2, true) m2
    ∧ Legacy.contains 32 m2 = Some true
    ∧ Legacy.erase 16 m2 = Returned true m3
    ∧ Legacy.contains 32 m3 = Some false
    ∧ Legacy.size m3 = 1
    ∧ Legacy.erase 32 m3 = Returned false m3
    ∧ Legacy.insert 32 3 m3 = Returned (p3, true) m4
    ∧ Legacy.size m4 = 2
    ∧ Legacy.entries_ m4
      = [{| Legacy.data := (16, 1) |}; {| Legacy.data := (32, 2) |};
         {| Legacy.data := (32, 3) |}].
Proof.
  assert (Hne : (16 : Z) ≠ 32) by discriminate.
  assert (Hmax : INITIAL_CAPACITY ≤ max_slots) by (vm_compute; discriminate).
  split; [split; [exact Hne|split; [reflexivity|exact Hmax]]|].
  apply (legacy_erase_loses_colliding_key 16 32 1 2 3 Hne); [reflexivity|exact Hmax].
Defined.

(** X20, witness: two further calls on the tables of the test
    ProbeChainAfterErase. *)
Lemma tables_refine_finite_map_witness :
  (Flat.reachable flat_probe_chain ∧ Node.reachable node_probe_chain
   ∧ 0 < Flat.capacity flat_probe_chain ∧ 0 < Node.capacity node_probe_chain) ∧
  (∀ os f', Flat.run [call_index 8; call_erase 0] flat_probe_chain = Returned os f' →
     os = fst (model_run [call_index 8; call_erase 0] (flat_view flat_probe_chain))
     ∧ ∀ k, flat_view f' k
            = snd (model_run [call_index 8; call_erase 0] (flat_view flat_probe_chain)) k) ∧
  (∀ os n', Node.run [call_index 8; call_erase 0] node_probe_chain = Returned os n' →
     os = fst (model_run [call_index 8; call_erase 0] (node_view node_probe_chain))
     ∧ ∀ k, node_view n' k
            = snd (model_run [call_index 8; call_erase 0] (node_view node_probe_chain)) k).
Proof.
  split.
  { split; [apply flat_probe_chain_reachable|].
    split; [apply node_probe_chain_reachable|]. split; reflexivity. }
  apply (tables_refine_finite_map flat_probe_chain node_probe_chain
           [call_index 8; call_erase 0]);
    [apply flat_probe_chain_reachable|apply node_probe_chain_reachable
    |reflexivity|reflexivity].
Defined.

(** X22, witness: the erased key 8 of the test ProbeChainAfterErase
    inserted and erased again. *)
Lemma insert_then_erase_restores_witness :
  (Flat.reachable flat_probe_chain ∧ Node.reachable node_probe_chain
   ∧ Flat.contains 8 flat_probe_chain = Some false
   ∧ Node.contains 8 node_probe_chain = Some false) ∧
  (∀ r f1, Flat.insert 8 80 flat_probe_chain = Returned r f1 →
     ∃ f2, Flat.erase 8 f1 = Returned true f2
           ∧ Flat.size f2 = Flat.size flat_probe_chain
           ∧ ∀ k, Flat.find_value k f2 = Flat.find_value k flat_probe_chain
                  ∧ Flat.contains k f2 = Flat.contains k flat_probe_chain) ∧
  (∀ r n1, Node.insert 8 80 node_probe_chain = Returned r n1 →
     ∃ n2, Node.erase 8 n1 = Returned true n2
           ∧ Node.size n2 = Node.size node_probe_chain
           ∧ ∀ k, Node.find_value k n2 = Node.find_value k node_probe_chain
                  ∧ Node.contains k n2 = Node.contains k node_probe_chain).
Proof.
  split.
  { split; [apply flat_probe_chain_reachable|].
    split; [apply node_probe_chain_reachable|]. split; reflexivity. }
  apply (insert_then_erase_restores flat_probe_chain node_probe_chain 8 80);
    [apply flat_probe_chain_reachable|apply node_probe_chain_reachable
    |reflexivity|reflexivity].
Defined.

(** X23, witness: the table of the test ProbeChainAfterErase, with two keys
    and a tombstone. *)
Lemma flat_objects_live_in_occupied_slots_witness :
  Flat.reachable flat_probe_chain ∧
  (objects_match_hashes (Flat.table_ flat_probe_chain)
   ∧ Forall (λ slot, holds_nothing slot = true) (destructor flat_probe_chain)).
Proof.
  split; [apply flat_probe_chain_reachable|].
  apply (flat_objects_live_in_occupied_slots flat_probe_chain), flat_probe_chain_reachable.
Defined.

(** X24, witness: [map(8)], which gets 16 slots. *)
Lemma sized_constructor_capacity_witness :
  0 ≤ 8 < 2 ^ 51 ∧
  ∃ p, 0 ≤ p ≤ 52
       ∧ size_t_of_double (double_div (double_of_size_t 8) MAX_LOAD_FACTOR)
         = Some (4 * 8 / 3)
       ∧ sized_capacity 8 = Some (2 ^ p)
       ∧ 4 * 8 / 3 ≤ 2 ^ p
       ∧ (∀ q, 0 ≤ q → 4 * 8 / 3 ≤ 2 ^ q → 2 ^ p ≤ 2 ^ q)
       ∧ (3 ≤ 8 → 4 * 8 ≤ 3 * 2 ^ p)
       ∧ (8 = 1 → 2 ^ p = 1) ∧ (8 = 2 → 2 ^ p = 2)
       ∧ (Flat.create_sized 8 : outcome (Flat.FlatHashMap Z Z) unit)
         = (if max_slots <? 2 ^ p then LengthError
            else Returned tt
                   {| Flat.table_ := replicate (Z.to_nat (2 ^ p)) Flat.new_slot;
                      Flat.size_ := 0; Flat.capacity_ := 2 ^ p;
                      Flat.tombstone_count_ := 0 |})
       ∧ (Node.create_sized 8 : outcome (Node.NodeHashMap Z Z) unit)
         = (if max_slots <? 2 ^ p then LengthError
            else Returned tt
                   {| Node.table_ := replicate (Z.to_nat (2 ^ p)) Node.new_slot;
                      Node.entries_ := [];
                      Node.size_ := 0; Node.capacity_ := 2 ^ p;
                      Node.tombstone_count_ := 0 |}).
Proof.
  split; [lia|]. apply (sized_constructor_capacity (Key := Z) (Value := Z) 8). lia.
Defined.


(** X26, witness: the default generator and the generator seeded with
    123456, the seed of the first benchmarks. *)
Lemma sfc64_step_is_injective_witness :
  (Sfc64.words Sfc64.default ∧ Sfc64.words (Sfc64.seeded 123456)) ∧
  Sfc64.words (snd (Sfc64.next Sfc64.default))
  ∧ Sfc64.min ≤ fst (Sfc64.next Sfc64.default) ≤ Sfc64.max
  ∧ Sfc64.words (Sfc64.seeded (wrap64 123456))
  ∧ (snd (Sfc64.next Sfc64.default) = snd (Sfc64.next (Sfc64.seeded 123456)) →
     Sfc64.default = Sfc64.seeded 123456).
Proof.
  assert (H1 : Sfc64.words Sfc64.default)
    by (vm_compute; repeat split; try reflexivity; intros H; discriminate H).
  assert (H2 : Sfc64.words (Sfc64.seeded 123456))
    by (vm_compute; repeat split; try reflexivity; intros H; discriminate H).
  split; [by split|].
  apply (sfc64_step_is_injective Sfc64.default (Sfc64.seeded 123456) 123456 H1 H2).
Defined.
